(** * The plugin runtime of echo-sys: discovery, container, event bus,
      configuration and plugin manager

    A shallow embedding of [backend/core/plugins] ([discovery.py],
    [container.py], [events.py], [config.py], [manager.py]) together with
    the properties of its dependency resolution, service resolution, event
    dispatch, configuration merging and plugin loading. *)

From stdpp Require Import gmap strings list fin_maps relations sorting.
From Stdlib Require Import ZArith Lia Ascii.

Local Open Scope string_scope.
Local Open Scope list_scope.

(** ** Results of code that may raise

    A Python call either returns, raises, or (in the embedding only) runs
    out of the recursion budget that makes a function structurally
    recursive.  The budget is shown below to be never exhausted. *)

Inductive res (E A : Type) : Type :=
| Done (a : A)
| Raised (e : E)
| Starved.

Arguments Done {E A} a.
Arguments Raised {E A} e.
Arguments Starved {E A}.

Definition bind {E A B} (r : res E A) (k : A → res E B) : res E B :=
  match r with
  | Done a => k a
  | Raised e => Raised e
  | Starved => Starved
  end.

(** [for x in l: f(x)] over a threaded state; the first exception leaves
    the loop. *)
Fixpoint for_each {E X S} (f : X → S → res E S) (l : list X) (s : S) : res E S :=
  match l with
  | [] => Done s
  | x :: l' => bind (f x s) (for_each f l')
  end.

(** ** Plugin discovery: [discovery.py] *)

Module Discovery.

Inductive PluginType := AGENT | EMBEDDING | MEMORY | MIDDLEWARE | EXTENSION.

(** [PluginManifest]: the fields the dependency resolution and the
    manager read. *)
Record PluginManifest := {
  name : string;
  version : string;
  type : PluginType;
  dependencies : list string;
  entry_point : string;
  hot_reload : bool;
  priority : Z
}.

(** [PluginDependencyError], with the plugin its message names. *)
Inductive PluginDependencyError :=
| CircularDependency (plugin_name : string)
| DependencyNotFound (plugin_name : string).

(** The three locals of [resolve_dependencies] that [visit] closes over. *)
Record VisitState := {
  visited : gset string;
  temp_visited : gset string;
  result : list string
}.

Definition visit_init : VisitState :=
  {| visited := ∅; temp_visited := ∅; result := [] |}.

Section resolve.
(** [self._discovered_plugins] *)
Variable discovered : gmap string PluginManifest.

(** [temp_visited.add(plugin_name)] *)
Definition enter (plugin_name : string) (st : VisitState) : VisitState :=
  {| visited := visited st;
     temp_visited := temp_visited st ∪ {[plugin_name]};
     result := result st |}.

(** [temp_visited.remove(plugin_name); visited.add(plugin_name);
    result.append(plugin_name)] *)
Definition leave (plugin_name : string) (st : VisitState) : VisitState :=
  {| visited := visited st ∪ {[plugin_name]};
     temp_visited := temp_visited st ∖ {[plugin_name]};
     result := result st ++ [plugin_name] |}.

Fixpoint visit (fuel : nat) (plugin_name : string) (st : VisitState)
  : res PluginDependencyError VisitState :=
  match fuel with
  | O => Starved
  | S fuel' =>
    if decide (plugin_name ∈ temp_visited st) then
      Raised (CircularDependency plugin_name)
    else if decide (plugin_name ∈ visited st) then
      Done st
    else
      match discovered !! plugin_name with
      | None => Raised (DependencyNotFound plugin_name)
      | Some manifest =>
        bind (for_each (visit fuel') (dependencies manifest)
                       (enter plugin_name st))
             (λ st2, Done (leave plugin_name st2))
      end
  end.

(** The recursion of [visit] is at most one deeper than the number of
    discovered plugins: this budget is never used up
    ([resolve_dependencies_returns]). *)
Definition visit_budget : nat := S (size discovered).

Definition visit_requested (plugin_name : string) (st : VisitState)
  : res PluginDependencyError VisitState :=
  if decide (plugin_name ∈ visited st) then Done st
  else visit visit_budget plugin_name st.

Definition resolve_dependencies (plugin_names : list string)
  : res PluginDependencyError (list string) :=
  bind (for_each visit_requested plugin_names visit_init)
       (λ st, Done (result st)).

(** *** The dependency graph *)

(** [dep n m]: the manifest of [n] lists [m] as a dependency. *)
Definition dep (n m : string) : Prop :=
  ∃ mf, discovered !! n = Some mf ∧ m ∈ dependencies mf.

Definition acyclic : Prop := ∀ n, ¬ tc dep n n.

(** Every listed dependency is itself discovered. *)
Definition closed : Prop :=
  ∀ n m, dep n m → is_Some (discovered !! m).

(** [a] occurs at a strictly smaller position than [b]. *)
Definition before (l : list string) (a b : string) : Prop :=
  ∃ i j, l !! i = Some a ∧ l !! j = Some b ∧ i < j.

(** Every entry of [l] is discovered and all its dependencies occur at
    strictly smaller positions. *)
Definition deps_first (l : list string) : Prop :=
  ∀ j n, l !! j = Some n →
    ∃ mf, discovered !! n = Some mf ∧
          ∀ x, x ∈ dependencies mf → ∃ i, i < j ∧ l !! i = Some x.

Definition reachable_from (roots : list string) (x : string) : Prop :=
  ∃ r, r ∈ roots ∧ rtc dep r x.

(** What an error raised below [n] names: a plugin reachable from [n]
    that lies on a cycle, or one that is not discovered. *)
Definition blames (n : string) (e : PluginDependencyError) : Prop :=
  match e with
  | CircularDependency x => rtc dep n x ∧ tc dep x x
  | DependencyNotFound x => rtc dep n x ∧ discovered !! x = None
  end.

(** The state between two calls of [visit]: [visited] is the set of
    entries of [result], without repetition, dependencies first. *)
Definition sound (st : VisitState) : Prop :=
  visited st = list_to_set (result st) ∧
  NoDup (result st) ∧
  deps_first (result st).

(** [st'] is [st] with new entries appended to [result], none of them
    in progress in [st], all of them satisfying [R]. *)
Definition extends (R : string → Prop) (st st' : VisitState) : Prop :=
  temp_visited st' = temp_visited st ∧
  ∃ ext, result st' = result st ++ ext ∧
         Forall (λ x, x ∉ temp_visited st ∧ R x) ext.

End resolve.

(** A discovered set: [B] depends on [A]. *)
Definition manifest (n : string) (deps : list string) : PluginManifest :=
  {| name := n; version := "1.0.0"; type := EXTENSION; dependencies := deps;
     entry_point := ""; hot_reload := true; priority := 100 |}.

Definition chain : gmap string PluginManifest :=
  <["A" := manifest "A" []]> (<["B" := manifest "B" ["A"]]> ∅).

(** [A] and [B] depend on each other. *)
Definition cycle : gmap string PluginManifest :=
  <["A" := manifest "A" ["B"]]> (<["B" := manifest "B" ["A"]]> ∅).

End Discovery.

(** ** Event bus: [events.py] *)

Module Events.

(** [EventPriority] and the [value] of each member. *)
Inductive EventPriority := LOWEST | LOW | NORMAL | HIGH | HIGHEST.

Definition value (p : EventPriority) : Z :=
  match p with
  | LOWEST => 0
  | LOW => 25
  | NORMAL => 50
  | HIGH => 75
  | HIGHEST => 100
  end.

#[global] Instance EventPriority_eq_dec : EqDecision EventPriority.
Proof. solve_decision. Defined.

(** [Event] and [PluginEvent]: the payload is kept as text. *)
Record Event := {
  type : string;
  data : option string;
  source : string;
  plugin_name : string;
  plugin_version : string
}.

(** Callables are compared by identity in Python; a handler or filter is
    the number of its callable. *)
Record EventHandler := {
  handler : nat;
  priority : EventPriority;
  async_handler : bool;
  once : bool;
  filter_func : option nat
}.

(** The generated [__eq__] of the dataclass compares all fields. *)
#[global] Instance EventHandler_eq_dec : EqDecision EventHandler.
Proof. solve_decision. Defined.

(** What the callables do when called on an event: a handler returns
    ([true]) or raises ([false]); a filter returns a truth value or raises
    ([None]); [is_coroutine] is [asyncio.iscoroutinefunction]. *)
Record Callables := {
  call_handler : nat → Event → bool;
  call_filter : nat → Event → option bool;
  is_coroutine : nat → bool
}.

Record Stats := {
  events_published : nat;
  handlers_executed : nat;
  errors : nat
}.

Record EventBus := {
  _handlers : gmap string (list EventHandler);
  _global_handlers : list EventHandler;
  _event_history : list Event;
  _max_history_size : nat;
  _stats : Stats
}.

(** [EventBus.__init__] *)
Definition new_bus : EventBus :=
  {| _handlers := ∅; _global_handlers := []; _event_history := [];
     _max_history_size := 1000;
     _stats := {| events_published := 0; handlers_executed := 0; errors := 0 |} |}.

(** [l.sort(key=lambda h: h.priority.value, reverse=True)]: descending
    and stable, equal priorities keep their order. *)
Fixpoint insert_desc (h : EventHandler) (l : list EventHandler) : list EventHandler :=
  match l with
  | [] => [h]
  | y :: l' =>
    if (value (priority h) <? value (priority y))%Z then y :: insert_desc h l'
    else h :: y :: l'
  end.

Definition sort_desc (l : list EventHandler) : list EventHandler :=
  foldr insert_desc [] l.

(** [h1] may run before [h2]: its priority is not lower. *)
Definition runs_first (h1 h2 : EventHandler) : Prop :=
  (value (priority h2) ≤ value (priority h1))%Z.

Section bus.
Variable cb : Callables.

Definition subscribe (bus : EventBus) (event_type : string) (h : nat)
    (p : EventPriority) (once_ : bool) (f : option nat) : EventBus :=
  let event_handler :=
    {| handler := h; priority := p; async_handler := is_coroutine cb h;
       once := once_; filter_func := f |} in
  let current := default [] (_handlers bus !! event_type) in
  {| _handlers := <[event_type := sort_desc (current ++ [event_handler])]> (_handlers bus);
     _global_handlers := _global_handlers bus;
     _event_history := _event_history bus;
     _max_history_size := _max_history_size bus;
     _stats := _stats bus |}.

Definition subscribe_global (bus : EventBus) (h : nat) (p : EventPriority)
    (f : option nat) : EventBus :=
  let event_handler :=
    {| handler := h; priority := p; async_handler := is_coroutine cb h;
       once := false; filter_func := f |} in
  {| _handlers := _handlers bus;
     _global_handlers := sort_desc (_global_handlers bus ++ [event_handler]);
     _event_history := _event_history bus;
     _max_history_size := _max_history_size bus;
     _stats := _stats bus |}.

(** The state of the loop of [_execute_handlers]: the counters, the
    handlers marked for removal, and (for the statements below) the
    handlers whose callable was called, in call order. *)
Record Exec := {
  stats : Stats;
  handlers_to_remove : list (string * EventHandler);
  invoked : list EventHandler
}.

Definition count_error (x : Exec) : Exec :=
  {| stats := {| events_published := events_published (stats x);
                 handlers_executed := handlers_executed (stats x);
                 errors := S (errors (stats x)) |};
     handlers_to_remove := handlers_to_remove x;
     invoked := invoked x |}.

(** The body of the [try] once the filter has let the handler through. *)
Definition call (event : Event) (h : EventHandler) (x : Exec) : Exec :=
  if call_handler cb (handler h) event then
    {| stats := {| events_published := events_published (stats x);
                   handlers_executed := S (handlers_executed (stats x));
                   errors := errors (stats x) |};
       handlers_to_remove :=
         if once h then handlers_to_remove x ++ [(type event, h)]
         else handlers_to_remove x;
       invoked := invoked x ++ [h] |}
  else
    count_error {| stats := stats x;
                   handlers_to_remove := handlers_to_remove x;
                   invoked := invoked x ++ [h] |}.

(** One iteration of [for handler in handlers_to_execute]. *)
Definition execute_one (event : Event) (x : Exec) (h : EventHandler) : Exec :=
  match filter_func h with
  | Some f =>
    match call_filter cb f event with
    | None => count_error x
    | Some false => x
    | Some true => call event h x
    end
  | None => call event h x
  end.

Definition handlers_to_execute (bus : EventBus) (event : Event) : list EventHandler :=
  sort_desc (default [] (_handlers bus !! type event) ++ _global_handlers bus).

(** One iteration of [for event_type, handler in handlers_to_remove]. *)
Definition remove_one (bus : EventBus) (r : string * EventHandler) : EventBus :=
  match _handlers bus !! r.1 with
  | Some l =>
    {| _handlers := <[r.1 := filter (λ h, h ≠ r.2) l]> (_handlers bus);
       _global_handlers := _global_handlers bus;
       _event_history := _event_history bus;
       _max_history_size := _max_history_size bus;
       _stats := _stats bus |}
  | None =>
    {| _handlers := _handlers bus;
       _global_handlers :=
         filter (λ h, h ≠ r.2) (_global_handlers bus);
       _event_history := _event_history bus;
       _max_history_size := _max_history_size bus;
       _stats := _stats bus |}
  end.

(** [_execute_handlers]: the bus afterwards and the handlers called. *)
Definition _execute_handlers (bus : EventBus) (event : Event)
  : EventBus * list EventHandler :=
  let x := foldl (execute_one event)
             {| stats := _stats bus; handlers_to_remove := []; invoked := [] |}
             (handlers_to_execute bus event) in
  let bus1 := {| _handlers := _handlers bus;
                 _global_handlers := _global_handlers bus;
                 _event_history := _event_history bus;
                 _max_history_size := _max_history_size bus;
                 _stats := stats x |} in
  (foldl remove_one bus1 (handlers_to_remove x), invoked x).

(** [publish], for an [Event] object. *)
Definition publish (bus : EventBus) (event : Event) : EventBus * list EventHandler :=
  let history := _event_history bus ++ [event] in
  let history :=
    if decide (_max_history_size bus < length history) then tail history
    else history in
  _execute_handlers
    {| _handlers := _handlers bus;
       _global_handlers := _global_handlers bus;
       _event_history := history;
       _max_history_size := _max_history_size bus;
       _stats := {| events_published := S (events_published (_stats bus));
                    handlers_executed := handlers_executed (_stats bus);
                    errors := errors (_stats bus) |} |}
    event.

(** The filter of [h] lets [event] through. *)
Definition accepts (event : Event) (h : EventHandler) : bool :=
  match filter_func h with
  | Some f => bool_decide (call_filter cb f event = Some true)
  | None => true
  end.

End bus.

(** A one-shot subscription whose handler raises. *)
Definition raising : Callables :=
  {| call_handler := λ _ _, false;
     call_filter := λ _ _, Some true;
     is_coroutine := λ _, false |}.

(** The same subscription with a handler that returns. *)
Definition returning : Callables :=
  {| call_handler := λ _ _, true;
     call_filter := λ _ _, Some true;
     is_coroutine := λ _, false |}.

Definition once_handler : EventHandler :=
  {| handler := 7; priority := NORMAL; async_handler := false;
     once := true; filter_func := None |}.

Definition test_once : Event :=
  {| type := "test.once"; data := None; source := "unknown";
     plugin_name := ""; plugin_version := "" |}.

Definition once_bus : EventBus :=
  subscribe raising new_bus "test.once" 7 NORMAL true None.

End Events.

(** ** Service container: [container.py] *)

Module Container.

Inductive ServiceLifetime := SINGLETON | TRANSIENT | SCOPED.

(** A constructor parameter as [inspect.signature] and [get_type_hints]
    show it ([self] left out): its name, its annotation if it has one,
    and whether it has a default value. *)
Record Param := {
  param_name : string;
  param_type : option string;
  has_default : bool
}.

(** A class used as an implementation: whether [get_type_hints] succeeds
    on its [__init__], the parameters, and whether calling the class
    raises. *)
Record Class := {
  cls_name : string;
  hints_ok : bool;
  parameters : list Param;
  init_raises : bool
}.

(** Service instances: built by injection from a class, or an object
    handed to the container (a registered instance, a factory product). *)
Inductive Instance :=
| Built (cls : string) (kwargs : list (string * Instance))
| Given (object : nat).

(** [descriptor.implementation]: a class, a callable that is not a class
    (returning an object or raising), or anything else. *)
Inductive Implementation :=
| ImplClass (cls : Class)
| ImplFactory (product : option Instance)
| ImplOther.

Record ServiceDescriptor := {
  service_type : string;
  implementation : Implementation;
  lifetime : ServiceLifetime
}.

(** The exceptions that travel through [resolve].  All but the last two
    are [ServiceResolutionError]s, named after their message. *)
Inductive Error :=
| CircularDependency (service : string)
| NotRegistered (service : string)
| FactoryFailed (service : string)
| InvalidImplementation (service : string)
| CannotResolveParameter (param cls : string)
| CreateFailed (cls : string) (cause : Error)
| TypeHintsError (cls : string)
| ConstructorError (cls : string).

Definition is_ServiceResolutionError (e : Error) : bool :=
  match e with
  | TypeHintsError _ | ConstructorError _ => false
  | _ => true
  end.

Record ServiceContainer := {
  _services : gmap string ServiceDescriptor;
  _singletons : gmap string Instance;
  _building : gset string
}.

(** Computations on the container: the state is kept when they raise. *)
Definition M (A : Type) : Type :=
  ServiceContainer → ServiceContainer * res Error A.

Definition ret {A} (a : A) : M A := λ c, (c, Done a).
Definition raise {A} (e : Error) : M A := λ c, (c, Raised e).
Definition starve {A} : M A := λ c, (c, Starved).

Definition mbind_c {A B} (m : M A) (k : A → M B) : M B :=
  λ c, match m c with
       | (c', Done a) => k a c'
       | (c', Raised e) => (c', Raised e)
       | (c', Starved) => (c', Starved)
       end.

Notation "x <~ m ;; k" := (mbind_c m (λ x, k))
  (at level 100, m at next level, right associativity).

(** [try: m  except Exception as e: raise wrap(e)] *)
Definition reraise {A} (wrap : Error → Error) (m : M A) : M A :=
  λ c, match m c with
       | (c', Raised e) => (c', Raised (wrap e))
       | r => r
       end.

(** [try: m  finally: f] *)
Definition finally {A} (m : M A) (f : ServiceContainer → ServiceContainer) : M A :=
  λ c, let '(c', r) := m c in (f c', r).

Definition set_services (f : gmap string ServiceDescriptor → gmap string ServiceDescriptor)
    (c : ServiceContainer) : ServiceContainer :=
  {| _services := f (_services c); _singletons := _singletons c;
     _building := _building c |}.

Definition set_singletons (f : gmap string Instance → gmap string Instance)
    (c : ServiceContainer) : ServiceContainer :=
  {| _services := _services c; _singletons := f (_singletons c);
     _building := _building c |}.

Definition set_building (f : gset string → gset string)
    (c : ServiceContainer) : ServiceContainer :=
  {| _services := _services c; _singletons := _singletons c;
     _building := f (_building c) |}.

Definition register (service : string) (impl : Implementation)
    (life : ServiceLifetime) : ServiceContainer → ServiceContainer :=
  set_services <[service := {| service_type := service; implementation := impl;
                               lifetime := life |}]>.

Definition register_singleton service impl := register service impl SINGLETON.
Definition register_transient service impl := register service impl TRANSIENT.
Definition register_scoped service impl := register service impl SCOPED.

Definition register_instance (service : string) (instance : Instance)
    (c : ServiceContainer) : ServiceContainer :=
  register service (ImplFactory (Some instance)) SINGLETON
    (set_singletons <[service := instance]> c).

Definition register_factory (service : string) (product : option Instance) :=
  register service (ImplFactory product) TRANSIENT.

(** [ServiceContainer.__init__]: the container registers itself, an object
    that is neither a class nor callable, as its own implementation. *)
Definition new_container : ServiceContainer :=
  register_singleton "ServiceContainer" ImplOther
    {| _services := ∅; _singletons := ∅; _building := ∅ |}.

(** A computation that leaves the registrations and the building set as
    they were (it may cache singletons). *)
Definition stable {A} (m : M A) : Prop :=
  ∀ c, _services (m c).1 = _services c ∧ _building (m c).1 = _building c.

Section resolution.
(** The recursive call [self.resolve]. *)
Variable resolve_ : string → M Instance.

(** The loop over the constructor parameters, collecting [kwargs]. *)
Fixpoint inject (cls : Class) (ps : list Param)
    (kwargs : list (string * Instance)) : M (list (string * Instance)) :=
  match ps with
  | [] => ret kwargs
  | p :: ps' =>
    match param_type p with
    | None =>
      if has_default p then inject cls ps' kwargs
      else raise (CannotResolveParameter (param_name p) (cls_name cls))
    | Some ty =>
      λ c, match resolve_ ty c with
           | (c', Done i) => inject cls ps' (kwargs ++ [(param_name p, i)]) c'
           | (c', Raised e) =>
             if is_ServiceResolutionError e && has_default p
             then inject cls ps' kwargs c'
             else (c', Raised e)
           | (c', Starved) => (c', Starved)
           end
    end
  end.

Definition _create_instance_with_injection (cls : Class) : M Instance :=
  reraise (CreateFailed (cls_name cls))
    (if hints_ok cls then
       kwargs <~ inject cls (parameters cls) [];;
       if init_raises cls then raise (ConstructorError (cls_name cls))
       else ret (Built (cls_name cls) kwargs)
     else raise (TypeHintsError (cls_name cls))).

Definition _create_instance (descriptor : ServiceDescriptor) : M Instance :=
  match implementation descriptor with
  | ImplFactory (Some i) => ret i
  | ImplFactory None => raise (FactoryFailed (service_type descriptor))
  | ImplClass cls => _create_instance_with_injection cls
  | ImplOther => raise (InvalidImplementation (service_type descriptor))
  end.

Definition _resolve_internal (service : string) : M Instance :=
  λ c, match _services c !! service with
       | None => (c, Raised (NotRegistered service))
       | Some descriptor =>
         match lifetime descriptor with
         | SINGLETON =>
           match _singletons c !! service with
           | Some i => (c, Done i)
           | None =>
             (instance <~ _create_instance descriptor;;
              λ c', (set_singletons <[service := instance]> c', Done instance)) c
           end
         | _ => _create_instance descriptor c
         end
       end.

End resolution.

(** [resolve]: the guard on [_building], then [_resolve_internal] between
    [add] and the [discard] of the [finally]. *)
Fixpoint resolve (fuel : nat) (service : string) : M Instance :=
  match fuel with
  | O => starve
  | S fuel' =>
    λ c, if decide (service ∈ _building c) then
           (c, Raised (CircularDependency service))
         else
           finally (_resolve_internal (resolve fuel') service)
                   (set_building (λ b, b ∖ {[service]}))
                   (set_building (λ b, b ∪ {[service]}) c)
  end.

(** One level of recursion per registered service not yet being built,
    and one more: enough for every call ([resolve_returns]). *)
Definition resolve_budget (c : ServiceContainer) : nat :=
  S (size (dom (_services c) ∖ _building c)).

(** A class whose constructor asks for an instance of itself. *)
Definition Node : Class :=
  {| cls_name := "Node"; hints_ok := true;
     parameters := [{| param_name := "parent"; param_type := Some "Node";
                       has_default := false |}];
     init_raises := false |}.

Definition node_container : ServiceContainer :=
  register_transient "Node" (ImplClass Node) new_container.

(** A container in the middle of building ["Node"]. *)
Definition building_node : ServiceContainer :=
  set_building (λ b, b ∪ {["Node"]}) node_container.

End Container.

(** ** Configuration manager: [config.py] *)

Module Config.

(** Configuration values as JSON, YAML and the coercion of environment
    strings produce them.  A float is kept as its binary64 bit pattern; a
    dict is the list of its items in insertion order. *)
Inductive value :=
| VNone
| VBool (b : bool)
| VInt (z : Z)
| VFloat (bits : Z)
| VStr (s : string)
| VList (l : list value)
| VDict (items : list (string * value)).

Abbreviation dict := (list (string * value)).

Definition is_dict (v : value) : bool :=
  match v with VDict _ => true | _ => false end.

(** [d.get(k)] *)
Fixpoint dict_get (d : dict) (k : string) : option value :=
  match d with
  | [] => None
  | (k', v) :: d' => if decide (k = k') then Some v else dict_get d' k
  end.

(** [d[k] = v]: in place for a key that is there, at the end otherwise. *)
Fixpoint dict_set (d : dict) (k : string) (v : value) : dict :=
  match d with
  | [] => [(k, v)]
  | (k', v') :: d' =>
    if decide (k = k') then (k, v) :: d' else (k', v') :: dict_set d' k v
  end.

(** What [_merge_config] stores at [result[key]] for the item
    [(key, v)] of [override] when [result.get(key)] is [current]. *)
Fixpoint merge_entry (current : option value) (v : value) {struct v} : value :=
  match current, v with
  | Some (VDict b), VDict o =>
    VDict ((fix loop (result : dict) (items : dict) {struct items} : dict :=
              match items with
              | [] => result
              | (key, x) :: items' =>
                loop (dict_set result key (merge_entry (dict_get result key) x))
                     items'
              end) b o)
  | _, _ => v
  end.

(** [_merge_config]: [result = base.copy()], then one assignment per
    item of [override]. *)
Definition _merge_config (base override : dict) : dict :=
  fold_left (λ result item,
               dict_set result item.1 (merge_entry (dict_get result item.1) item.2))
            override base.

Record ConfigSource := {
  name : string;
  path : string;
  format : string;
  priority : Z;
  watch : bool
}.

Record ConfigManager := {
  _config : dict;
  _sources : list ConfigSource;
  _defaults : dict
}.

(** [self._defaults] as [__init__] sets it. *)
Definition defaults : dict :=
  [("plugins", VDict [("discovery_paths",
                        VList [VStr "./plugins"; VStr "./backend/plugins"]);
                      ("auto_load", VBool true);
                      ("hot_reload", VBool true)]);
   ("logging", VDict [("level", VStr "INFO");
                      ("format", VStr "%(asctime)s - %(name)s - %(levelname)s - %(message)s")]);
   ("system", VDict [("health_check_interval", VInt 30);
                     ("max_concurrent_operations", VInt 10)])].

(** [ConfigManager.__init__] *)
Definition new_manager : ConfigManager :=
  {| _config := defaults; _sources := []; _defaults := defaults |}.

(** [self._sources.sort(key=lambda s: s.priority)]: ascending and
    stable. *)
Fixpoint insert_asc (s : ConfigSource) (l : list ConfigSource) : list ConfigSource :=
  match l with
  | [] => [s]
  | y :: l' =>
    if (priority y <? priority s)%Z then y :: insert_asc s l'
    else s :: y :: l'
  end.

Definition sort_asc (l : list ConfigSource) : list ConfigSource :=
  foldr insert_asc [] l.

(** [ConfigManager.get] along the pieces of a dotted key; [None] is
    the default the caller passed. *)
Fixpoint get_path (current : dict) (keys : list string) : option value :=
  match keys with
  | [] => None
  | [k] => dict_get current k
  | k :: keys' =>
    match dict_get current k with
    | Some (VDict d) => get_path d keys'
    | _ => None
    end
  end.

(** *** Strings *)

Definition lower_ascii (a : ascii) : ascii :=
  let n := Ascii.nat_of_ascii a in
  if (65 <=? n)%nat && (n <=? 90)%nat then Ascii.ascii_of_nat (n + 32) else a.

(** [s.lower()], on ASCII text. *)
Fixpoint lower (s : string) : string :=
  match s with
  | EmptyString => EmptyString
  | String a s' => String (lower_ascii a) (lower s')
  end.

(** [s.replace('_', '.')] *)
Fixpoint dots (s : string) : string :=
  match s with
  | EmptyString => EmptyString
  | String a s' =>
    String (if Ascii.eqb a "_"%char then "."%char else a) (dots s')
  end.

(** [s.split(sep)] for a one-character separator: the pieces, at least
    one. *)
Fixpoint split (sep : ascii) (s : string) : list string :=
  match s with
  | EmptyString => [EmptyString]
  | String a s' =>
    if Ascii.eqb a sep then EmptyString :: split sep s'
    else match split sep s' with
         | [] => [String a EmptyString]
         | piece :: pieces => String a piece :: pieces
         end
  end.

(** [sep in s] *)
Fixpoint contains (sep : ascii) (s : string) : bool :=
  match s with
  | EmptyString => false
  | String a s' => Ascii.eqb a sep || contains sep s'
  end.

(** [s.split(sep, 1)] when [sep in s]. *)
Fixpoint split_once (sep : ascii) (s : string) : string * string :=
  match s with
  | EmptyString => (EmptyString, EmptyString)
  | String a s' =>
    if Ascii.eqb a sep then (EmptyString, s')
    else let '(k, v) := split_once sep s' in (String a k, v)
  end.

Fixpoint startswith (s pre : string) : bool :=
  match pre, s with
  | EmptyString, _ => true
  | String p pre', String a s' => Ascii.eqb a p && startswith s' pre'
  | String _ _, EmptyString => false
  end.

(** [s[n:]] *)
Fixpoint drop_chars (n : nat) (s : string) : string :=
  match n, s with
  | O, _ => s
  | S n', String _ s' => drop_chars n' s'
  | S _, EmptyString => EmptyString
  end.

Section manager.
(** The interpreter and the world around the manager: [int], [float],
    [json.loads], [str.splitlines], [str.strip]; the extension test of
    [_detect_format]; the files ([None]: no such file, or it cannot be
    read), the parsers of whole files ([None]: they raise), and
    [os.environ]. *)
Variable py_int : string → option Z.
Variable py_float : string → option Z.
Variable json_loads : string → option value.
Variable splitlines : string → list string.
Variable strip : string → string.
Variable _detect_format : string → string.
Variable read_file : string → option string.
Variable json_load : string → option value.
Variable yaml_safe_load : string → option value.
Variable environ : list (string * string).

(** [add_source] *)
Definition add_source (cm : ConfigManager) (name_ path_ format_ : string)
    (priority_ : Z) (watch_ : bool) : ConfigManager :=
  let format_ := if decide (format_ = "auto") then _detect_format path_ else format_ in
  let source := {| name := name_; path := path_; format := format_;
                   priority := priority_; watch := watch_ |} in
  {| _config := _config cm;
     _sources := sort_asc (_sources cm ++ [source]);
     _defaults := _defaults cm |}.

(** [_convert_value] *)
Definition _convert_value (value_ : string) : value :=
  if bool_decide (lower value_ ∈ ["true"; "yes"; "1"]) then VBool true
  else if bool_decide (lower value_ ∈ ["false"; "no"; "0"]) then VBool false
  else
    match (if contains "."%char value_ then VFloat <$> py_float value_
           else VInt <$> py_int value_) with
    | Some number => number
    | None =>
      if startswith value_ "{" || startswith value_ "[" then
        match json_loads value_ with
        | Some parsed => parsed
        | None => VStr value_
        end
      else VStr value_
    end.

(** The walk of [_set_nested_value] along [keys], ending in the
    assignment of the converted value; [None] is the [TypeError] of
    walking into, or assigning into, a value that is not a dict. *)
Fixpoint set_path (current : dict) (keys : list string) (leaf : value)
  : option dict :=
  match keys with
  | [] => Some current
  | [k] => Some (dict_set current k leaf)
  | k :: keys' =>
    match dict_get current k with
    | None =>
      inner ← set_path [] keys' leaf; Some (dict_set current k (VDict inner))
    | Some (VDict d) =>
      inner ← set_path d keys' leaf; Some (dict_set current k (VDict inner))
    | Some _ => None
    end
  end.

Definition _set_nested_value (config : dict) (key value_ : string) : option dict :=
  set_path config (split "."%char key) (_convert_value value_).

Definition prefix : string := "ALSANIAMCP_".

(** One iteration of the loop of [_load_environment]. *)
Definition environment_item (config : option dict) (item : string * string)
  : option dict :=
  config ← config;
  if startswith item.1 prefix then
    _set_nested_value config
      (dots (lower (drop_chars (String.length prefix) item.1))) item.2
  else Some config.

(** [_load_environment]; [None] when [_set_nested_value] raises. *)
Definition _load_environment : option dict :=
  foldl environment_item (Some []) environ.

(** One iteration of the loop of [_parse_env_file]. *)
Definition env_file_line (config : option dict) (line : string) : option dict :=
  config ← config;
  let line := strip line in
  if negb (String.eqb line "") && negb (startswith line "#")
     && contains "="%char line then
    let '(key, value_) := split_once "="%char line in
    _set_nested_value config (dots (lower key)) value_
  else Some config.

(** [_parse_env_file] *)
Definition _parse_env_file (content : string) : option dict :=
  foldl env_file_line (Some []) (splitlines content).

(** [_load_source]: what the call returns; every failure inside it is
    caught there and gives [None]. *)
Definition _load_source (source : ConfigSource) : option value :=
  content ← read_file (path source);
  if decide (format source = "json") then json_load content
  else if decide (format source = "yaml") then yaml_safe_load content
  else if decide (format source = "env") then VDict <$> _parse_env_file content
  else None.

(** One iteration of the loop of [load_all]: a source that gives a
    non-empty dict is merged; nothing, a falsy value, or a value without
    [items] (the [AttributeError] is caught) leaves the result as it is. *)
Definition merge_source (new_config : dict) (source : ConfigSource) : dict :=
  match _load_source source with
  | Some (VDict (item :: items)) => _merge_config new_config (item :: items)
  | _ => new_config
  end.

(** [load_all], up to the assignment of [self._config]; [None] when
    [_load_environment] raises. *)
Definition load_all (cm : ConfigManager) : option ConfigManager :=
  let new_config := foldl merge_source (_defaults cm) (_sources cm) in
  env_config ← _load_environment;
  let new_config :=
    match env_config with
    | [] => new_config
    | _ => _merge_config new_config env_config
    end in
  Some {| _config := new_config; _sources := _sources cm;
          _defaults := _defaults cm |}.

(** The source that [add_source] builds from its arguments [a]. *)
Definition registered (a : ConfigSource) : ConfigSource :=
  {| name := name a; path := path a;
     format := if decide (format a = "auto") then _detect_format (path a)
               else format a;
     priority := priority a; watch := watch a |}.

(** A run of [add_source] calls, one per entry of [adds]. *)
Definition add_sources (cm : ConfigManager) (adds : list ConfigSource)
  : ConfigManager :=
  foldl (λ cm a, add_source cm (name a) (path a) (format a) (priority a) (watch a))
        cm adds.

(** The dict a source contributes: what it loads, or nothing. *)
Definition contribution (source : ConfigSource) : dict :=
  match _load_source source with
  | Some (VDict d) => d
  | _ => []
  end.

End manager.

(** The words of the specification: start from the defaults, deep-merge
    the contribution of each source in the given (ascending priority)
    order, and the environment overlay last. *)
Definition merged_in_order (start : dict) (contributions : list dict)
    (env_config : dict) : dict :=
  _merge_config (foldl _merge_config start contributions) env_config.

(** [s1] comes no later than [s2] in ascending priority. *)
Definition ascending (s1 s2 : ConfigSource) : Prop :=
  (priority s1 ≤ priority s2)%Z.

(** The two files of [test_config_merging] and one environment
    variable. *)
Definition base_json : ConfigSource :=
  {| name := "base"; path := "base.json"; format := "json";
     priority := 100; watch := true |}.

Definition override_json : ConfigSource :=
  {| name := "override"; path := "override.json"; format := "json";
     priority := 200; watch := true |}.

Definition test_json_load (content : string) : option value :=
  if decide (content = "base.json") then
    Some (VDict [("base", VStr "value"); ("shared", VStr "base_value")])
  else if decide (content = "override.json") then
    Some (VDict [("override", VStr "value"); ("shared", VStr "override_value")])
  else None.

Definition test_environ : list (string * string) :=
  [("HOME", "/root"); ("ALSANIAMCP_PLUGINS_AUTO_LOAD", "0")].

Definition test_load_all (adds : list ConfigSource) : option ConfigManager :=
  load_all (λ _, None) (λ _, None) (λ _, None) (λ _, []) id Some
           test_json_load (λ _, None) test_environ
           (add_sources (λ _, "json") new_manager adds).

(** Two variables of which the second walks into the string the first
    has set. *)
Definition clashing_environ : list (string * string) :=
  [("ALSANIAMCP_LOG", "debug"); ("ALSANIAMCP_LOG_LEVEL", "info")].

(** A single file whose one key, [plugins], is a key of the defaults
    too. *)
Definition plugins_json : ConfigSource :=
  {| name := "plugins"; path := "plugins.json"; format := "json";
     priority := 100; watch := true |}.

Definition plugins_json_load (content : string) : option value :=
  if decide (content = "plugins.json") then
    Some (VDict [("plugins", VDict [("extra", VInt 1)])])
  else None.

End Config.

(** ** Plugin manager: [manager.py] *)

Module Manager.

Inductive PluginStatus := INACTIVE | LOADING | ACTIVE | ERROR | STOPPING | STOPPED.

#[global] Instance PluginStatus_eq_dec : EqDecision PluginStatus.
Proof. solve_decision. Defined.

(** A plugin class as the manager meets it: its name, its metadata, the
    capability interfaces its instances satisfy ([isinstance]), and
    whether each of the calls the manager makes on it returns. *)
Record PluginClass := {
  class_name : string;
  metadata_name : string;
  metadata_version : string;
  hot_reload_supported : bool;
  is_agent : bool;
  is_embedding : bool;
  is_memory : bool;
  constructs : bool;
  initializes : bool;
  starts : bool;
  stops : bool
}.

(** A plugin object: [_status] is the one field the lifecycle changes. *)
Record PluginInstance := {
  plugin_class : PluginClass;
  _status : PluginStatus
}.

(** What lies outside the manager: the class [discovery.load_plugin]
    returns for a name ([None]: it raises), the configuration
    [_get_plugin_config] computes ([None]: it raises), and the event
    handlers. *)
Record World := {
  load_class : string → option PluginClass;
  plugin_config : string → option Config.dict;
  callables : Events.Callables
}.

(** The step of [load_plugin] that raised. *)
Inductive Failure :=
| ClassLoadFailed
| InstantiationFailed
| ConfigurationFailed
| InitializeFailed
| StartFailed.

Inductive PluginError :=
| PluginAlreadyLoadedError (plugin_name : string)
| PluginNotFoundError (plugin_name : string)
| PluginLoadError (plugin_name : string) (cause : Failure)
| PluginDependencyError (cause : Discovery.PluginDependencyError)
| PluginStopError (plugin_name : string).

(** The manager.  Plugin objects live in [objects] and are referred to by
    position, so that [_plugins] and the type registries share them. *)
Record PluginManager := {
  container : Container.ServiceContainer;
  event_bus : Events.EventBus;
  discovered : gmap string Discovery.PluginManifest;
  _plugins : gmap string nat;
  _plugin_classes : gmap string PluginClass;
  _plugin_configs : gmap string Config.dict;
  _load_order : list string;
  _agents : gmap string nat;
  _embeddings : gmap string nat;
  _memory_providers : gmap string nat;
  objects : list PluginInstance
}.

(** [PluginManager.__init__] after a discovery that found [found]. *)
Definition new_manager (found : gmap string Discovery.PluginManifest)
  : PluginManager :=
  {| container := Container.new_container;
     event_bus := Events.new_bus;
     discovered := found;
     _plugins := ∅; _plugin_classes := ∅; _plugin_configs := ∅;
     _load_order := [];
     _agents := ∅; _embeddings := ∅; _memory_providers := ∅;
     objects := [] |}.

(** Field updates. *)
Definition with_container (f : Container.ServiceContainer → Container.ServiceContainer)
    (m : PluginManager) : PluginManager :=
  {| container := f (container m); event_bus := event_bus m;
     discovered := discovered m; _plugins := _plugins m;
     _plugin_classes := _plugin_classes m; _plugin_configs := _plugin_configs m;
     _load_order := _load_order m; _agents := _agents m;
     _embeddings := _embeddings m; _memory_providers := _memory_providers m;
     objects := objects m |}.

Definition with_event_bus (f : Events.EventBus → Events.EventBus)
    (m : PluginManager) : PluginManager :=
  {| container := container m; event_bus := f (event_bus m);
     discovered := discovered m; _plugins := _plugins m;
     _plugin_classes := _plugin_classes m; _plugin_configs := _plugin_configs m;
     _load_order := _load_order m; _agents := _agents m;
     _embeddings := _embeddings m; _memory_providers := _memory_providers m;
     objects := objects m |}.

Definition with_plugins (f : gmap string nat → gmap string nat)
    (m : PluginManager) : PluginManager :=
  {| container := container m; event_bus := event_bus m;
     discovered := discovered m; _plugins := f (_plugins m);
     _plugin_classes := _plugin_classes m; _plugin_configs := _plugin_configs m;
     _load_order := _load_order m; _agents := _agents m;
     _embeddings := _embeddings m; _memory_providers := _memory_providers m;
     objects := objects m |}.

Definition with_plugin_classes (f : gmap string PluginClass → gmap string PluginClass)
    (m : PluginManager) : PluginManager :=
  {| container := container m; event_bus := event_bus m;
     discovered := discovered m; _plugins := _plugins m;
     _plugin_classes := f (_plugin_classes m); _plugin_configs := _plugin_configs m;
     _load_order := _load_order m; _agents := _agents m;
     _embeddings := _embeddings m; _memory_providers := _memory_providers m;
     objects := objects m |}.

Definition with_plugin_configs (f : gmap string Config.dict → gmap string Config.dict)
    (m : PluginManager) : PluginManager :=
  {| container := container m; event_bus := event_bus m;
     discovered := discovered m; _plugins := _plugins m;
     _plugin_classes := _plugin_classes m; _plugin_configs := f (_plugin_configs m);
     _load_order := _load_order m; _agents := _agents m;
     _embeddings := _embeddings m; _memory_providers := _memory_providers m;
     objects := objects m |}.

Definition with_load_order (f : list string → list string)
    (m : PluginManager) : PluginManager :=
  {| container := container m; event_bus := event_bus m;
     discovered := discovered m; _plugins := _plugins m;
     _plugin_classes := _plugin_classes m; _plugin_configs := _plugin_configs m;
     _load_order := f (_load_order m); _agents := _agents m;
     _embeddings := _embeddings m; _memory_providers := _memory_providers m;
     objects := objects m |}.

Definition with_agents (f : gmap string nat → gmap string nat)
    (m : PluginManager) : PluginManager :=
  {| container := container m; event_bus := event_bus m;
     discovered := discovered m; _plugins := _plugins m;
     _plugin_classes := _plugin_classes m; _plugin_configs := _plugin_configs m;
     _load_order := _load_order m; _agents := f (_agents m);
     _embeddings := _embeddings m; _memory_providers := _memory_providers m;
     objects := objects m |}.

Definition with_embeddings (f : gmap string nat → gmap string nat)
    (m : PluginManager) : PluginManager :=
  {| container := container m; event_bus := event_bus m;
     discovered := discovered m; _plugins := _plugins m;
     _plugin_classes := _plugin_classes m; _plugin_configs := _plugin_configs m;
     _load_order := _load_order m; _agents := _agents m;
     _embeddings := f (_embeddings m); _memory_providers := _memory_providers m;
     objects := objects m |}.

Definition with_memory_providers (f : gmap string nat → gmap string nat)
    (m : PluginManager) : PluginManager :=
  {| container := container m; event_bus := event_bus m;
     discovered := discovered m; _plugins := _plugins m;
     _plugin_classes := _plugin_classes m; _plugin_configs := _plugin_configs m;
     _load_order := _load_order m; _agents := _agents m;
     _embeddings := _embeddings m; _memory_providers := f (_memory_providers m);
     objects := objects m |}.

Definition with_objects (f : list PluginInstance → list PluginInstance)
    (m : PluginManager) : PluginManager :=
  {| container := container m; event_bus := event_bus m;
     discovered := discovered m; _plugins := _plugins m;
     _plugin_classes := _plugin_classes m; _plugin_configs := _plugin_configs m;
     _load_order := _load_order m; _agents := _agents m;
     _embeddings := _embeddings m; _memory_providers := _memory_providers m;
     objects := f (objects m) |}.

(** [plugin._status = status] *)
Definition set_status (plugin : nat) (status : PluginStatus)
  : PluginManager → PluginManager :=
  with_objects (λ objs,
    match objs !! plugin with
    | Some o => <[plugin := {| plugin_class := plugin_class o; _status := status |}]> objs
    | None => objs
    end).

(** [l.remove(x)]: the first occurrence. *)
Fixpoint remove_first (x : string) (l : list string) : list string :=
  match l with
  | [] => []
  | y :: l' => if decide (x = y) then l' else y :: remove_first x l'
  end.

(** The body of the [try] of [load_plugin]: the manager is kept when a
    step raises. *)
Definition M (A : Type) : Type :=
  PluginManager → PluginManager * res Failure A.

Definition ret {A} (a : A) : M A := λ m, (m, Done a).
Definition fail {A} (f : Failure) : M A := λ m, (m, Raised f).
Definition modify (f : PluginManager → PluginManager) : M unit :=
  λ m, (f m, Done tt).

Definition mbind_m {A B} (c : M A) (k : A → M B) : M B :=
  λ m, match c m with
       | (m', Done a) => k a m'
       | (m', Raised f) => (m', Raised f)
       | (m', Starved) => (m', Starved)
       end.

Notation "x <~ c ;; k" := (mbind_m c (λ x, k))
  (at level 100, c at next level, right associativity).
Notation "c ;;; k" := (mbind_m c (λ _, k))
  (at level 100, right associativity).

Section manager.
Variable world : World.

Definition plugin_event (type_ plugin_name_ plugin_version_ : string)
    (data_ : option string) : Events.Event :=
  {| Events.type := type_; Events.data := data_;
     Events.source := "plugin_manager";
     Events.plugin_name := plugin_name_;
     Events.plugin_version := plugin_version_ |}.

(** [await self.event_bus.publish(event)] *)
Definition publish (event : Events.Event) : PluginManager → PluginManager :=
  with_event_bus (λ bus, (Events.publish (callables world) bus event).1).

(** [plugin_class()]: a new object, [INACTIVE]. *)
Definition instantiate (cls : PluginClass) : M nat :=
  λ m, if constructs cls then
         (with_objects (λ objs, objs ++ [{| plugin_class := cls; _status := INACTIVE |}]) m,
          Done (length (objects m)))
       else (m, Raised InstantiationFailed).

(** [IPlugin.initialize] *)
Definition initialize (cls : PluginClass) (plugin : nat) : M unit :=
  modify (set_status plugin LOADING);;;
  if initializes cls then ret tt
  else modify (set_status plugin ERROR);;; fail InitializeFailed.

(** [IPlugin.start] *)
Definition start (cls : PluginClass) (plugin : nat) : M unit :=
  λ m, match _status <$> objects m !! plugin with
       | Some LOADING =>
         if starts cls then (set_status plugin ACTIVE m, Done tt)
         else (set_status plugin ERROR m, Raised StartFailed)
       | _ => (set_status plugin ERROR m, Raised StartFailed)
       end.

(** [_register_plugin_by_type] *)
Definition _register_plugin_by_type (cls : PluginClass) (plugin : nat)
  : PluginManager → PluginManager :=
  if is_agent cls then with_agents <[metadata_name cls := plugin]>
  else if is_embedding cls then with_embeddings <[metadata_name cls := plugin]>
  else if is_memory cls then with_memory_providers <[metadata_name cls := plugin]>
  else id.

(** [_unregister_plugin_by_type] *)
Definition _unregister_plugin_by_type (cls : PluginClass)
  : PluginManager → PluginManager :=
  λ m, with_memory_providers (delete (metadata_name cls))
         (with_embeddings (delete (metadata_name cls))
            (with_agents (delete (metadata_name cls)) m)).

(** [_register_plugin_services] *)
Definition _register_plugin_services (cls : PluginClass) (plugin : nat)
  : PluginManager → PluginManager :=
  λ m,
    let m := with_container
               (Container.register_instance (class_name cls) (Container.Given plugin)) m in
    if is_agent cls then
      with_container (Container.register_instance "IAgentPlugin" (Container.Given plugin)) m
    else if is_embedding cls then
      with_container (Container.register_instance "IEmbeddingPlugin" (Container.Given plugin)) m
    else if is_memory cls then
      with_container (Container.register_instance "IMemoryPlugin" (Container.Given plugin)) m
    else m.

(** [_cleanup_failed_plugin] *)
Definition _cleanup_failed_plugin (plugin_name : string)
  : PluginManager → PluginManager :=
  λ m, with_load_order (remove_first plugin_name)
         (with_plugin_classes (delete plugin_name)
            (with_plugin_configs (delete plugin_name)
               (with_plugins (delete plugin_name) m))).

(** The [try] block of [load_plugin]. *)
Definition load_plugin_body (plugin_name : string) : M nat :=
  modify (publish (plugin_event "plugin.loading" plugin_name "" None));;;
  cls <~ (λ m, match load_class world plugin_name with
               | Some cls => (m, Done cls)
               | None => (m, Raised ClassLoadFailed)
               end);;
  modify (with_plugin_classes <[plugin_name := cls]>);;;
  plugin <~ instantiate cls;;
  config <~ (λ m, match plugin_config world plugin_name with
                  | Some config => (m, Done config)
                  | None => (m, Raised ConfigurationFailed)
                  end);;
  initialize cls plugin;;;
  modify (with_plugins <[plugin_name := plugin]>);;;
  modify (with_plugin_configs <[plugin_name := config]>);;;
  modify (with_load_order (λ l, l ++ [plugin_name]));;;
  modify (_register_plugin_by_type cls plugin);;;
  modify (_register_plugin_services cls plugin);;;
  start cls plugin;;;
  modify (publish (plugin_event "plugin.loaded" plugin_name
                                (metadata_version cls) None));;;
  ret plugin.

(** [load_plugin] *)
Definition load_plugin (plugin_name : string) (m : PluginManager)
  : PluginManager * res PluginError nat :=
  if decide (is_Some (_plugins m !! plugin_name)) then
    (m, Raised (PluginAlreadyLoadedError plugin_name))
  else
    match load_plugin_body plugin_name m with
    | (m', Done plugin) => (m', Done plugin)
    | (m', Raised cause) =>
      (_cleanup_failed_plugin plugin_name
         (publish (plugin_event "plugin.error" plugin_name "" (Some "error")) m'),
       Raised (PluginLoadError plugin_name cause))
    | (m', Starved) => (m', Starved)
    end.

(** The loop of [load_plugins] over the load order. *)
Fixpoint load_in_order (load_order : list string) (m : PluginManager)
  : PluginManager * res PluginError unit :=
  match load_order with
  | [] => (m, Done tt)
  | plugin_name :: rest =>
    if decide (is_Some (_plugins m !! plugin_name)) then load_in_order rest m
    else match load_plugin plugin_name m with
         | (m', Done _) => load_in_order rest m'
         | (m', Raised e) => (m', Raised e)
         | (m', Starved) => (m', Starved)
         end
  end.

(** [load_plugins] *)
Definition load_plugins (plugin_names : list string) (m : PluginManager)
  : PluginManager * res PluginError unit :=
  match Discovery.resolve_dependencies (discovered m) plugin_names with
  | Done load_order => load_in_order load_order m
  | Raised e => (m, Raised (PluginDependencyError e))
  | Starved => (m, Starved)
  end.

(** [unload_plugin] *)
Definition unload_plugin (plugin_name : string) (m : PluginManager)
  : PluginManager * res PluginError unit :=
  match _plugins m !! plugin_name with
  | None => (m, Raised (PluginNotFoundError plugin_name))
  | Some plugin =>
    let m := publish (plugin_event "plugin.stopping" plugin_name "" None) m in
    match plugin_class <$> objects m !! plugin with
    | Some cls =>
      let m := set_status plugin STOPPING m in
      if stops cls then
        let m := set_status plugin STOPPED m in
        let m := _unregister_plugin_by_type cls m in
        let m := with_load_order (remove_first plugin_name)
                   (with_plugin_configs (delete plugin_name)
                      (with_plugins (delete plugin_name) m)) in
        (publish (plugin_event "plugin.stopped" plugin_name "" None) m, Done tt)
      else
        (publish (plugin_event "plugin.error" plugin_name "" (Some "error"))
                 (set_status plugin ERROR m),
         Raised (PluginStopError plugin_name))
    | None => (m, Raised (PluginStopError plugin_name))
    end
  end.

(** [get_loaded_plugins], [get_agents], [get_embeddings],
    [get_memory_providers] return copies of the dicts. *)
Definition get_loaded_plugins (m : PluginManager) : gmap string nat := _plugins m.
Definition get_agents (m : PluginManager) : gmap string nat := _agents m.
Definition get_embeddings (m : PluginManager) : gmap string nat := _embeddings m.
Definition get_memory_providers (m : PluginManager) : gmap string nat :=
  _memory_providers m.

End manager.

(** An agent plugin whose [_start_impl] raises. *)
Definition failing_agent : PluginClass :=
  {| class_name := "FailingAgent"; metadata_name := "helper";
     metadata_version := "1.0.0"; hot_reload_supported := true;
     is_agent := true; is_embedding := false; is_memory := false;
     constructs := true; initializes := true; starts := false; stops := true |}.

(** A plugin that is an agent and a memory provider at once. *)
Definition agent_and_memory : PluginClass :=
  {| class_name := "Recall"; metadata_name := "recall";
     metadata_version := "1.0.0"; hot_reload_supported := true;
     is_agent := true; is_embedding := false; is_memory := true;
     constructs := true; initializes := true; starts := true; stops := true |}.

Definition quiet : Events.Callables :=
  {| Events.call_handler := λ _ _, true;
     Events.call_filter := λ _ _, Some true;
     Events.is_coroutine := λ _, false |}.

Definition test_world : World :=
  {| load_class := λ n, if decide (n = "helper") then Some failing_agent
                        else if decide (n = "recall") then Some agent_and_memory
                        else None;
     plugin_config := λ _, Some [];
     callables := quiet |}.

End Manager.

(** ** Event bus: subscriptions, history and counters *)

Module EventBusOps.
Import Events.

(** [unsubscribe]: the bus afterwards and the returned flag. *)
Definition unsubscribe (bus : EventBus) (event_type : string) (h : nat)
  : EventBus * bool :=
  match _handlers bus !! event_type with
  | None => (bus, false)
  | Some l =>
    let kept := filter (λ x, handler x ≠ h) l in
    ({| _handlers := <[event_type := kept]> (_handlers bus);
        _global_handlers := _global_handlers bus;
        _event_history := _event_history bus;
        _max_history_size := _max_history_size bus;
        _stats := _stats bus |},
     bool_decide (0 < length l - length kept))
  end.

(** [unsubscribe_global] *)
Definition unsubscribe_global (bus : EventBus) (h : nat) : EventBus * bool :=
  let kept := filter (λ x, handler x ≠ h) (_global_handlers bus) in
  ({| _handlers := _handlers bus;
      _global_handlers := kept;
      _event_history := _event_history bus;
      _max_history_size := _max_history_size bus;
      _stats := _stats bus |},
   bool_decide (0 < length (_global_handlers bus) - length kept)).

(** [get_event_history]: [event_type] may be [None] or empty (both
    falsy); [events[-limit:]] keeps the last [limit] entries. *)
Definition get_event_history (bus : EventBus) (event_type : option string)
    (limit : Z) : list Event :=
  let events :=
    match event_type with
    | Some t => if decide (t = "") then _event_history bus
                else filter (λ e, type e = t) (_event_history bus)
    | None => _event_history bus
    end in
  if (0 <? limit)%Z then drop (length events - Z.to_nat limit) events
  else events.

(** [clear_history] and [clear_handlers] *)
Definition clear_history (bus : EventBus) : EventBus :=
  {| _handlers := _handlers bus; _global_handlers := _global_handlers bus;
     _event_history := []; _max_history_size := _max_history_size bus;
     _stats := _stats bus |}.

Definition clear_handlers (bus : EventBus) : EventBus :=
  {| _handlers := ∅; _global_handlers := [];
     _event_history := _event_history bus;
     _max_history_size := _max_history_size bus; _stats := _stats bus |}.

(** Every handler list of the bus is in descending priority. *)
Definition bus_sorted (bus : EventBus) : Prop :=
  StronglySorted runs_first (_global_handlers bus) ∧
  ∀ t l, _handlers bus !! t = Some l → StronglySorted runs_first l.

(** A one-shot handler that this event uses up: its filter lets the
    event through and its callable returns. *)
Definition spent (cb : Callables) (event : Event) (h : EventHandler) : bool :=
  once h && accepts cb event h && call_handler cb (handler h) event.

(** The filter of the handler raises on this event. *)
Definition filter_raises (cb : Callables) (event : Event) (h : EventHandler) : bool :=
  match filter_func h with
  | Some f => bool_decide (call_filter cb f event = None)
  | None => false
  end.

(** Two subscriptions whose handlers return, for a run of the bus. *)
Definition two_handlers : EventBus :=
  subscribe returning
    (subscribe returning new_bus "test.priority" 1 LOW false None)
    "test.priority" 2 HIGH true None.

Definition test_priority : Event :=
  {| type := "test.priority"; data := None; source := "unknown";
     plugin_name := ""; plugin_version := "" |}.

(** A bus whose global list holds a one-shot handler.  [subscribe_global]
    has no [once] argument, so such a handler was put there directly. *)
Definition once_global : EventBus :=
  {| _handlers := ∅;
     _global_handlers :=
       [{| handler := 3; priority := NORMAL; async_handler := false;
           once := true; filter_func := None |}];
     _event_history := []; _max_history_size := 1000;
     _stats := {| events_published := 0; handlers_executed := 0;
                  errors := 0 |} |}.

End EventBusOps.

(** ** Scoped service container: [container.py] *)

Module Scope.
Import Container.

(** [ScopedServiceContainer]: the parent is shared with whoever created
    the scope, so its state is carried along. *)
Record ScopedServiceContainer := {
  _parent : ServiceContainer;
  _scoped_instances : gmap string Instance
}.

(** [create_scope] *)
Definition create_scope (c : ServiceContainer) : ScopedServiceContainer :=
  {| _parent := c; _scoped_instances := ∅ |}.

(** [self._parent.resolve(service_type)] *)
Definition delegate (fuel : nat) (service : string) (s : ScopedServiceContainer)
  : ScopedServiceContainer * res Error Instance :=
  let '(c, r) := resolve fuel service (_parent s) in
  ({| _parent := c; _scoped_instances := _scoped_instances s |}, r).

(** [ScopedServiceContainer.resolve] *)
Definition scoped_resolve (fuel : nat) (service : string)
    (s : ScopedServiceContainer) : ScopedServiceContainer * res Error Instance :=
  match _services (_parent s) !! service with
  | None => delegate fuel service s
  | Some descriptor =>
    match lifetime descriptor with
    | SCOPED =>
      match _scoped_instances s !! service with
      | Some i => (s, Done i)
      | None =>
        match _create_instance (resolve fuel) descriptor (_parent s) with
        | (c, Done i) =>
          ({| _parent := c;
              _scoped_instances := <[service := i]> (_scoped_instances s) |},
           Done i)
        | (c, r) => ({| _parent := c; _scoped_instances := _scoped_instances s |}, r)
        end
      end
    | _ => delegate fuel service s
    end
  end.

(** A class without constructor parameters, registered per scope. *)
Definition Session : Class :=
  {| cls_name := "Session"; hints_ok := true; parameters := [];
     init_raises := false |}.

Definition session_container : ServiceContainer :=
  register_scoped "Session" (ImplClass Session)
    (register_singleton "Clock" (ImplClass
       {| cls_name := "Clock"; hints_ok := true; parameters := [];
          init_raises := false |}) new_container).

End Scope.

(** ** Configuration: paths through nested dicts *)

Module ConfigPaths.
Import Config.

(** The dicts met when walking [p] into [d] have no repeated key (as
    every Python dict). *)
Fixpoint unique_along (p : list string) (d : dict) {struct p} : Prop :=
  NoDup d.*1 ∧
  match p with
  | [] => True
  | k :: rest =>
    match dict_get d k with
    | Some (VDict d') => unique_along rest d'
    | _ => True
    end
  end.

(** [override] says nothing about the path [p]: walking [p] into it
    leaves the dict at a key that is not there. *)
Fixpoint untouched (p : list string) (override : dict) {struct p} : Prop :=
  match p with
  | [] => True
  | k :: rest =>
    match dict_get override k with
    | None => True
    | Some (VDict o) => rest ≠ [] ∧ untouched rest o
    | Some _ => False
    end
  end.

(** The source loads to a non-empty dict. *)
Definition contributes (d : dict) : bool :=
  match d with [] => false | _ => true end.

(** Two variables that collide: the second walks into the scalar the
    first has set. *)
Definition colliding_environ : list (string * string) :=
  [("ALSANIAMCP_LOG", "debug"); ("PATH", "/bin"); ("ALSANIAMCP_LOG_LEVEL", "info")].

End ConfigPaths.

(** ** Plugin manager: the loaded set as a whole *)

Module Lifecycle.
Import Manager.

(** The books of the manager agree: the load order has no repetition and
    lists exactly the loaded plugins, each of them has its configuration
    stored, no two names share a plugin object, and the object of a
    loaded plugin is [ACTIVE], or in [ERROR] after a stop that raised. *)
Definition consistent (m : PluginManager) : Prop :=
  NoDup (_load_order m) ∧
  dom (_plugins m) = list_to_set (_load_order m) ∧
  dom (_plugin_configs m) = dom (_plugins m) ∧
  (∀ n1 n2 plugin, _plugins m !! n1 = Some plugin →
     _plugins m !! n2 = Some plugin → n1 = n2) ∧
  ∀ n plugin, _plugins m !! n = Some plugin →
    ∃ o, objects m !! plugin = Some o ∧ (_status o = ACTIVE ∨ _status o = ERROR).

(** [plugin.status] *)
Definition status (m : PluginManager) (plugin : nat) : option PluginStatus :=
  _status <$> objects m !! plugin.

(** Whether [plugin.stop()] returns. *)
Definition stoppable (m : PluginManager) (plugin : nat) : bool :=
  match objects m !! plugin with
  | Some o => stops (plugin_class o)
  | None => false
  end.

(** The loop of [shutdown]: unload in reverse load order, going on after
    an unload that raises. *)
Definition unload_all (world : World) (m : PluginManager) : PluginManager :=
  foldl (λ m plugin_name, (unload_plugin world plugin_name m).1)
        m (reverse (_load_order m)).

(** What [reload_plugin] raises: the plain [PluginError] of a plugin
    without hot reload, the load error [discovery.reload_plugin] raises,
    or what [unload_plugin] and [load_plugin] raised. *)
Inductive ReloadError :=
| HotReloadUnsupported (plugin_name : string)
| DiscoveryReloadFailed (plugin_name : string)
| Propagated (e : PluginError).

(** [reload_plugin].  [world] is what the calls meet until the module is
    imported again, [world'] what they meet afterwards. *)
Definition reload_plugin (world world' : World) (plugin_name : string)
    (m : PluginManager) : PluginManager * res ReloadError nat :=
  match _plugins m !! plugin_name with
  | None => (m, Raised (Propagated (PluginNotFoundError plugin_name)))
  | Some plugin =>
    match plugin_class <$> objects m !! plugin with
    | Some cls =>
      if hot_reload_supported cls then
        match unload_plugin world plugin_name m with
        | (m1, Done _) =>
          match load_class world' plugin_name with
          | Some _ =>
            match load_plugin world' plugin_name m1 with
            | (m2, Done plugin') => (m2, Done plugin')
            | (m2, Raised e) => (m2, Raised (Propagated e))
            | (m2, Starved) => (m2, Starved)
            end
          | None => (m1, Raised (DiscoveryReloadFailed plugin_name))
          end
        | (m1, Raised e) => (m1, Raised (Propagated e))
        | (m1, Starved) => (m1, Starved)
        end
      else (m, Raised (HotReloadUnsupported plugin_name))
    | None => (m, Raised (HotReloadUnsupported plugin_name))
    end
  end.

(** The states the manager gets into through these methods. *)
Inductive reached : PluginManager → Prop :=
| reached_new found : reached (new_manager found)
| reached_load_plugin world n m :
    reached m → reached (load_plugin world n m).1
| reached_load_plugins world names m :
    reached m → reached (load_plugins world names m).1
| reached_unload_plugin world n m :
    reached m → reached (unload_plugin world n m).1
| reached_reload_plugin world world' n m :
    reached m → reached (reload_plugin world world' n m).1
| reached_shutdown world m :
    reached m → reached (unload_all world m).

(** A plain plugin, in no capability interface. *)
Definition plain (name : string) (stops_ : bool) : PluginClass :=
  {| class_name := "Plain"; metadata_name := name;
     metadata_version := "1.0.0"; hot_reload_supported := true;
     is_agent := false; is_embedding := false; is_memory := false;
     constructs := true; initializes := true; starts := true;
     stops := stops_ |}.

(** The plugins of [Discovery.chain]: [A] is plain and its stop raises,
    [B] is an agent. *)
Definition chain_world : World :=
  {| load_class := λ n,
       if decide (n = "A") then Some (plain "A" false)
       else if decide (n = "B") then
         Some {| class_name := "Talker"; metadata_name := "B";
                 metadata_version := "2.0.0"; hot_reload_supported := true;
                 is_agent := true; is_embedding := false; is_memory := false;
                 constructs := true; initializes := true; starts := true;
                 stops := true |}
       else None;
     plugin_config := λ _, Some [];
     callables := quiet |}.

(** The same plugins after [B] was edited into a version whose start
    raises. *)
Definition broken_world : World :=
  {| load_class := λ n,
       if decide (n = "A") then Some (plain "A" false)
       else if decide (n = "B") then Some failing_agent
       else None;
     plugin_config := λ _, Some [];
     callables := quiet |}.

(** [helper] needs [recall]; in [test_world] the first loads and the
    second does not start. *)
Definition pair : gmap string Discovery.PluginManifest :=
  <["recall" := Discovery.manifest "recall" []]>
    (<["helper" := Discovery.manifest "helper" ["recall"]]> ∅).

End Lifecycle.

(** * Properties *)

(** ** Loops *)

Lemma for_each_app {E X S} (f : X → S → res E S) l1 l2 s :
  for_each f (l1 ++ l2) s = bind (for_each f l1 s) (for_each f l2).
Proof.
  revert s. induction l1 as [|x l1 IH]; intros s; simpl; [done|].
  destruct (f x s); simpl; auto.
Qed.

(** Loop rule: an invariant indexed by the processed prefix holds at the
    end of a loop that returns; a loop that does not return stopped inside
    one iteration, entered with the invariant. *)
Lemma for_each_inv {E X S} (I : list X → S → Prop) (f : X → S → res E S) l s :
  I [] s →
  (∀ pre x post s1 s2,
      l = pre ++ x :: post → I pre s1 → f x s1 = Done s2 → I (pre ++ [x]) s2) →
  match for_each f l s with
  | Done s' => I l s'
  | r => ∃ pre x post s1, l = pre ++ x :: post ∧ I pre s1 ∧ f x s1 = r
  end.
Proof.
  intros H0 Hstep.
  assert (G : ∀ post pre s1, l = pre ++ post → I pre s1 →
    match for_each f post s1 with
    | Done s' => I l s'
    | r => ∃ pre' x post' s2, l = pre' ++ x :: post' ∧ I pre' s2 ∧ f x s2 = r
    end).
  { induction post as [|x post IH]; intros pre s1 Hl Hpre; simpl.
    - rewrite app_nil_r in Hl. by subst.
    - destruct (f x s1) as [s2| e |] eqn:Hf; simpl.
      + specialize (IH (pre ++ [x]) s2).
        rewrite <- app_assoc in IH. simpl in IH.
        apply IH; [done|]. eapply Hstep; eauto.
      + exists pre, x, post, s1. by rewrite Hf.
      + exists pre, x, post, s1. by rewrite Hf. }
  apply (G l [] s); done.
Qed.

(** ** Dependency resolution *)

Module DiscoveryFacts.
Import Discovery.

Section facts.
Variable d : gmap string PluginManifest.

Abbreviation dep := (dep d).
Abbreviation visit := (visit d).

(** The four ways through one call of [visit]. *)
Lemma visit_cases fuel n st r :
  visit (S fuel) n st = r →
  (n ∈ temp_visited st ∧ r = Raised (CircularDependency n)) ∨
  (n ∉ temp_visited st ∧ n ∈ visited st ∧ r = Done st) ∨
  (n ∉ temp_visited st ∧ n ∉ visited st ∧ d !! n = None ∧
     r = Raised (DependencyNotFound n)) ∨
  (∃ mf, n ∉ temp_visited st ∧ n ∉ visited st ∧ d !! n = Some mf ∧
     r = bind (for_each (visit fuel) (dependencies mf) (enter n st))
              (λ st2, Done (leave n st2))).
Proof.
  intros <-. simpl. repeat case_decide; auto 10.
  destruct (d !! n) as [mf|] eqn:Hd; [|by auto 10].
  do 3 right. by exists mf.
Qed.

(** A call that returns leaves [temp_visited] as it found it. *)
Lemma visit_Done_temp fuel : ∀ n st st',
  visit fuel n st = Done st' → temp_visited st' = temp_visited st.
Proof.
  induction fuel as [|fuel IH]; intros n st st' H; [done|].
  apply visit_cases in H as [[_ ?]|[(_&_&?)|[(_&_&_&?)|(mf&Ht&_&_&H)]]];
    simplify_eq; [done|].
  pose proof (for_each_inv
    (λ _ s, temp_visited s = temp_visited (enter n st))
    (visit fuel) (dependencies mf) (enter n st)) as HI.
  destruct (for_each _ _ _) as [st2| |]; simplify_eq/=.
  rewrite HI; [set_solver|done|].
  intros ????? _ <- Hv. by apply IH in Hv.
Qed.

(** The loop over the dependencies of a plugin, and the loop over the
    requested names, keep [temp_visited] too. *)
Lemma visit_loop_temp fuel l st :
  match for_each (visit fuel) l st with
  | Done st' => temp_visited st' = temp_visited st
  | r => ∃ x st1, x ∈ l ∧ temp_visited st1 = temp_visited st ∧
                  visit fuel x st1 = r
  end.
Proof.
  pose proof (for_each_inv (λ _ s, temp_visited s = temp_visited st)
                (visit fuel) l st) as HI.
  destruct (for_each _ _ _).
  - apply HI; [done|]. intros ????? _ <- Hv. by apply visit_Done_temp in Hv.
  - destruct HI as (pre&x&post&s1&->&?&?); [done| |].
    + intros ????? _ <- Hv. by apply visit_Done_temp in Hv.
    + exists x, s1. split_and!; [set_solver|done..].
  - destruct HI as (pre&x&post&s1&->&?&?); [done| |].
    + intros ????? _ <- Hv. by apply visit_Done_temp in Hv.
    + exists x, s1. split_and!; [set_solver|done..].
Qed.

(** *** The recursion budget is enough *)

Lemma visit_not_starved fuel : ∀ n st,
  temp_visited st ⊆ dom d →
  size d < fuel + size (temp_visited st) →
  visit fuel n st ≠ Starved.
Proof.
  induction fuel as [|fuel IH]; intros n st Hsub Hsz.
  - apply subseteq_size in Hsub. rewrite size_dom in Hsub. simpl in Hsz. lia.
  - intros H.
    apply visit_cases in H as [[_ ?]|[(_&_&?)|[(_&_&_&?)|(mf&Ht&_&Hd&H)]]];
      try done.
    pose proof (visit_loop_temp fuel (dependencies mf) (enter n st)) as HL.
    destruct (for_each _ _ _) as [st2| |]; simplify_eq/=.
    destruct HL as (x&s1&_&Htemp&Hv).
    revert Hv. apply IH.
    + rewrite Htemp. apply union_subseteq. split; [done|].
      apply singleton_subseteq_l, elem_of_dom. eauto.
    + rewrite Htemp, size_union, size_singleton by set_solver. lia.
Qed.

(** *** What a returning call establishes *)

Lemma extends_refl R st : extends R st st.
Proof. split; [done|]. exists []. by rewrite app_nil_r. Qed.

Lemma extends_trans (R1 R2 R : string → Prop) a b c :
  extends R1 a b → extends R2 b c →
  (∀ x, R1 x → R x) → (∀ x, R2 x → R x) →
  extends R a c.
Proof.
  intros [Ht1 (e1&Hr1&Hf1)] [Ht2 (e2&Hr2&Hf2)] H1 H2. split; [congruence|].
  exists (e1 ++ e2). split; [by rewrite Hr2, Hr1, app_assoc|].
  apply Forall_app. split.
  - eapply Forall_impl; [exact Hf1|]. naive_solver.
  - eapply Forall_impl; [exact Hf2|]. rewrite Ht1. naive_solver.
Qed.

Lemma extends_visited R a b :
  sound d a → sound d b → extends R a b → visited a ⊆ visited b.
Proof.
  intros (Ha&_) (Hb&_) (_&e&Hr&_). rewrite Ha, Hb, Hr.
  rewrite list_to_set_app_L. set_solver.
Qed.

Lemma sound_enter n st : sound d st → sound d (enter n st).
Proof. done. Qed.

Lemma sound_leave n mf st :
  sound d st → n ∉ visited st → d !! n = Some mf →
  (∀ x, x ∈ dependencies mf → x ∈ visited st) →
  sound d (leave n st).
Proof.
  intros (Hv&Hnd&Hdf) Hn Hd Hdeps. split_and!; simpl.
  - rewrite Hv, list_to_set_app_L. set_solver.
  - apply NoDup_app. split_and!; [done| |apply NoDup_singleton].
    intros x Hx ->%list_elem_of_singleton. apply Hn. rewrite Hv. set_solver.
  - intros j m Hj.
    destruct (decide (j < length (result st))) as [Hlt|Hge].
    + rewrite lookup_app_l in Hj by done.
      destruct (Hdf j m Hj) as (mf'&Hm&Hx). exists mf'. split; [done|].
      intros x Hin. destruct (Hx x Hin) as (i&Hi&Hl). exists i.
      split; [done|]. by apply lookup_app_l_Some.
    + rewrite lookup_app_r in Hj by lia.
      apply list_lookup_singleton_Some in Hj as [Hj0 <-].
      exists mf. split; [done|]. intros x Hin.
      specialize (Hdeps x Hin). rewrite Hv in Hdeps.
      apply elem_of_list_to_set, list_elem_of_lookup in Hdeps as [i Hi].
      exists i. split; [|by apply lookup_app_l_Some].
      apply lookup_lt_Some in Hi. lia.
Qed.

Lemma dep_rtc n mf x y :
  d !! n = Some mf → x ∈ dependencies mf → rtc dep x y → rtc dep n y.
Proof. intros ???. eapply rtc_l; [|done]. by exists mf. Qed.

Lemma visit_Done_sound fuel : ∀ n st st',
  visit fuel n st = Done st' → sound d st →
  sound d st' ∧ extends (rtc dep n) st st' ∧ n ∈ visited st'.
Proof.
  induction fuel as [|fuel IH]; intros n st st' H Hs; [done|].
  apply visit_cases in H as [[_ ?]|[(_&Hv&?)|[(_&_&_&?)|(mf&Ht&Hnv&Hd&H)]]];
    simplify_eq.
  { split_and!; [done|apply extends_refl|done]. }
  pose proof (for_each_inv
    (λ pre s, sound d s ∧
              extends (λ x, ∃ dd, dd ∈ pre ∧ rtc dep dd x) (enter n st) s ∧
              ∀ dd, dd ∈ pre → dd ∈ visited s)
    (visit fuel) (dependencies mf) (enter n st)) as HI.
  destruct (for_each _ _ _) as [st2| |]; simplify_eq/=.
  destruct HI as (Hs2&He2&Hin2).
  { split_and!; [by apply sound_enter|apply extends_refl|set_solver]. }
  { intros pre x post s1 s2 _ (Hs1&He1&Hin1) Hv.
    destruct (IH _ _ _ Hv Hs1) as (Hs2&He2&Hx). split_and!; [done| |].
    - eapply extends_trans; [exact He1|exact He2| |]; set_solver.
    - intros dd [?| ->%list_elem_of_singleton]%elem_of_app; [|done].
      pose proof (extends_visited _ _ _ Hs1 Hs2 He2). set_solver. }
  destruct He2 as (Htemp&ext&Hres&Hext). simpl in *.
  assert (n ∉ visited st2) as Hn2.
  { destruct Hs as (Hv&_). destruct Hs2 as (Hv2&_).
    rewrite Hv2, Hres, list_to_set_app_L, <- Hv.
    intros [?|Hx%elem_of_list_to_set]%elem_of_union; [done|].
    rewrite Forall_forall in Hext. destruct (Hext n Hx) as [Hnt _].
    set_solver. }
  split_and!.
  - eapply sound_leave; eauto.
  - split; simpl; [rewrite Htemp; set_solver|].
    exists (ext ++ [n]). split; [by rewrite Hres, app_assoc|].
    apply Forall_app. split.
    + eapply Forall_impl; [exact Hext|]. simpl.
      intros x (Hnt&dd&Hdd&Hr). split; [set_solver|]. by eapply dep_rtc.
    + apply Forall_singleton. done.
  - simpl. set_solver.
Qed.

(** *** What a raised error names *)

Lemma visit_Raised_blames fuel : ∀ n st e,
  (∀ t, t ∈ temp_visited st → tc dep t n) →
  visit fuel n st = Raised e → blames d n e.
Proof.
  induction fuel as [|fuel IH]; intros n st e Hpath H; [done|].
  apply visit_cases in H as [[Hin ?]|[(_&_&?)|[(_&_&Hd&?)|(mf&Ht&_&Hd&H)]]];
    simplify_eq.
  { split; [done|]. by apply Hpath. }
  { by split. }
  pose proof (visit_loop_temp fuel (dependencies mf) (enter n st)) as HL.
  destruct (for_each _ _ _) as [st2| |]; simplify_eq/=.
  destruct HL as (x&s1&Hx&Htemp&Hv).
  assert (dep n x) as Hnx by by exists mf.
  apply IH in Hv.
  - match goal with |- blames _ _ ?e => destruct e as [y|y] end; destruct Hv as [Hr ?]; (split; [|done]);
      by eapply rtc_l.
  - intros t. rewrite Htemp. intros [Hin| ->%elem_of_singleton]%elem_of_union.
    + eapply tc_r; [by apply Hpath|done].
    + by apply tc_once.
Qed.

(** *** The loop over the requested names *)

Lemma sound_init : sound d visit_init.
Proof.
  split_and!; [done|apply NoDup_nil_2|]. intros j n Hj. done.
Qed.

Lemma requested_loop names st :
  sound d st → temp_visited st = ∅ →
  match for_each (visit_requested d) names st with
  | Done st' =>
      sound d st' ∧ temp_visited st' = ∅ ∧
      extends (reachable_from d names) st st' ∧
      ∀ n, n ∈ names → n ∈ visited st'
  | Raised e => ∃ n, n ∈ names ∧ blames d n e
  | Starved => False
  end.
Proof.
  intros Hs Ht.
  pose proof (for_each_inv
    (λ pre s, sound d s ∧ temp_visited s = ∅ ∧
              extends (reachable_from d pre) st s ∧
              ∀ n, n ∈ pre → n ∈ visited s)
    (visit_requested d) names st) as HI.
  assert (∀ pre x post s1 s2, names = pre ++ x :: post →
    sound d s1 ∧ temp_visited s1 = ∅ ∧
      extends (reachable_from d pre) st s1 ∧
      (∀ n, n ∈ pre → n ∈ visited s1) →
    visit_requested d x s1 = Done s2 →
    sound d s2 ∧ temp_visited s2 = ∅ ∧
      extends (reachable_from d (pre ++ [x])) st s2 ∧
      (∀ n, n ∈ pre ++ [x] → n ∈ visited s2)) as Hstep.
  { intros pre x post s1 s2 _ (Hs1&Ht1&He1&Hin1) Hv.
    assert (sound d s2 ∧ extends (rtc dep x) s1 s2 ∧ x ∈ visited s2)
      as (Hs2&He2&Hx).
    { unfold visit_requested in Hv. case_decide; simplify_eq.
      - split_and!; [done|apply extends_refl|done].
      - by eapply visit_Done_sound. }
    split_and!; [done|by rewrite (proj1 He2)| |].
    - eapply extends_trans; [exact He1|exact He2| |].
      + intros y (r&?&?). exists r. split; [set_solver|done].
      + intros y ?. exists x. split; [set_solver|done].
    - intros n [?| ->%list_elem_of_singleton]%elem_of_app; [|done].
      pose proof (extends_visited _ _ _ Hs1 Hs2 He2). set_solver. }
  specialize (HI ltac:(split_and!; [done|done|apply extends_refl|set_solver])
                 Hstep).
  destruct (for_each _ _ _) as [st'|e|]; [done| |].
  - destruct HI as (pre&x&post&s1&->&(_&Ht1&_)&Hv). exists x.
    split; [set_solver|].
    unfold visit_requested in Hv. case_decide; [done|].
    eapply visit_Raised_blames; [|exact Hv]. rewrite Ht1. set_solver.
  - destruct HI as (pre&x&post&s1&->&(_&Ht1&_)&Hv).
    unfold visit_requested in Hv. case_decide; [done|].
    revert Hv. apply visit_not_starved; rewrite Ht1.
    + set_solver.
    + unfold visit_budget. rewrite size_empty. lia.
Qed.

(** [resolve_dependencies] always returns or raises. *)
Lemma resolve_dependencies_returns names :
  resolve_dependencies d names ≠ Starved.
Proof.
  unfold resolve_dependencies.
  pose proof (requested_loop names visit_init sound_init eq_refl) as HL.
  by destruct (for_each _ _ _).
Qed.

Lemma resolve_dependencies_Done names order :
  resolve_dependencies d names = Done order →
  NoDup order ∧ deps_first d order ∧
  (∀ n, n ∈ names → n ∈ order) ∧
  (∀ x, x ∈ order → reachable_from d names x).
Proof.
  unfold resolve_dependencies.
  pose proof (requested_loop names visit_init sound_init eq_refl) as HL.
  destruct (for_each _ _ _) as [st'| |]; intros; simplify_eq/=.
  destruct HL as ((Hv&Hnd&Hdf)&_&(_&ext&Hres&Hext)&Hin). simpl in Hres.
  split_and!; [done..| |].
  - intros n Hn. apply Hin in Hn. rewrite Hv in Hn. set_solver.
  - intros x Hx. rewrite Hres, Forall_forall in *. by apply Hext.
Qed.

Lemma resolve_dependencies_Raised names e :
  resolve_dependencies d names = Raised e →
  ∃ n, n ∈ names ∧ blames d n e.
Proof.
  unfold resolve_dependencies.
  pose proof (requested_loop names visit_init sound_init eq_refl) as HL.
  destruct (for_each _ _ _) as [st'| |]; intros; by simplify_eq/=.
Qed.

(** *** A dependencies-first list has no cycle and no gap *)

Lemma deps_first_dep order y z j :
  deps_first d order → order !! j = Some y → dep y z →
  ∃ i, i < j ∧ order !! i = Some z.
Proof.
  intros Hdf Hj (mf&Hd&Hz). destruct (Hdf j y Hj) as (mf'&Hd'&Hx).
  simplify_eq. by apply Hx.
Qed.

Lemma deps_first_tc order y z :
  deps_first d order → tc dep y z →
  ∀ j, order !! j = Some y → ∃ i, i < j ∧ order !! i = Some z.
Proof.
  intros Hdf. induction 1 as [y z Hyz|y w z Hyw _ IH]; intros j Hj.
  - by eapply deps_first_dep.
  - destruct (deps_first_dep _ _ _ _ Hdf Hj Hyw) as (k&Hk&Hw).
    destruct (IH k Hw) as (i&Hi&Hz). exists i. split; [lia|done].
Qed.

Lemma deps_first_rtc order y z :
  deps_first d order → rtc dep y z → y ∈ order → z ∈ order.
Proof.
  intros Hdf. induction 1 as [|y w z Hyw _ IH]; [done|].
  intros [j Hj]%list_elem_of_lookup. apply IH.
  destruct (deps_first_dep _ _ _ _ Hdf Hj Hyw) as (k&_&Hw).
  apply list_elem_of_lookup. eauto.
Qed.

Lemma resolve_dependencies_Done_clean names order x :
  resolve_dependencies d names = Done order →
  reachable_from d names x →
  is_Some (d !! x) ∧ ¬ tc dep x x.
Proof.
  intros (Hnd&Hdf&Hin&_)%resolve_dependencies_Done (r&Hr&Hrx).
  assert (x ∈ order) as [j Hj]%list_elem_of_lookup.
  { eapply deps_first_rtc; eauto. }
  split.
  - destruct (Hdf j x Hj) as (mf&->&_). eauto.
  - intros Hc. destruct (deps_first_tc _ _ _ Hdf Hc j Hj) as (i&Hi&Hx).
    pose proof (NoDup_lookup _ _ _ _ Hnd Hj Hx). lia.
Qed.

(** *** Ties follow the request order *)

Lemma resolve_dependencies_request_order pre a post order b :
  resolve_dependencies d (pre ++ a :: post) = Done order →
  b ∈ order → ¬ reachable_from d (pre ++ [a]) b →
  before order a b.
Proof.
  unfold resolve_dependencies. intros H Hb Hnr.
  replace (pre ++ a :: post) with ((pre ++ [a]) ++ post) in H
    by by rewrite <- app_assoc.
  rewrite for_each_app in H.
  pose proof (requested_loop (pre ++ [a]) visit_init sound_init eq_refl)
    as HL.
  destruct (for_each _ (pre ++ [a]) _) as [s1| |]; simplify_eq/=.
  destruct HL as (Hs1&Ht1&(_&ext1&Hres1&Hext1)&Hin1). simpl in Hres1.
  pose proof (requested_loop post s1 Hs1 Ht1) as HL.
  destruct (for_each _ post s1) as [s2| |]; simplify_eq/=.
  destruct HL as (_&_&(_&ext2&Hres2&_)&_).
  assert (a ∈ result s1) as [i Hi]%list_elem_of_lookup.
  { destruct Hs1 as (Hv&_).
    apply (elem_of_list_to_set (C:=gset string)). rewrite <- Hv.
    apply Hin1. set_solver. }
  rewrite Hres2 in Hb |- *.
  apply elem_of_app in Hb as [Hb|[j Hj]%list_elem_of_lookup].
  { rewrite Forall_forall in Hext1. by destruct (Hext1 b Hb). }
  exists i, (length (result s1) + j). split_and!.
  - by apply lookup_app_l_Some.
  - rewrite lookup_app_r by lia. rewrite <- Hj. f_equal. lia.
  - apply lookup_lt_Some in Hi. lia.
Qed.

Lemma closed_rtc n x :
  closed d → is_Some (d !! n) → rtc dep n x → is_Some (d !! x).
Proof.
  intros Hc Hn. induction 1 as [|y w z Hyw _ IH]; [done|].
  apply IH. by eapply Hc.
Qed.

End facts.

(** *** The order depends on the dependency lists only *)

Lemma for_each_ext {E X S} (f g : X → S → res E S) l s :
  (∀ x s, f x s = g x s) → for_each f l s = for_each g l s.
Proof.
  intros Hfg. revert s. induction l as [|x l IH]; intros s; simpl; [done|].
  rewrite Hfg. destruct (g x s); simpl; auto.
Qed.

Lemma visit_ext d d' fuel :
  (∀ n, dependencies <$> d !! n = dependencies <$> d' !! n) →
  ∀ n st, visit d fuel n st = visit d' fuel n st.
Proof.
  intros Hdd. induction fuel as [|fuel IH]; intros n st; simpl; [done|].
  repeat case_decide; try done.
  specialize (Hdd n).
  destruct (d !! n) as [mf|], (d' !! n) as [mf'|]; simplify_eq/=; [|done].
  rewrite Hdd. by rewrite (for_each_ext _ _ _ _ IH).
Qed.

Lemma resolve_dependencies_ext d d' names :
  (∀ n, dependencies <$> d !! n = dependencies <$> d' !! n) →
  resolve_dependencies d names = resolve_dependencies d' names.
Proof.
  intros Hdd. unfold resolve_dependencies. f_equal.
  apply for_each_ext. intros n st. unfold visit_requested, visit_budget.
  assert (dom d = dom d') as Hdom.
  { apply set_eq. intros n'. rewrite !elem_of_dom.
    specialize (Hdd n'). rewrite <- !fmap_is_Some with (f := dependencies).
    by rewrite Hdd. }
  rewrite <- (size_dom d), <- (size_dom d'), Hdom.
  case_decide; [done|]. by apply visit_ext.
Qed.

(** C2. Over an acyclic graph whose dependencies are all discovered,
    [resolve_dependencies] returns, for every list of discovered names, a
    list without repetition that holds every requested name and in which
    every entry comes after each of its listed dependencies.  The list is
    a function of the request and of the discovered dependency lists
    alone (no other manifest field, such as [priority], takes part), and
    ties follow the request: a requested name [a] comes before every
    entry that no request up to [a] depends on. *)
Theorem resolve_dependencies_topological d names :
  acyclic d → closed d → (∀ n, n ∈ names → is_Some (d !! n)) →
  ∃ order,
    resolve_dependencies d names = Done order ∧
    NoDup order ∧
    (∀ n, n ∈ names → n ∈ order) ∧
    (∀ n mf x, n ∈ order → d !! n = Some mf → x ∈ dependencies mf →
       before order x n) ∧
    (∀ d', (∀ n, dependencies <$> d !! n = dependencies <$> d' !! n) →
       resolve_dependencies d' names = Done order) ∧
    (∀ pre a post b, names = pre ++ a :: post → b ∈ order →
       ¬ reachable_from d (pre ++ [a]) b → before order a b).
Proof.
  intros Hac Hcl Hnames.
  destruct (resolve_dependencies d names) as [order|e|] eqn:Hres.
  - exists order. split; [done|].
    destruct (resolve_dependencies_Done _ _ _ Hres) as (Hnd&Hdf&Hin&_).
    split_and!; [done..| | |].
    + intros n mf x [j Hj]%list_elem_of_lookup Hd Hx.
      destruct (Hdf j n Hj) as (mf'&Hd'&Hfirst). simplify_eq.
      destruct (Hfirst x Hx) as (i&Hi&Hxi). by exists i, j.
    + intros d' Hdd. by rewrite <- (resolve_dependencies_ext d d').
    + intros pre a post b -> Hb Hnr.
      by eapply resolve_dependencies_request_order.
  - exfalso. apply resolve_dependencies_Raised in Hres as (n&Hn&Hb).
    destruct e as [x|x]; destruct Hb as [Hr Hx].
    + by apply (Hac x).
    + pose proof (closed_rtc d n x Hcl (Hnames n Hn) Hr) as [? ?]. congruence.
  - by apply resolve_dependencies_returns in Hres.
Qed.

(** A cycle or a gap within reach of the request makes the call raise. *)
Lemma resolve_dependencies_defect d names x :
  reachable_from d names x → d !! x = None ∨ tc (dep d) x x →
  ∃ e n, resolve_dependencies d names = Raised e ∧ n ∈ names ∧ blames d n e.
Proof.
  intros Hr Hx. destruct (resolve_dependencies d names) as [order|e|] eqn:Hres.
  - destruct (resolve_dependencies_Done_clean d names order x Hres Hr)
      as [[mf Hs] Hc].
    destruct Hx as [Hx|Hx]; [congruence|done].
  - apply resolve_dependencies_Raised in Hres as (n&?&?). eauto.
  - by apply resolve_dependencies_returns in Hres.
Qed.

Lemma chain_dep n m : dep chain n m → n = "B" ∧ m = "A".
Proof.
  intros (mf&Hd&Hm). unfold chain in Hd.
  apply lookup_insert_Some in Hd as [[<- <-]|[_ Hd]];
    [by apply elem_of_nil in Hm|].
  apply lookup_insert_Some in Hd as [[<- <-]|[_ Hd]]; [|done].
  by apply list_elem_of_singleton in Hm as ->.
Qed.

Lemma chain_acyclic : acyclic chain.
Proof.
  intros n Hc.
  assert (∀ a b, tc (dep chain) a b → b = "A") as Hb.
  { induction 1 as [a b H|a b c H _ IH];
      [by apply chain_dep in H as [_ ->]|done]. }
  pose proof (Hb _ _ Hc) as ->.
  inversion Hc as [a b H|a b c H _]; by apply chain_dep in H as [? _].
Qed.

Lemma chain_closed : closed chain.
Proof. intros n m [_ ->]%chain_dep. by eexists. Qed.

Lemma resolve_dependencies_topological_witness :
  ∃ order, resolve_dependencies chain ["B"] = Done order ∧ order = ["A"; "B"].
Proof.
  destruct (resolve_dependencies_topological chain ["B"]
              chain_acyclic chain_closed) as (order&H&_).
  - intros n ->%list_elem_of_singleton. by eexists.
  - exists order. split; [done|]. vm_compute in H. congruence.
Defined.

End DiscoveryFacts.

(** ** Event dispatch *)

Module EventsFacts.
Import Events.

Lemma insert_desc_perm h l : insert_desc h l ≡ₚ h :: l.
Proof.
  induction l as [|y l IH]; simpl; [done|].
  case_match; [|done]. rewrite IH. apply Permutation_swap.
Qed.

Lemma sort_desc_perm l : sort_desc l ≡ₚ l.
Proof.
  induction l as [|h l IH]; simpl; [done|].
  by rewrite insert_desc_perm, IH.
Qed.

Lemma insert_desc_sorted h l :
  StronglySorted runs_first l → StronglySorted runs_first (insert_desc h l).
Proof.
  induction 1 as [|y l Hl IH Hy]; simpl.
  - repeat constructor.
  - case_match eqn:Hlt.
    + apply Z.ltb_lt in Hlt. constructor; [done|].
      rewrite insert_desc_perm. constructor; [|done]. unfold runs_first. lia.
    + apply Z.ltb_ge in Hlt. constructor; [by constructor|].
      constructor; [done|]. eapply Forall_impl; [exact Hy|].
      unfold runs_first. intros; lia.
Qed.

Lemma sort_desc_sorted l : StronglySorted runs_first (sort_desc l).
Proof.
  induction l as [|h l IH]; simpl; [constructor|by apply insert_desc_sorted].
Qed.

Lemma filter_sorted {A} (R : relation A) (P : A → Prop) `{∀ x, Decision (P x)} l :
  StronglySorted R l → StronglySorted R (filter P l).
Proof.
  induction 1 as [|y l Hl IH Hy]; [constructor|].
  rewrite filter_cons. case_decide; [|done].
  constructor; [done|]. rewrite Forall_forall in *.
  intros z [_ Hz]%list_elem_of_filter. by apply Hy.
Qed.

Section dispatch.
Variable cb : Callables.
Variable event : Event.





End dispatch.


(** A handler that raises is never marked for removal: the mark is set
    after the call, inside the [try]. *)
Lemma call_raises_keeps cb event h x :
  call_handler cb (handler h) event = false →
  handlers_to_remove (call cb event h x) = handlers_to_remove x.
Proof. intros Hr. unfold call. by rewrite Hr. Qed.

(** A one-shot handler that returns is called by the first publish only. *)
Lemma once_handler_returning_called_once :
  let p1 := publish returning once_bus test_once in
  let p2 := publish returning p1.1 test_once in
  p1.2 = [once_handler] ∧ p2.2 = [] ∧ _handlers p2.1 !! "test.once" = Some [].
Proof. vm_compute. done. Qed.

(** C5 (the code departs from it). A one-shot handler that raises stays
    subscribed: the second publish of the same type calls it again. *)
Lemma once_handler_raising_called_again :
  let p1 := publish raising once_bus test_once in
  let p2 := publish raising p1.1 test_once in
  p1.2 = [once_handler] ∧ p2.2 = [once_handler] ∧
  _handlers p2.1 !! "test.once" = Some [once_handler].
Proof. vm_compute. done. Qed.

End EventsFacts.

(** ** Service resolution *)

Module ContainerFacts.
Import Container.

Lemma stable_ret {A} (a : A) : stable (ret a).
Proof. done. Qed.

Lemma stable_raise {A} e : stable (@raise A e).
Proof. done. Qed.

Lemma stable_bind {A B} (m : M A) (k : A → M B) :
  stable m → (∀ a, stable (k a)) → stable (mbind_c m k).
Proof.
  intros Hm Hk c. unfold mbind_c. specialize (Hm c).
  destruct (m c) as [c' [a| |]]; simpl in *; [|done..].
  destruct (Hk a c') as [-> ->]. done.
Qed.

Lemma stable_reraise {A} wrap (m : M A) : stable m → stable (reraise wrap m).
Proof.
  intros Hm c. unfold reraise. specialize (Hm c).
  by destruct (m c) as [c' [a| |]].
Qed.

Section resolution.
Variable resolve_ : string → M Instance.
Hypothesis resolve_stable : ∀ T, stable (resolve_ T).

Lemma inject_stable cls ps : ∀ kwargs, stable (inject resolve_ cls ps kwargs).
Proof.
  induction ps as [|p ps IH]; intros kwargs c; simpl; [done|].
  destruct (param_type p) as [ty|].
  - pose proof (resolve_stable ty c) as Hr.
    destruct (resolve_ ty c) as [c' [i|e|]]; simpl in *; [| |done].
    + destruct (IH (kwargs ++ [(param_name p, i)]) c') as [-> ->]. done.
    + case_match; [|done]. destruct (IH kwargs c') as [-> ->]. done.
  - case_match; [apply IH|done].
Qed.

Lemma create_instance_with_injection_stable cls :
  stable (_create_instance_with_injection resolve_ cls).
Proof.
  apply stable_reraise. case_match; [|apply stable_raise].
  apply stable_bind; [apply inject_stable|].
  intros kwargs. case_match; [apply stable_raise|apply stable_ret].
Qed.

Lemma create_instance_stable descriptor :
  stable (_create_instance resolve_ descriptor).
Proof.
  unfold _create_instance. repeat case_match;
    auto using stable_ret, stable_raise, create_instance_with_injection_stable.
Qed.

Lemma resolve_internal_stable T : stable (_resolve_internal resolve_ T).
Proof.
  intros c. unfold _resolve_internal.
  destruct (_services c !! T) as [descriptor|]; [|done].
  destruct (lifetime descriptor); try apply create_instance_stable.
  destruct (_singletons c !! T); [done|].
  apply stable_bind; [apply create_instance_stable|done].
Qed.

(** An exception that leaves [_create_instance] is never the bare
    circular-dependency error: below a constructor it is wrapped. *)
Lemma resolve_internal_not_circular T U c :
  (_resolve_internal resolve_ T c).2 ≠ Raised (CircularDependency U).
Proof.
  assert (∀ d c, (_create_instance resolve_ d c).2 ≠ Raised (CircularDependency U))
    as Hc.
  { intros d c0. unfold _create_instance.
    destruct (implementation d) as [cls|[i|]|]; try done.
    unfold _create_instance_with_injection, reraise.
    by destruct (_ c0) as [c' [a|e|]]. }
  unfold _resolve_internal.
  destruct (_services c !! T) as [descriptor|]; [|done].
  destruct (lifetime descriptor); try apply Hc.
  destruct (_singletons c !! T); [done|].
  unfold mbind_c. specialize (Hc descriptor c).
  by destruct (_create_instance resolve_ descriptor c) as [c' [a|e|]].
Qed.

End resolution.

Lemma resolve_stable fuel : ∀ T, stable (resolve fuel T).
Proof.
  induction fuel as [|fuel IH]; intros T c; simpl; [done|].
  case_decide as Hin; [done|]. unfold finally.
  pose proof (resolve_internal_stable _ IH T
                (set_building (λ b, b ∪ {[T]}) c)) as [Hs Hb].
  destruct (_resolve_internal _ _ _) as [c' r]. simpl in *.
  split; [done|]. rewrite Hb. set_solver.
Qed.

(** *** Resolution returns or raises *)

Section liveness.
Variable resolve_ : string → M Instance.
Variable c0 : ServiceContainer.
Hypothesis resolve_stable : ∀ T, stable (resolve_ T).
Hypothesis resolve_live : ∀ T c,
  _services c = _services c0 → _building c = _building c0 →
  (resolve_ T c).2 ≠ Starved.

Lemma inject_live cls ps : ∀ kwargs c,
  _services c = _services c0 → _building c = _building c0 →
  (inject resolve_ cls ps kwargs c).2 ≠ Starved.
Proof.
  induction ps as [|p ps IH]; intros kwargs c Hs Hb; simpl; [done|].
  destruct (param_type p) as [ty|].
  - pose proof (resolve_stable ty c) as [Hs' Hb'].
    pose proof (resolve_live ty c Hs Hb) as Hl.
    destruct (resolve_ ty c) as [c' [i|e|]]; simpl in *; [| |done].
    + apply IH; congruence.
    + case_match; [|done]. apply IH; congruence.
  - case_match; [by apply IH|done].
Qed.

Lemma create_instance_live descriptor c :
  _services c = _services c0 → _building c = _building c0 →
  (_create_instance resolve_ descriptor c).2 ≠ Starved.
Proof.
  intros Hs Hb. unfold _create_instance.
  destruct (implementation descriptor) as [cls|[i|]|]; try done.
  unfold _create_instance_with_injection, reraise.
  destruct (hints_ok cls); [|done]. unfold mbind_c.
  pose proof (inject_live cls (parameters cls) [] c Hs Hb) as Hl.
  destruct (inject _ _ _ _ c) as [c' [kwargs|e|]]; simpl in *; [|done..].
  by destruct (init_raises cls).
Qed.

Lemma resolve_internal_live T c :
  _services c = _services c0 → _building c = _building c0 →
  (_resolve_internal resolve_ T c).2 ≠ Starved.
Proof.
  intros Hs Hb. unfold _resolve_internal.
  destruct (_services c !! T) as [descriptor|]; [|done].
  pose proof (create_instance_live descriptor c Hs Hb) as Hl.
  destruct (lifetime descriptor); try done.
  destruct (_singletons c !! T); [done|]. unfold mbind_c.
  by destruct (_create_instance resolve_ descriptor c) as [c' [a|e|]].
Qed.

End liveness.

Lemma size_building_add (registered building : gset string) T :
  T ∈ registered → T ∉ building →
  size (registered ∖ (building ∪ {[T]})) < size (registered ∖ building).
Proof. intros Hr Hb. apply subset_size. set_solver. Qed.

Lemma resolve_returns fuel : ∀ T c,
  size (dom (_services c) ∖ _building c) < fuel →
  (resolve fuel T c).2 ≠ Starved.
Proof.
  induction fuel as [|fuel IH]; intros T c Hsz; [lia|]. simpl.
  case_decide as Hin; [done|]. unfold finally.
  set (c1 := set_building (λ b, b ∪ {[T]}) c).
  destruct (_services c !! T) as [descriptor|] eqn:Hreg.
  - assert (∀ U c2, _services c2 = _services c1 → _building c2 = _building c1 →
              (resolve fuel U c2).2 ≠ Starved) as Hlive.
    { intros U c2 Hs Hb. apply IH. rewrite Hs, Hb. simpl.
      assert (T ∈ dom (_services c)) as Hdom by (apply elem_of_dom; eauto).
      pose proof (size_building_add _ (_building c) T Hdom Hin). lia. }
    pose proof (resolve_internal_live (resolve fuel) c1 (resolve_stable fuel)
                  Hlive T c1 eq_refl eq_refl) as Hl.
    by destruct (_resolve_internal (resolve fuel) T c1) as [c' r].
  - unfold _resolve_internal. simpl. by rewrite Hreg.
Qed.

(** The guard on [_building] answers at once and changes nothing. *)
Lemma resolve_guard fuel T c :
  T ∈ _building c →
  resolve (S fuel) T c = (c, Raised (CircularDependency T)).
Proof. intros Hin. simpl. by case_decide. Qed.

(** A constructor that asks for its own class: the inner [resolve] meets
    the guard, and the outer one reports the failed construction with the
    circular dependency as its cause. *)
Lemma resolve_self_reference :
  resolve (resolve_budget node_container) "Node" node_container =
  (node_container,
   Raised (CreateFailed "Node" (CircularDependency "Node"))).
Proof. vm_compute. done. Qed.

(** C4. A service type that is in the building set is answered by the
    circular-dependency error naming it, whatever the recursion budget,
    with the container unchanged; and resolution never recurses deeper
    than the number of registered services not yet being built. *)
Theorem resolve_circular_dependency c T :
  T ∈ _building c →
  (∀ fuel, resolve (S fuel) T c = (c, Raised (CircularDependency T))) ∧
  (∀ U fuel, size (dom (_services c) ∖ _building c) < fuel →
     (resolve fuel U c).2 ≠ Starved).
Proof.
  intros Hin. split.
  - intros fuel. by apply resolve_guard.
  - intros U fuel. apply resolve_returns.
Qed.

Lemma resolve_circular_dependency_witness :
  "Node" ∈ _building building_node ∧
  resolve 1 "Node" building_node =
    (building_node, Raised (CircularDependency "Node")).
Proof.
  assert ("Node" ∈ _building building_node) as Hin.
  { apply (bool_decide_unpack _). vm_compute. exact I. }
  split; [exact Hin|].
  exact (proj1 (resolve_circular_dependency building_node "Node" Hin) 0).
Defined.

(** C8, as stated, fails on the guard: a call answered by the
    circular-dependency error leaves the type in the building set. *)
Lemma resolve_guard_keeps_building :
  let after := resolve (resolve_budget building_node) "Node" building_node in
  after.2 = Raised (CircularDependency "Node") ∧
  bool_decide ("Node" ∈ _building after.1) = true.
Proof. vm_compute. done. Qed.

(** C8, amended. Every call of [resolve] leaves the building set as it
    found it; a call that passes the guard (the type was not being built)
    has removed the type again when it returns or raises; with enough
    budget the call does return or raise; and after a call on a container
    that was building nothing, no later call is answered by the guard. *)
Theorem resolve_restores_building fuel T c :
  _building (resolve fuel T c).1 = _building c ∧
  (T ∉ _building c → T ∉ _building (resolve fuel T c).1) ∧
  (size (dom (_services c) ∖ _building c) < fuel →
     (resolve fuel T c).2 ≠ Starved) ∧
  (_building c = ∅ → ∀ U fuel',
     (resolve (S fuel') U (resolve fuel T c).1).2 ≠ Raised (CircularDependency U)).
Proof.
  pose proof (resolve_stable fuel T c) as [_ Hb].
  split_and!; [done|by rewrite Hb|apply resolve_returns|].
  intros Hempty U fuel'. simpl.
  case_decide as Hin; [rewrite Hb, Hempty in Hin; set_solver|].
  unfold finally.
  pose proof (resolve_internal_not_circular (resolve fuel') U U
    (set_building (λ b, b ∪ {[U]}) (resolve fuel T c).1)) as Hnc.
  by destruct (_resolve_internal _ _ _) as [c' r].
Qed.

End ContainerFacts.

(** ** Configuration merging *)

Module ConfigFacts.
Import Config.

Lemma dict_get_set_eq d k v : dict_get (dict_set d k v) k = Some v.
Proof.
  induction d as [|[k' v'] d IH]; simpl; [by case_decide|].
  case_decide; simpl; by case_decide.
Qed.

Lemma dict_get_set_ne d k k' v :
  k ≠ k' → dict_get (dict_set d k' v) k = dict_get d k.
Proof.
  intros Hne. induction d as [|[k0 v0] d IH]; simpl; [by case_decide|].
  repeat (case_decide; simpl; simplify_eq); done.
Qed.

Lemma dict_get_None d k : k ∉ d.*1 → dict_get d k = None.
Proof.
  induction d as [|[k' v'] d IH]; simpl; [done|].
  intros Hn. case_decide; [set_solver|]. apply IH. set_solver.
Qed.

Lemma dict_set_keys d k v :
  (dict_set d k v).*1 = if decide (k ∈ d.*1) then d.*1 else d.*1 ++ [k].
Proof.
  induction d as [|[k' v'] d IH].
  { rewrite decide_False by set_solver. done. }
  cbn [dict_set]. destruct (decide (k = k')) as [->|Hk].
  - rewrite decide_True by set_solver. done.
  - rewrite !fmap_cons, IH. cbn [fst].
    destruct (decide (k ∈ d.*1)) as [Hin|Hin].
    + rewrite decide_True by set_solver. done.
    + rewrite decide_False by set_solver. done.
Qed.

Lemma dict_set_NoDup d k v : NoDup d.*1 → NoDup (dict_set d k v).*1.
Proof.
  intros Hd. rewrite dict_set_keys. case_decide; [done|].
  apply NoDup_app. split_and!; [done|set_solver|apply NoDup_singleton].
Qed.

(** [merge_entry] on two dicts is the recursive call of [_merge_config]. *)
Lemma merge_entry_dicts b o :
  merge_entry (Some (VDict b)) (VDict o) = VDict (_merge_config b o).
Proof.
  simpl. f_equal. unfold _merge_config. revert b.
  induction o as [|[k x] o IH]; intros b; simpl; [done|]. apply IH.
Qed.

Lemma merge_entry_scalar current v : is_dict v = false → merge_entry current v = v.
Proof. destruct v, current as [[]|]; done. Qed.

Lemma merge_entry_over_scalar current v :
  (∀ b, current ≠ Some (VDict b)) → merge_entry current v = v.
Proof. destruct current as [[]|], v; try done. intros H. by destruct (H items). Qed.

Lemma merge_config_nil base : _merge_config base [] = base.
Proof. done. Qed.

Lemma merge_config_cons base k x override :
  _merge_config base ((k, x) :: override) =
  _merge_config (dict_set base k (merge_entry (dict_get base k) x)) override.
Proof. done. Qed.

(** The deep merge, key by key: a key the override lacks keeps the value
    of the base; a key it has takes the override's value, unless both
    values are dicts, which are merged in turn. *)
Lemma merge_config_get base override k :
  NoDup override.*1 →
  dict_get (_merge_config base override) k =
  match dict_get override k with
  | None => dict_get base k
  | Some v => Some (merge_entry (dict_get base k) v)
  end.
Proof.
  revert base. induction override as [|[k' x] override IH]; intros base Hnd;
    [done|].
  apply NoDup_cons in Hnd as [Hk' Hnd]. simpl in Hk'.
  rewrite merge_config_cons, IH by done. simpl.
  case_decide as Hk.
  - subst. rewrite (dict_get_None override k') by done.
    by rewrite dict_get_set_eq.
  - by rewrite dict_get_set_ne.
Qed.

Lemma merge_config_NoDup base override :
  NoDup base.*1 → NoDup (_merge_config base override).*1.
Proof.
  revert base. induction override as [|[k' x] override IH]; intros base Hnd;
    [done|].
  rewrite merge_config_cons. apply IH. by apply dict_set_NoDup.
Qed.

(** *** The order of the sources *)

Lemma insert_asc_perm s l : insert_asc s l ≡ₚ s :: l.
Proof.
  induction l as [|y l IH]; simpl; [done|].
  case_match; [|done]. rewrite IH. apply Permutation_swap.
Qed.

Lemma sort_asc_perm l : sort_asc l ≡ₚ l.
Proof.
  induction l as [|h l IH]; simpl; [done|].
  by rewrite insert_asc_perm, IH.
Qed.

Lemma insert_asc_sorted s l :
  StronglySorted ascending l → StronglySorted ascending (insert_asc s l).
Proof.
  induction 1 as [|y l Hl IH Hy]; simpl.
  - repeat constructor.
  - case_match eqn:Hlt.
    + apply Z.ltb_lt in Hlt. constructor; [done|].
      rewrite insert_asc_perm. constructor; [|done]. unfold ascending. lia.
    + apply Z.ltb_ge in Hlt. constructor; [by constructor|].
      constructor; [done|]. eapply Forall_impl; [exact Hy|].
      unfold ascending. intros; lia.
Qed.

Lemma sort_asc_sorted l : StronglySorted ascending (sort_asc l).
Proof.
  induction l as [|h l IH]; simpl; [constructor|by apply insert_asc_sorted].
Qed.

Section manager.
Variable py_int : string → option Z.
Variable py_float : string → option Z.
Variable json_loads : string → option value.
Variable splitlines : string → list string.
Variable strip : string → string.
Variable _detect_format : string → string.
Variable read_file : string → option string.
Variable json_load : string → option value.
Variable yaml_safe_load : string → option value.
Variable environ : list (string * string).

Abbreviation load_source :=
  (_load_source py_int py_float json_loads splitlines strip read_file
                json_load yaml_safe_load).
Abbreviation contribution_of :=
  (contribution py_int py_float json_loads splitlines strip read_file
                json_load yaml_safe_load).
Abbreviation load_environment :=
  (_load_environment py_int py_float json_loads environ).
Abbreviation load :=
  (load_all py_int py_float json_loads splitlines strip read_file
            json_load yaml_safe_load environ).
Abbreviation convert := (_convert_value py_int py_float json_loads).

Lemma add_sources_defaults adds : ∀ cm,
  _defaults (add_sources _detect_format cm adds) = _defaults cm.
Proof. induction adds as [|a adds IH]; intros cm; simpl; [done|]. by rewrite IH. Qed.

Lemma add_sources_perm adds : ∀ cm,
  _sources (add_sources _detect_format cm adds) ≡ₚ
  _sources cm ++ (registered _detect_format <$> adds).
Proof.
  induction adds as [|a adds IH]; intros cm; simpl; [by rewrite app_nil_r|].
  etrans; [apply IH|]. simpl.
  rewrite sort_asc_perm, <- app_assoc. done.
Qed.

Lemma add_sources_sorted adds : ∀ cm,
  StronglySorted ascending (_sources cm) →
  StronglySorted ascending (_sources (add_sources _detect_format cm adds)).
Proof.
  induction adds as [|a adds IH]; intros cm Hs; simpl; [done|].
  apply IH. simpl. apply sort_asc_sorted.
Qed.

(** *** [load_all] is the merge in source order *)

Lemma merge_source_contribution new_config source :
  merge_source py_int py_float json_loads splitlines strip read_file
               json_load yaml_safe_load new_config source =
  _merge_config new_config (contribution_of source).
Proof.
  unfold merge_source, contribution.
  by destruct (load_source source) as [[| | | | | |[|item items]]|].
Qed.

Lemma merge_sources_contributions sources : ∀ new_config,
  foldl (merge_source py_int py_float json_loads splitlines strip read_file
                      json_load yaml_safe_load) new_config sources =
  foldl _merge_config new_config (contribution_of <$> sources).
Proof.
  induction sources as [|s sources IH]; intros c; simpl; [done|].
  by rewrite IH, merge_source_contribution.
Qed.

Lemma load_all_config cm env_config :
  load_environment = Some env_config →
  load cm =
  Some {| _config := merged_in_order (_defaults cm)
                       (contribution_of <$> _sources cm) env_config;
          _sources := _sources cm; _defaults := _defaults cm |}.
Proof.
  intros Henv. unfold load_all. rewrite Henv. simpl.
  rewrite merge_sources_contributions. unfold merged_in_order.
  by destruct env_config.
Qed.

(** *** The environment overlay has no repeated key *)

Lemma set_path_NoDup keys : ∀ current leaf d,
  set_path current keys leaf = Some d → NoDup current.*1 → NoDup d.*1.
Proof.
  destruct keys as [|k keys]; intros current leaf d H Hnd; simpl in H.
  { by simplify_eq. }
  destruct keys as [|k' keys]; [simplify_eq; by apply dict_set_NoDup|].
  destruct (dict_get current k) as [[]|]; simplify_option_eq;
    by apply dict_set_NoDup.
Qed.

Lemma environment_item_NoDup config item d :
  environment_item py_int py_float json_loads config item = Some d →
  (∀ d0, config = Some d0 → NoDup d0.*1) → NoDup d.*1.
Proof.
  unfold environment_item, _set_nested_value. intros H Hc.
  destruct config as [d1|]; [|done]. simpl in H.
  destruct (startswith item.1 prefix); simplify_eq; [|by apply Hc].
  eapply set_path_NoDup; [exact H|by apply Hc].
Qed.

Lemma load_environment_NoDup env_config :
  load_environment = Some env_config → NoDup env_config.*1.
Proof.
  unfold _load_environment.
  assert (∀ l start d,
    foldl (environment_item py_int py_float json_loads) start l = Some d →
    (∀ d0, start = Some d0 → NoDup d0.*1) → NoDup d.*1) as H.
  { induction l as [|item l IH]; intros start d Hf Hs; simpl in Hf; [by apply Hs|].
    eapply IH; [exact Hf|]. intros d0 Hd0.
    by eapply environment_item_NoDup. }
  intros Hl. eapply H; [exact Hl|]. intros d0 [= <-]. apply NoDup_nil_2.
Qed.

(** The value at a top-level key after the three merges of a manager
    with two sources. *)
Lemma merged_two_get da db env_config k :
  NoDup da.*1 → NoDup db.*1 → NoDup env_config.*1 →
  dict_get env_config k = None →
  dict_get (merged_in_order defaults [da; db] env_config) k =
  match dict_get db k with
  | Some vb =>
    Some (merge_entry
            (match dict_get da k with
             | Some va => Some (merge_entry (dict_get defaults k) va)
             | None => dict_get defaults k
             end) vb)
  | None =>
    match dict_get da k with
    | Some va => Some (merge_entry (dict_get defaults k) va)
    | None => dict_get defaults k
    end
  end.
Proof.
  intros Ha Hb He Hk. unfold merged_in_order. simpl.
  rewrite merge_config_get, Hk by done.
  rewrite merge_config_get by done.
  by rewrite merge_config_get by done.
Qed.

Lemma two_sources a b adds :
  adds = [a; b] ∨ adds = [b; a] → priority a = 100%Z → priority b = 200%Z →
  _sources (add_sources _detect_format new_manager adds) =
  [registered _detect_format a; registered _detect_format b].
Proof.
  destruct a, b. simpl. intros [-> | ->] -> ->; done.
Qed.

(** C7. After any run of [add_source] calls on a fresh manager,
    [load_all] (given that the environment overlay loads) sets the
    configuration to the built-in defaults deep-merged with what each
    source contributes, the sources taken in ascending priority, and with
    the environment overlay last.  The deep merge is key-wise: a key the
    override lacks keeps its value, two dicts at one key are merged in
    turn, and any other value of the override replaces what was there.
    In particular, for two sources of priority 100 and 200 and a key the
    overlay does not set: if both have it, and not both values are dicts,
    the result holds the value of the priority-200 source; if only one
    has it (and the defaults hold no dict to merge it with), the result
    holds that value unchanged. *)
Theorem load_all_merges_in_priority_order adds env_config :
  load_environment = Some env_config →
  let cm := add_sources _detect_format new_manager adds in
  (∃ ordered,
      ordered ≡ₚ registered _detect_format <$> adds ∧
      StronglySorted ascending ordered ∧
      _config <$> load cm =
        Some (merged_in_order defaults (contribution_of <$> ordered) env_config)) ∧
  (∀ base override k, NoDup override.*1 →
     dict_get (_merge_config base override) k =
     match dict_get override k, dict_get base k with
     | None, current => current
     | Some (VDict o), Some (VDict b) => Some (VDict (_merge_config b o))
     | Some v, _ => Some v
     end) ∧
  (∀ a b, adds = [a; b] ∨ adds = [b; a] →
     priority a = 100%Z → priority b = 200%Z →
     let da := contribution_of (registered _detect_format a) in
     let db := contribution_of (registered _detect_format b) in
     NoDup da.*1 → NoDup db.*1 →
     ∃ cm', load cm = Some cm' ∧
       ∀ k, dict_get env_config k = None →
         (∀ va vb, dict_get da k = Some va → dict_get db k = Some vb →
            is_dict va && is_dict vb = false →
            dict_get (_config cm') k = Some vb) ∧
         (∀ v, dict_get da k = Some v → dict_get db k = None →
            dict_get defaults k = None ∨ is_dict v = false →
            dict_get (_config cm') k = Some v) ∧
         (∀ v, dict_get da k = None → dict_get db k = Some v →
            dict_get defaults k = None ∨ is_dict v = false →
            dict_get (_config cm') k = Some v)).
Proof.
  intros Henv cm. split_and!.
  - exists (_sources cm). split_and!.
    + unfold cm. by rewrite add_sources_perm.
    + apply add_sources_sorted. constructor.
    + rewrite (load_all_config cm env_config Henv). simpl.
      unfold cm. by rewrite add_sources_defaults.
  - intros base override k Hnd. rewrite merge_config_get by done.
    destruct (dict_get override k) as [v|]; [|done].
    destruct v, (dict_get base k) as [[]|]; try done.
    by rewrite merge_entry_dicts.
  - intros a b Hadds Ha Hb da db Hda Hdb.
    eexists. split; [by apply load_all_config|]. cbn [_config].
    unfold cm. rewrite add_sources_defaults, (two_sources a b) by done.
    change (_defaults new_manager) with defaults.
    change (contribution_of <$> _) with [da; db].
    intros k Hk.
    pose proof (load_environment_NoDup _ Henv) as Hne.
    rewrite (merged_two_get _ _ _ _ Hda Hdb Hne Hk).
    split_and!.
    + intros va vb -> -> Hd. f_equal.
      destruct (is_dict vb) eqn:Hvb; [|by apply merge_entry_scalar].
      rewrite andb_true_r in Hd. apply merge_entry_over_scalar.
      intros d0. rewrite (merge_entry_scalar _ va Hd).
      intros [= ->]. done.
    + intros v -> -> [Hdef|Hv]; f_equal.
      * rewrite Hdef. by apply merge_entry_over_scalar.
      * by apply merge_entry_scalar.
    + intros v -> -> [Hdef|Hv]; f_equal.
      * rewrite Hdef. by apply merge_entry_over_scalar.
      * by apply merge_entry_scalar.
Qed.

(** *** Coercion of environment strings *)

Lemma set_path_get keys : ∀ current leaf d,
  keys ≠ [] → set_path current keys leaf = Some d →
  get_path d keys = Some leaf.
Proof.
  induction keys as [|k keys IH]; intros current leaf d Hne H; [done|].
  destruct keys as [|k' keys].
  { simpl in *. simplify_eq. apply dict_get_set_eq. }
  change (set_path current (k :: k' :: keys) leaf) with
    (match dict_get current k with
     | None =>
       inner ← set_path [] (k' :: keys) leaf;
       Some (dict_set current k (VDict inner))
     | Some (VDict d0) =>
       inner ← set_path d0 (k' :: keys) leaf;
       Some (dict_set current k (VDict inner))
     | Some _ => None
     end) in H.
  change (get_path d (k :: k' :: keys)) with
    (match dict_get d k with
     | Some (VDict d0) => get_path d0 (k' :: keys)
     | _ => None
     end).
  destruct (dict_get current k) as [v|]; [destruct v; try done|];
    (destruct (set_path _ (k' :: keys) leaf) as [inner|] eqn:Hin; [|done]);
    injection H as <-; rewrite dict_get_set_eq; by eapply IH.
Qed.

Lemma split_nonempty sep s : split sep s ≠ [].
Proof. destruct s as [|a s]; simpl; [done|]. by repeat case_match. Qed.

Lemma set_nested_value_get config key s config' :
  _set_nested_value py_int py_float json_loads config key s = Some config' →
  get_path config' (split "."%char key) = Some (convert s).
Proof. apply set_path_get, split_nonempty. Qed.

(** C9. The coercion of environment strings looks for booleans first:
    a string that is [true], [yes] or [1] up to case becomes the boolean
    true, one that is [false], [no] or [0] the boolean false, whatever
    [int] would make of it, so ["1"] and ["0"] never become integers.
    Every other string is tried as a number ([float] when it holds a dot,
    [int] otherwise), then as JSON when it starts with a brace or a
    bracket, and is kept as it is when neither succeeds.  The value
    stored for an environment variable, and for a line of an env file, is
    the coerced one. *)
Theorem convert_value_booleans_first :
  (∀ s, lower s ∈ ["true"; "yes"; "1"] → convert s = VBool true) ∧
  (∀ s, lower s ∈ ["false"; "no"; "0"] → convert s = VBool false) ∧
  (convert "1" = VBool true ∧ convert "0" = VBool false ∧
   convert "1" ≠ VInt 1 ∧ convert "0" ≠ VInt 0) ∧
  (∀ s, lower s ∉ ["true"; "yes"; "1"; "false"; "no"; "0"] →
     convert s =
     match (if contains "."%char s then VFloat <$> py_float s
            else VInt <$> py_int s) with
     | Some number => number
     | None =>
       if startswith s "{" || startswith s "[" then
         default (VStr s) (json_loads s)
       else VStr s
     end) ∧
  (∀ config item config',
     startswith item.1 prefix = true →
     environment_item py_int py_float json_loads (Some config) item = Some config' →
     get_path config'
       (split "."%char (dots (lower (drop_chars (String.length prefix) item.1)))) =
     Some (convert item.2)) ∧
  (∀ config line config',
     let stripped := strip line in
     negb (String.eqb stripped "") && negb (startswith stripped "#")
       && contains "="%char stripped = true →
     env_file_line py_int py_float json_loads strip (Some config) line = Some config' →
     get_path config'
       (split "."%char (dots (lower (split_once "="%char stripped).1))) =
     Some (convert (split_once "="%char stripped).2)).
Proof.
  assert (∀ s, lower s ∈ ["true"; "yes"; "1"] → convert s = VBool true) as Ht.
  { intros s Hs. unfold _convert_value. by rewrite bool_decide_eq_true_2. }
  assert (∀ s, lower s ∈ ["false"; "no"; "0"] → convert s = VBool false) as Hf.
  { intros s Hs. unfold _convert_value.
    rewrite bool_decide_eq_false_2, bool_decide_eq_true_2; [done..|].
    revert Hs. generalize (lower s). intros l.
    rewrite !elem_of_cons, !elem_of_nil.
    intros [?|[?|[?|[]]]] [?|[?|[?|[]]]]; congruence. }
  assert (convert "1" = VBool true) as H1 by (apply Ht; set_solver).
  assert (convert "0" = VBool false) as H0 by (apply Hf; set_solver).
  split_and!; [done..|by rewrite H1|by rewrite H0| | |].
  - intros s Hs. unfold _convert_value.
    rewrite !bool_decide_eq_false_2 by set_solver.
    repeat case_match; done.
  - intros config item config' Hp H. unfold environment_item in H.
    simpl in H. rewrite Hp in H. by apply set_nested_value_get in H.
  - intros config line config' stripped Hc H. unfold env_file_line in H.
    simpl in H. fold stripped in H. rewrite Hc in H.
    destruct (split_once "="%char stripped) as [key value_].
    by apply set_nested_value_get in H.
Qed.

End manager.

Lemma load_all_merges_in_priority_order_witness :
  ∃ cm', test_load_all [override_json; base_json] = Some cm' ∧
         dict_get (_config cm') "shared" = Some (VStr "override_value") ∧
         dict_get (_config cm') "base" = Some (VStr "value") ∧
         dict_get (_config cm') "override" = Some (VStr "value").
Proof.
  destruct (load_all_merges_in_priority_order
              (λ _, None) (λ _, None) (λ _, None) (λ _, []) id (λ _, "json")
              Some test_json_load (λ _, None) test_environ
              [override_json; base_json]
              [("plugins", VDict [("auto", VDict [("load", VBool false)])])]
              eq_refl) as (_&_&H).
  destruct (H base_json override_json (or_intror eq_refl) eq_refl eq_refl)
    as (cm'&Hload&Hk).
  - vm_compute. repeat constructor; set_solver.
  - vm_compute. repeat constructor; set_solver.
  - exists cm'. split; [exact Hload|]. split_and!.
    + by apply (proj1 (Hk "shared" eq_refl) (VStr "base_value")).
    + apply (proj1 (proj2 (Hk "base" eq_refl))); [done..|by left].
    + apply (proj2 (proj2 (Hk "override" eq_refl))); [done..|by left].
Defined.

(** C7 as it was worded does not hold of every set of sources and every
    environment.  With the two files of the test registered and the
    variables [ALSANIAMCP_LOG] and [ALSANIAMCP_LOG_LEVEL] set, the
    overlay raises and [load_all] with it: no merged configuration is
    produced.  And a key that only one source has does not always appear
    unchanged: [plugins], given by one file alone, comes out merged into
    the dict the defaults hold under that key. *)
Lemma load_all_raises_or_merges_into_defaults :
  load_all (λ _, None) (λ _, None) (λ _, None) (λ _, []) id Some
           test_json_load (λ _, None) clashing_environ
           (add_sources (λ _, "json") new_manager [base_json; override_json]) =
    None ∧
  ∃ cm',
    load_all (λ _, None) (λ _, None) (λ _, None) (λ _, []) id Some
             plugins_json_load (λ _, None) []
             (add_sources (λ _, "json") new_manager [plugins_json]) = Some cm' ∧
    contribution (λ _, None) (λ _, None) (λ _, None) (λ _, []) id Some
                 plugins_json_load (λ _, None)
                 (registered (λ _, "json") plugins_json) =
      [("plugins", VDict [("extra", VInt 1)])] ∧
    dict_get (_config cm') "plugins" =
      Some (VDict [("discovery_paths",
                    VList [VStr "./plugins"; VStr "./backend/plugins"]);
                   ("auto_load", VBool true);
                   ("hot_reload", VBool true);
                   ("extra", VInt 1)]).
Proof.
  split; [vm_compute; reflexivity|].
  eexists. split_and!; vm_compute; reflexivity.
Qed.

End ConfigFacts.

(** ** Plugin loading *)

Module ManagerFacts.
Import Manager.

Section manager.
Variable world : World.

(** The state a successful [load_plugin] of class [cls] ends in. *)
Lemma load_plugin_body_Done plugin_name m m' plugin :
  load_plugin_body world plugin_name m = (m', Done plugin) →
  ∃ cls config,
    load_class world plugin_name = Some cls ∧
    plugin_config world plugin_name = Some config ∧
    plugin = length (objects m) ∧
    m' = publish world
           (plugin_event "plugin.loaded" plugin_name (metadata_version cls) None)
           (set_status plugin ACTIVE
              (_register_plugin_services cls plugin
                 (_register_plugin_by_type cls plugin
                    (with_load_order (λ l, l ++ [plugin_name])
                       (with_plugin_configs <[plugin_name := config]>
                          (with_plugins <[plugin_name := plugin]>
                             (set_status plugin LOADING
                                (with_objects
                                   (λ objs, objs ++ [{| plugin_class := cls;
                                                        _status := INACTIVE |}])
                                   (with_plugin_classes <[plugin_name := cls]>
                                      (publish world
                                         (plugin_event "plugin.loading" plugin_name "" None)
                                         m)))))))))).
Proof.
  unfold load_plugin_body.
  cbv beta iota zeta delta [mbind_m modify instantiate initialize start ret fail].
  destruct (load_class world plugin_name) as [cls|]; [|done].
  destruct (constructs cls); [|done].
  destruct (plugin_config world plugin_name) as [config|]; [|done].
  destruct (initializes cls); [|done].
  match goal with
  | |- context [_status <$> ?objs !! ?i] =>
    destruct (_status <$> objs !! i) as [[]|]; try done
  end.
  destruct (starts cls); [|done].
  intros [= <- <-]. by exists cls, config.
Qed.

(** Neither the events nor the status changes touch the registries. *)
Lemma registries_after_load cls config plugin_name plugin ev1 ev2 m :
  let m' :=
    publish world ev2
      (set_status plugin ACTIVE
         (_register_plugin_services cls plugin
            (_register_plugin_by_type cls plugin
               (with_load_order (λ l, l ++ [plugin_name])
                  (with_plugin_configs <[plugin_name := config]>
                     (with_plugins <[plugin_name := plugin]>
                        (set_status plugin LOADING
                           (with_objects
                              (λ objs, objs ++ [{| plugin_class := cls;
                                                   _status := INACTIVE |}])
                              (with_plugin_classes <[plugin_name := cls]>
                                 (publish world ev1 m)))))))))) in
  _plugins m' = <[plugin_name := plugin]> (_plugins m) ∧
  _agents m' = (if is_agent cls then <[metadata_name cls := plugin]> (_agents m)
                else _agents m) ∧
  _embeddings m' =
    (if negb (is_agent cls) && is_embedding cls
     then <[metadata_name cls := plugin]> (_embeddings m) else _embeddings m) ∧
  _memory_providers m' =
    (if negb (is_agent cls) && negb (is_embedding cls) && is_memory cls
     then <[metadata_name cls := plugin]> (_memory_providers m)
     else _memory_providers m).
Proof.
  unfold _register_plugin_services, _register_plugin_by_type.
  destruct (is_agent cls), (is_embedding cls), (is_memory cls); done.
Qed.

(** What holds after every failed load: the error names the plugin and
    the step, and the plugin is in none of [_plugins], [_plugin_configs],
    [_plugin_classes]. *)
Lemma load_plugin_Raised plugin_name m m' e :
  load_plugin world plugin_name m = (m', Raised e) →
  _plugins m !! plugin_name = None →
  (∃ cause, e = PluginLoadError plugin_name cause) ∧
  get_loaded_plugins m' !! plugin_name = None ∧
  _plugin_configs m' !! plugin_name = None ∧
  _plugin_classes m' !! plugin_name = None.
Proof.
  unfold load_plugin. intros H Hn.
  rewrite decide_False in H by (rewrite Hn; by intros [? ?]).
  destruct (load_plugin_body world plugin_name m) as [m1 [plugin|cause|]];
    simplify_eq.
  split; [eauto|]. unfold get_loaded_plugins. simpl.
  by rewrite !lookup_delete_eq.
Qed.

(** A load that fails before the start (class loading, instantiation,
    configuration, initialize) has not reached the registration: the type
    registries are as they were. *)
Lemma load_plugin_Raised_early plugin_name m m' cause :
  load_plugin world plugin_name m = (m', Raised (PluginLoadError plugin_name cause)) →
  cause ≠ StartFailed →
  get_agents m' = get_agents m ∧
  get_embeddings m' = get_embeddings m ∧
  get_memory_providers m' = get_memory_providers m.
Proof.
  unfold load_plugin. case_decide; [done|].
  unfold load_plugin_body.
  cbv beta iota zeta delta [mbind_m modify instantiate initialize start ret fail].
  destruct (load_class world plugin_name) as [cls|]; [|by intros [= <- <-]].
  destruct (constructs cls); [|by intros [= <- <-]].
  destruct (plugin_config world plugin_name) as [config|]; [|by intros [= <- <-]].
  destruct (initializes cls); [|by intros [= <- <-]].
  match goal with
  | |- context [_status <$> ?objs !! ?i] =>
    destruct (_status <$> objs !! i) as [[]|]
  end; try destruct (starts cls); by intros [= <- <-].
Qed.

(** C1 (the code departs from it). An agent plugin whose start raises:
    the load fails with the load error naming the plugin, the error event
    is published and the plugin is not among the loaded plugins, but it is
    still in the agent registry, which [_cleanup_failed_plugin] does not
    touch. *)
Lemma failed_start_stays_registered :
  let after := load_plugin test_world "helper" (new_manager ∅) in
  after.2 = Raised (PluginLoadError "helper" StartFailed) ∧
  get_loaded_plugins after.1 !! "helper" = None ∧
  last (Events._event_history (event_bus after.1)) =
    Some (plugin_event "plugin.error" "helper" "" (Some "error")) ∧
  get_agents after.1 !! "helper" = Some 0 ∧
  _status <$> objects after.1 !! 0 = Some ERROR.
Proof. vm_compute. done. Qed.

(** The mirror path does clear the type registries. *)
Lemma unload_clears_registries :
  let loaded := load_plugin test_world "recall" (new_manager ∅) in
  let after := unload_plugin test_world "recall" loaded.1 in
  get_agents loaded.1 !! "recall" = Some 0 ∧
  after.2 = Done tt ∧
  get_agents after.1 !! "recall" = None.
Proof. vm_compute. done. Qed.

(** C10. A plugin that loads is put in at most one type registry, under
    its metadata name: the agents if it is an agent, else the embeddings
    if it is an embedding, else the memory providers if it is one, else
    none; the other registries are as before, and the plugin is among the
    loaded plugins.  So a key that was in no type registry before is
    afterwards in exactly the registry this precedence picks. *)
Theorem load_plugin_registers_by_precedence plugin_name m m' plugin :
  load_plugin world plugin_name m = (m', Done plugin) →
  ∃ cls,
    load_class world plugin_name = Some cls ∧
    get_loaded_plugins m' !! plugin_name = Some plugin ∧
    get_agents m' =
      (if is_agent cls then <[metadata_name cls := plugin]> (get_agents m)
       else get_agents m) ∧
    get_embeddings m' =
      (if negb (is_agent cls) && is_embedding cls
       then <[metadata_name cls := plugin]> (get_embeddings m)
       else get_embeddings m) ∧
    get_memory_providers m' =
      (if negb (is_agent cls) && negb (is_embedding cls) && is_memory cls
       then <[metadata_name cls := plugin]> (get_memory_providers m)
       else get_memory_providers m) ∧
    (get_agents m !! metadata_name cls = None →
     get_embeddings m !! metadata_name cls = None →
     get_memory_providers m !! metadata_name cls = None →
     (is_Some (get_agents m' !! metadata_name cls) ↔ is_agent cls) ∧
     (is_Some (get_embeddings m' !! metadata_name cls) ↔
        ¬ is_agent cls ∧ is_embedding cls) ∧
     (is_Some (get_memory_providers m' !! metadata_name cls) ↔
        ¬ is_agent cls ∧ ¬ is_embedding cls ∧ is_memory cls)).
Proof.
  unfold load_plugin. case_decide; [done|].
  destruct (load_plugin_body world plugin_name m) as [m1 [p| |]] eqn:Hbody;
    intros ?; simplify_eq.
  apply load_plugin_body_Done in Hbody as (cls&config&Hcls&_&_&->).
  exists cls. split; [done|]. unfold get_loaded_plugins, get_agents,
    get_embeddings, get_memory_providers.
  pose proof (registries_after_load cls config plugin_name plugin
    (plugin_event "plugin.loading" plugin_name "" None)
    (plugin_event "plugin.loaded" plugin_name (metadata_version cls) None) m)
    as (Hp&Ha&He&Hm).
  cbv zeta in Hp, Ha, He, Hm. rewrite Hp, Ha, He, Hm.
  split_and!; [by rewrite lookup_insert_eq|done..|].
  intros Ha0 He0 Hm0.
  destruct (is_agent cls), (is_embedding cls), (is_memory cls); simpl;
    rewrite ?lookup_insert_eq, ?Ha0, ?He0, ?Hm0;
    split_and!; split; try done; try (intros [? ?]; done);
    try (intros (?&?); done); try (intros (?&?&?); done); eauto.
Qed.

(** C3. When the graph within reach of the requested names has a cycle or
    a dependency that is not discovered, [load_plugins] raises the
    dependency error and leaves the manager exactly as it was: no event
    published, nothing loaded, no plugin object created.  The error names
    a plugin within reach of a requested name that lies on a cycle, or one
    that is not discovered: the former when nothing within reach is
    missing, the latter when nothing within reach is on a cycle. *)
Theorem load_plugins_dependency_failure names m :
  (∃ x, Discovery.reachable_from (discovered m) names x ∧
        (discovered m !! x = None ∨ tc (Discovery.dep (discovered m)) x x)) →
  ∃ e n,
    load_plugins world names m = (m, Raised (PluginDependencyError e)) ∧
    objects (load_plugins world names m).1 = objects m ∧
    n ∈ names ∧ Discovery.blames (discovered m) n e ∧
    ((∀ y, Discovery.reachable_from (discovered m) names y →
           is_Some (discovered m !! y)) →
     ∃ x, e = Discovery.CircularDependency x ∧
          tc (Discovery.dep (discovered m)) x x) ∧
    ((∀ y, Discovery.reachable_from (discovered m) names y →
           ¬ tc (Discovery.dep (discovered m)) y y) →
     ∃ x, e = Discovery.DependencyNotFound x ∧ discovered m !! x = None).
Proof.
  intros (x&Hr&Hx).
  destruct (DiscoveryFacts.resolve_dependencies_defect _ _ _ Hr Hx)
    as (e&n&Hres&Hn&Hb).
  exists e, n. unfold load_plugins. rewrite Hres. split_and!; [done..| |].
  - intros Hall. destruct e as [y|y]; destruct Hb as [Hy Hb]; [eauto|].
    destruct (Hall y) as [mf Hmf]; [by exists n|congruence].
  - intros Hall. destruct e as [y|y]; destruct Hb as [Hy Hb]; [|eauto].
    destruct (Hall y); [by exists n|done].
Qed.

End manager.

Lemma load_plugin_registers_by_precedence_witness :
  ∃ m', load_plugin test_world "recall" (new_manager ∅) = (m', Done 0) ∧
        get_agents m' !! "recall" = Some 0 ∧
        get_memory_providers m' !! "recall" = None.
Proof.
  destruct (load_plugin test_world "recall" (new_manager ∅)) as [m' r] eqn:Hl.
  assert (r = Done 0) as -> by (by vm_compute in Hl; simplify_eq).
  destruct (load_plugin_registers_by_precedence test_world "recall"
              (new_manager ∅) m' 0 Hl) as (cls&Hcls&_&Ha&_&Hm&_).
  vm_compute in Hcls. injection Hcls as <-.
  exists m'. split; [done|]. unfold get_agents, get_memory_providers in *.
  rewrite Ha, Hm. done.
Defined.

Lemma load_plugins_dependency_failure_witness :
  ∃ e, load_plugins test_world ["A"] (new_manager Discovery.cycle) =
         (new_manager Discovery.cycle, Raised (PluginDependencyError e)) ∧
       e = Discovery.CircularDependency "A".
Proof.
  destruct (load_plugins_dependency_failure test_world ["A"]
              (new_manager Discovery.cycle)) as (e&n&Hl&_).
  - exists "A". split; [exists "A"; split; [set_solver|done]|]. right.
    apply (tc_l _ "A" "B" "A"); [|apply tc_once].
    + exists (Discovery.manifest "A" ["B"]). split; [done|simpl; set_solver].
    + exists (Discovery.manifest "B" ["A"]). split; [done|simpl; set_solver].
  - exists e. split; [done|]. vm_compute in Hl. congruence.
Defined.

End ManagerFacts.

(** ** More on dependency resolution *)

Module ResolutionFacts.
Import Discovery DiscoveryFacts.

(** The call returns exactly when everything within reach of the request
    is discovered and lies on no cycle, and the order it returns is made
    of the plugins within reach of the request, no more and no fewer. *)
Theorem resolve_dependencies_exact d names :
  ((∃ order, resolve_dependencies d names = Done order) ↔
   (∀ x, reachable_from d names x → is_Some (d !! x) ∧ ¬ tc (dep d) x x)) ∧
  (∀ order, resolve_dependencies d names = Done order →
     ∀ x, x ∈ order ↔ reachable_from d names x).
Proof.
  split; [split|].
  - intros [order Hres] x Hx. by eapply resolve_dependencies_Done_clean.
  - intros Hclean.
    destruct (resolve_dependencies d names) as [order|e|] eqn:Hres; [eauto| |].
    + exfalso. apply resolve_dependencies_Raised in Hres as (n&Hn&Hb).
      destruct e as [x|x]; destruct Hb as [Hr Hx];
        destruct (Hclean x) as [[mf Hmf] Hc]; try (by exists n); congruence.
    + by apply resolve_dependencies_returns in Hres.
  - intros order Hres x.
    destruct (resolve_dependencies_Done _ _ _ Hres) as (_&Hdf&Hin&Hreach).
    split; [apply Hreach|]. intros (r&Hr&Hrx).
    eapply deps_first_rtc; eauto.
Qed.

(** Asking in addition for a plugin that the request already reaches
    changes nothing: neither the order nor the error. *)
Theorem resolve_dependencies_redundant d names a :
  reachable_from d names a →
  resolve_dependencies d (names ++ [a]) = resolve_dependencies d names.
Proof.
  intros Ha. unfold resolve_dependencies. rewrite for_each_app.
  pose proof (requested_loop d names visit_init (sound_init d) eq_refl) as HL.
  destruct (for_each (visit_requested d) names visit_init) as [st| |] eqn:Hloop;
    [|done..].
  destruct HL as ((Hv&_)&_&_&_). simpl.
  assert (a ∈ visited st) as Hin.
  { assert (resolve_dependencies d names = Done (result st)) as Hres
      by (unfold resolve_dependencies; by rewrite Hloop).
    destruct (resolve_dependencies_Done _ _ _ Hres) as (_&Hdf&Hnames&_).
    destruct Ha as (r&Hr&Hra).
    pose proof (deps_first_rtc d _ _ _ Hdf Hra (Hnames r Hr)).
    rewrite Hv. set_solver. }
  unfold visit_requested. by rewrite decide_True.
Qed.

Lemma resolve_dependencies_redundant_witness :
  resolve_dependencies chain (["B"] ++ ["A"]) = resolve_dependencies chain ["B"].
Proof.
  apply (resolve_dependencies_redundant chain ["B"] "A").
  exists "B". split; [set_solver|]. apply rtc_once.
  exists (manifest "B" ["A"]). split; [done|simpl; set_solver].
Defined.

End ResolutionFacts.

(** ** Subscriptions, history and counters of the event bus *)

Module SubscriptionFacts.
Import Events EventsFacts EventBusOps.

(** *** Handler lists stay sorted *)

Lemma subscribe_sorted cb bus t h p o f :
  bus_sorted bus → bus_sorted (subscribe cb bus t h p o f).
Proof.
  intros [Hg Hl]. split; [done|]. simpl. intros t' l.
  destruct (decide (t = t')) as [->|Hne].
  - rewrite lookup_insert_eq. intros [= <-]. apply sort_desc_sorted.
  - rewrite lookup_insert_ne by done. apply Hl.
Qed.

Lemma subscribe_global_sorted cb bus h p f :
  bus_sorted bus → bus_sorted (subscribe_global cb bus h p f).
Proof. intros [Hg Hl]. split; [apply sort_desc_sorted|done]. Qed.

Lemma unsubscribe_sorted bus t h :
  bus_sorted bus → bus_sorted (unsubscribe bus t h).1.
Proof.
  intros [Hg Hl]. unfold unsubscribe.
  destruct (_handlers bus !! t) as [l|] eqn:Ht; [|done].
  split; [done|]. simpl. intros t' l'.
  destruct (decide (t = t')) as [->|Hne].
  - rewrite lookup_insert_eq. intros [= <-]. apply filter_sorted. eauto.
  - rewrite lookup_insert_ne by done. apply Hl.
Qed.

Lemma unsubscribe_global_sorted bus h :
  bus_sorted bus → bus_sorted (unsubscribe_global bus h).1.
Proof. intros [Hg Hl]. split; [by apply filter_sorted|done]. Qed.

Lemma remove_one_sorted bus r : bus_sorted bus → bus_sorted (remove_one bus r).
Proof.
  intros [Hg Hl]. unfold remove_one.
  destruct (_handlers bus !! r.1) as [l|] eqn:Ht.
  - split; [done|]. simpl. intros t' l'.
    destruct (decide (r.1 = t')) as [<-|Hne].
    + rewrite lookup_insert_eq. intros [= <-]. apply filter_sorted. eauto.
    + rewrite lookup_insert_ne by done. apply Hl.
  - split; [by apply filter_sorted|done].
Qed.

Lemma remove_loop_sorted marks : ∀ bus,
  bus_sorted bus → bus_sorted (foldl remove_one bus marks).
Proof.
  induction marks as [|r marks IH]; intros bus Hs; simpl; [done|].
  by apply IH, remove_one_sorted.
Qed.

Lemma publish_sorted cb bus event :
  bus_sorted bus → bus_sorted (publish cb bus event).1.
Proof.
  intros Hs. unfold publish, _execute_handlers. simpl.
  apply remove_loop_sorted. exact Hs.
Qed.

(** Every operation of the bus keeps each handler list in descending
    priority. *)
Theorem handler_lists_stay_sorted cb bus :
  bus_sorted bus →
  (∀ t h p o f, bus_sorted (subscribe cb bus t h p o f)) ∧
  (∀ h p f, bus_sorted (subscribe_global cb bus h p f)) ∧
  (∀ t h, bus_sorted (unsubscribe bus t h).1) ∧
  (∀ h, bus_sorted (unsubscribe_global bus h).1) ∧
  (∀ event, bus_sorted (publish cb bus event).1).
Proof.
  intros Hs. split_and!; intros.
  - by apply subscribe_sorted.
  - by apply subscribe_global_sorted.
  - by apply unsubscribe_sorted.
  - by apply unsubscribe_global_sorted.
  - by apply publish_sorted.
Qed.

Lemma new_bus_sorted : bus_sorted new_bus.
Proof. split; [constructor|]. intros t l. simpl. by rewrite lookup_empty. Qed.

Lemma handler_lists_stay_sorted_witness :
  bus_sorted (publish returning two_handlers test_priority).1.
Proof.
  apply (handler_lists_stay_sorted returning two_handlers).
  unfold two_handlers. do 2 apply subscribe_sorted. apply new_bus_sorted.
Defined.

(** *** Where a new subscription lands *)

Lemma filter_all {A} (P : A → Prop) `{∀ x, Decision (P x)} l :
  Forall P l → filter P l = l.
Proof.
  induction 1 as [|x l Hx _ IH]; [done|].
  by rewrite filter_cons_True, IH.
Qed.

Lemma filter_none {A} (P : A → Prop) `{∀ x, Decision (P x)} l :
  Forall (λ x, ¬ P x) l → filter P l = [].
Proof.
  induction 1 as [|x l Hx _ IH]; [done|].
  by rewrite filter_cons_False.
Qed.

Lemma insert_desc_first h l :
  Forall (runs_first h) l → insert_desc h l = h :: l.
Proof.
  destruct l as [|y l]; [done|]. intros [Hy _]%Forall_cons. simpl.
  unfold runs_first in Hy. by rewrite (proj2 (Z.ltb_ge _ _)) by lia.
Qed.

Lemma sort_desc_snoc l h :
  StronglySorted runs_first l →
  sort_desc (l ++ [h]) =
  filter (λ x, (value (priority h) ≤ value (priority x))%Z) l ++
  h :: filter (λ x, (value (priority x) < value (priority h))%Z) l.
Proof.
  induction 1 as [|x l Hl IH Hx]; [done|].
  change (sort_desc ((x :: l) ++ [h])) with (insert_desc x (sort_desc (l ++ [h]))).
  rewrite IH, !filter_cons.
  destruct (decide (value (priority h) ≤ value (priority x))%Z) as [Hhi|Hlo].
  - rewrite decide_False by lia. simpl. apply insert_desc_first.
    apply Forall_app. split.
    + rewrite Forall_forall in *. intros y [_ Hy]%list_elem_of_filter. by apply Hx.
    + constructor; [done|].
      rewrite Forall_forall in *. intros y [_ Hy]%list_elem_of_filter. by apply Hx.
  - rewrite decide_True by lia.
    assert (filter (λ y, (value (priority h) ≤ value (priority y))%Z) l = []) as ->.
    { apply filter_none. rewrite Forall_forall in *. intros y Hy.
      specialize (Hx y Hy). unfold runs_first in Hx. lia. }
    assert (filter (λ y, (value (priority y) < value (priority h))%Z) l = l) as ->.
    { apply filter_all. rewrite Forall_forall in *. intros y Hy.
      specialize (Hx y Hy). unfold runs_first in Hx. lia. }
    simpl. rewrite (proj2 (Z.ltb_lt _ _)) by lia. f_equal.
    by apply insert_desc_first.
Qed.

(** A new subscription goes behind the handlers of the same or a higher
    priority that were there, and in front of those of a lower priority:
    among equal priorities, handlers run in subscription order. *)
Theorem subscribe_lands_after_equals cb bus t h p o f :
  bus_sorted bus →
  let l := default [] (_handlers bus !! t) in
  let new := {| handler := h; priority := p; async_handler := is_coroutine cb h;
                once := o; filter_func := f |} in
  _handlers (subscribe cb bus t h p o f) !! t =
  Some (filter (λ x, (value p ≤ value (priority x))%Z) l ++
        new :: filter (λ x, (value (priority x) < value p)%Z) l).
Proof.
  intros [_ Hl] l new. simpl. rewrite lookup_insert_eq. f_equal.
  apply (sort_desc_snoc l new). unfold l.
  destruct (_handlers bus !! t) as [l0|] eqn:Ht; [by eapply Hl|constructor].
Qed.

Lemma subscribe_lands_after_equals_witness :
  _handlers (subscribe returning two_handlers "test.priority" 3 HIGH false None)
    !! "test.priority" =
  Some [{| handler := 2; priority := HIGH; async_handler := false;
           once := true; filter_func := None |};
        {| handler := 3; priority := HIGH; async_handler := false;
           once := false; filter_func := None |};
        {| handler := 1; priority := LOW; async_handler := false;
           once := false; filter_func := None |}].
Proof.
  rewrite (subscribe_lands_after_equals returning two_handlers).
  - vm_compute. done.
  - unfold two_handlers. do 2 apply subscribe_sorted. apply new_bus_sorted.
Defined.

(** *** What a publish removes *)

Lemma filter_agree {A} (P Q : A → Prop) `{∀ x, Decision (P x)}
    `{∀ x, Decision (Q x)} (l : list A) :
  (∀ x, x ∈ l → (P x ↔ Q x)) → filter P l = filter Q l.
Proof.
  induction l as [|x l IH]; intros HPQ; [done|].
  rewrite !filter_cons, IH by (intros; apply HPQ; set_solver).
  destruct (HPQ x ltac:(set_solver)).
  repeat case_decide; naive_solver.
Qed.

Section publish.
Variable cb : Callables.
Variable event : Event.

Lemma call_marks h x :
  handlers_to_remove (call cb event h x) =
  handlers_to_remove x ++
  (if once h && call_handler cb (handler h) event then [(type event, h)] else []).
Proof.
  unfold call. destruct (call_handler cb (handler h) event); simpl.
  - destruct (once h); simpl; by rewrite ?app_nil_r.
  - by rewrite andb_false_r, app_nil_r.
Qed.

Lemma execute_one_marks h x :
  handlers_to_remove (execute_one cb event x h) =
  handlers_to_remove x ++ (if spent cb event h then [(type event, h)] else []).
Proof.
  unfold execute_one, spent, accepts.
  destruct (filter_func h) as [f|].
  - destruct (call_filter cb f event) as [[]|]; simpl;
      rewrite ?call_marks, ?andb_false_r, ?andb_true_r, ?app_nil_r; done.
  - by rewrite call_marks, andb_true_r.
Qed.

Lemma execute_loop_marks l : ∀ x,
  handlers_to_remove (foldl (execute_one cb event) x l) =
  handlers_to_remove x ++ ((λ h, (type event, h)) <$> filter (λ h, spent cb event h) l).
Proof.
  induction l as [|h l IH]; intros x; simpl; [by rewrite app_nil_r|].
  rewrite IH, execute_one_marks, filter_cons, <- app_assoc.
  by destruct (spent cb event h); case_decide.
Qed.

(** The removal loop, for marks that all carry the type [t] of a list
    the bus has. *)
Lemma remove_loop_typed t marks : ∀ bus l,
  Forall (λ r, r.1 = t) marks →
  _handlers bus !! t = Some l →
  let after := foldl remove_one bus marks in
  _handlers after !! t = Some (filter (λ h, h ∉ marks.*2) l) ∧
  (∀ t', t' ≠ t → _handlers after !! t' = _handlers bus !! t') ∧
  _global_handlers after = _global_handlers bus ∧
  _event_history after = _event_history bus ∧
  _max_history_size after = _max_history_size bus ∧
  _stats after = _stats bus.
Proof.
  induction marks as [|r marks IH]; intros bus l Hm Hl; simpl.
  { split_and!; try done. rewrite Hl. f_equal. symmetry.
    apply filter_all. apply Forall_forall. intros h _. apply not_elem_of_nil. }
  apply Forall_cons in Hm as [Hr Hm].
  assert (_handlers (remove_one bus r) !! t = Some (filter (λ h, h ≠ r.2) l)) as Hl'.
  { unfold remove_one. rewrite Hr, Hl. simpl. by rewrite lookup_insert_eq. }
  destruct (IH (remove_one bus r) _ Hm Hl') as (H1&H2&H3&H4&H5&H6).
  assert (∀ t', t' ≠ t →
    _handlers (remove_one bus r) !! t' = _handlers bus !! t') as Hother.
  { intros t' Hne. unfold remove_one. rewrite Hr, Hl. simpl.
    by rewrite lookup_insert_ne. }
  split_and!.
  - rewrite H1. f_equal. rewrite list_filter_filter. apply list_filter_iff.
    intros h. rewrite elem_of_cons. naive_solver.
  - intros t' Hne. rewrite H2 by done. by apply Hother.
  - rewrite H3. unfold remove_one. by rewrite Hr, Hl.
  - rewrite H4. unfold remove_one. by rewrite Hr, Hl.
  - rewrite H5. unfold remove_one. by rewrite Hr, Hl.
  - rewrite H6. unfold remove_one. by rewrite Hr, Hl.
Qed.

(** The removal loop, for marks that all carry a type [t] for which the
    bus has no list: the [else] branch, on the global list. *)
Lemma remove_loop_global t marks : ∀ bus,
  Forall (λ r, r.1 = t) marks →
  _handlers bus !! t = None →
  let after := foldl remove_one bus marks in
  _handlers after = _handlers bus ∧
  _global_handlers after =
    filter (λ h, h ∉ marks.*2) (_global_handlers bus).
Proof.
  induction marks as [|r marks IH]; intros bus Hm Hl; simpl.
  { split; [done|]. symmetry.
    apply filter_all. apply Forall_forall. intros h _. apply not_elem_of_nil. }
  apply Forall_cons in Hm as [Hr Hm].
  assert (_handlers (remove_one bus r) = _handlers bus) as Hsame.
  { unfold remove_one. by rewrite Hr, Hl. }
  assert (_global_handlers (remove_one bus r) =
          filter (λ h, h ≠ r.2) (_global_handlers bus)) as Hglobal.
  { unfold remove_one. by rewrite Hr, Hl. }
  destruct (IH (remove_one bus r) Hm) as [H1 H2]; [by rewrite Hsame|].
  split; [by rewrite H1|].
  rewrite H2, Hglobal, list_filter_filter. apply list_filter_iff.
  intros h. rewrite elem_of_cons. naive_solver.
Qed.

End publish.

(** A publish takes out exactly the one-shot handlers it used up (filter
    passed, callable returned), and out of one place only.  When the
    event's type has a handler list, they go out of that list: every
    other handler of the list stays, in order, and the lists of other
    types and the global list are as before, so that a one-shot global
    handler that was used up stays subscribed.  When the type has no
    list, they go out of the global list, its other handlers staying in
    order, and the lists by type are as before. *)
Theorem publish_drops_spent cb bus event :
  let after := (publish cb bus event).1 in
  (∀ l, _handlers bus !! type event = Some l →
     _handlers after !! type event =
       Some (filter (λ h, ¬ spent cb event h) l) ∧
     (∀ t, t ≠ type event → _handlers after !! t = _handlers bus !! t) ∧
     _global_handlers after = _global_handlers bus) ∧
  (_handlers bus !! type event = None →
     _handlers after = _handlers bus ∧
     _global_handlers after =
       filter (λ h, ¬ spent cb event h) (_global_handlers bus)).
Proof.
  intros after. unfold after, publish, _execute_handlers. split.
  - intros l Hl.
    match goal with
    | |- context [foldl remove_one ?b ?marks] =>
      pose proof (remove_loop_typed (type event) marks b l) as Hloop
    end.
    rewrite execute_loop_marks in Hloop. simpl in Hloop.
    destruct Hloop as (H1&H2&H3&_); [|exact Hl|].
    { apply Forall_fmap, Forall_forall. by intros h _. }
    simpl. rewrite execute_loop_marks. simpl.
    split_and!; [|done..]. rewrite H1. f_equal. apply filter_agree.
    intros h Hh. rewrite <- list_fmap_compose, list_fmap_id.
    rewrite list_elem_of_filter. unfold handlers_to_execute. simpl.
    rewrite sort_desc_perm, Hl. simpl. set_solver.
  - intros Hl.
    match goal with
    | |- context [foldl remove_one ?b ?marks] =>
      pose proof (remove_loop_global (type event) marks b) as Hloop
    end.
    rewrite execute_loop_marks in Hloop. simpl in Hloop.
    destruct Hloop as (H1&H2); [|exact Hl|].
    { apply Forall_fmap, Forall_forall. by intros h _. }
    simpl. rewrite execute_loop_marks. simpl.
    split; [done|]. rewrite H2. apply filter_agree.
    intros h Hh. rewrite <- list_fmap_compose, list_fmap_id.
    rewrite list_elem_of_filter. unfold handlers_to_execute. simpl.
    rewrite sort_desc_perm, Hl. simpl. set_solver.
Qed.

Lemma publish_drops_spent_witness :
  _handlers (publish returning two_handlers test_priority).1 !! "test.priority" =
    Some [{| handler := 1; priority := LOW; async_handler := false;
             once := false; filter_func := None |}] ∧
  _global_handlers (publish returning once_global test_priority).1 = [].
Proof.
  split.
  - destruct (proj1 (publish_drops_spent returning two_handlers test_priority)
      [{| handler := 2; priority := HIGH; async_handler := false;
          once := true; filter_func := None |};
       {| handler := 1; priority := LOW; async_handler := false;
          once := false; filter_func := None |}] eq_refl) as (H&_).
    etrans; [exact H|]. vm_compute. done.
  - destruct (proj2 (publish_drops_spent returning once_global test_priority)
      eq_refl) as (_&H).
    etrans; [exact H|]. vm_compute. done.
Defined.

(** *** Unsubscribing *)

Lemma filter_length_lt {A} (P : A → Prop) `{∀ x, Decision (P x)} (l : list A) :
  length (filter P l) < length l ↔ ∃ x, x ∈ l ∧ ¬ P x.
Proof.
  induction l as [|x l IH]; simpl.
  { split; [lia|]. intros (x&Hx&_). by apply elem_of_nil in Hx. }
  pose proof (length_filter P l) as Hle.
  rewrite filter_cons. case_decide as HP; simpl.
  - rewrite <- Nat.succ_lt_mono, IH. split.
    + intros (y&?&?). exists y. set_solver.
    + intros (y&[->|?]%elem_of_cons&?); [done|eauto].
  - split; [|lia]. intros _. exists x. set_solver.
Qed.

(** [unsubscribe] answers true exactly when the type had a handler with
    that callable; afterwards the list of the type holds the other
    handlers, in order, and none with that callable, so that a second
    [unsubscribe] answers false.  For a type without a list the bus is
    left as it is. *)
Theorem unsubscribe_removes bus t h :
  let after := unsubscribe bus t h in
  (after.2 = true ↔
     ∃ l x, _handlers bus !! t = Some l ∧ x ∈ l ∧ handler x = h) ∧
  (∀ l, _handlers bus !! t = Some l →
     _handlers after.1 !! t = Some (filter (λ x, handler x ≠ h) l)) ∧
  (∀ l' x, _handlers after.1 !! t = Some l' → x ∈ l' → handler x ≠ h) ∧
  (_handlers bus !! t = None → after = (bus, false)) ∧
  (unsubscribe after.1 t h).2 = false.
Proof.
  intros after. unfold after, unsubscribe.
  destruct (_handlers bus !! t) as [l|] eqn:Ht; simpl.
  - rewrite lookup_insert_eq. split_and!.
    + rewrite bool_decide_eq_true.
      pose proof (length_filter (λ x, handler x ≠ h) l) as Hle.
      pose proof (filter_length_lt (λ x, handler x ≠ h) l) as Hlt.
      split.
      * intros Hpos. destruct (proj1 Hlt ltac:(lia)) as (x&Hx&Hn).
        exists l, x. split_and!; [done..|].
        by destruct (decide (handler x = h)).
      * intros (l0&x&[= <-]&Hx&Hh).
        assert (length (filter (λ x, handler x ≠ h) l) < length l); [|lia].
        apply Hlt. exists x. split; [done|]. by intros ?.
    + by intros l0 [= <-].
    + intros l' x [= <-] [Hx _]%list_elem_of_filter. done.
    + done.
    + simpl. rewrite list_filter_filter.
      rewrite (filter_agree (λ x, handler x ≠ h ∧ handler x ≠ h)
                 (λ x, handler x ≠ h)) by naive_solver.
      rewrite Nat.sub_diag. done.
  - rewrite Ht. split_and!; try done.
    split; [done|]. by intros (l&x&?&_).
Qed.

(** *** The bounded history *)

Lemma execute_handlers_history cb bus event :
  _event_history (_execute_handlers cb bus event).1 = _event_history bus ∧
  _max_history_size (_execute_handlers cb bus event).1 = _max_history_size bus.
Proof.
  unfold _execute_handlers. simpl.
  generalize (handlers_to_remove
    (foldl (execute_one cb event)
       {| stats := _stats bus; handlers_to_remove := []; invoked := [] |}
       (handlers_to_execute bus event))).
  generalize (stats (foldl (execute_one cb event)
       {| stats := _stats bus; handlers_to_remove := []; invoked := [] |}
       (handlers_to_execute bus event))).
  intros st marks.
  assert (∀ b, _event_history (foldl remove_one b marks) = _event_history b ∧
               _max_history_size (foldl remove_one b marks) = _max_history_size b)
    as H.
  { induction marks as [|r marks IH]; intros b; [done|]. simpl.
    destruct (IH (remove_one b r)) as [-> ->]. unfold remove_one.
    by destruct (_handlers b !! r.1). }
  match goal with
  | |- context [foldl remove_one ?b marks] => destruct (H b) as [-> ->]
  end. done.
Qed.

(** A publish appends the event to the history; the oldest entry is
    dropped exactly when the history was already at its bound (or beyond
    it), and otherwise every old entry is kept.  So a history within the
    bound stays within it, and the published event is the newest entry
    (for a bound of at least one). *)
Theorem publish_history cb bus event :
  let after := (publish cb bus event).1 in
  _max_history_size after = _max_history_size bus ∧
  ((length (_event_history bus) < _max_history_size bus)%nat →
     _event_history after = _event_history bus ++ [event]) ∧
  ((_max_history_size bus ≤ length (_event_history bus))%nat →
     _event_history after = tail (_event_history bus ++ [event])) ∧
  ((length (_event_history bus) ≤ _max_history_size bus)%nat →
     (length (_event_history after) ≤ _max_history_size bus)%nat) ∧
  (0 < _max_history_size bus → last (_event_history after) = Some event).
Proof.
  intros after. unfold after, publish.
  match goal with
  | |- context [_execute_handlers cb ?b event] =>
    destruct (execute_handlers_history cb b event) as [-> ->]
  end. simpl.
  split_and!; [done| | | |].
  - intros Hlt. rewrite decide_False; [done|].
    rewrite length_app. simpl. lia.
  - intros Hge. rewrite decide_True; [done|].
    rewrite length_app. simpl. lia.
  - intros Hle. case_decide as Hgt.
    + destruct (_event_history bus) as [|e0 h0]; simpl in *; [lia|].
      rewrite length_app in *. simpl in *. lia.
    + rewrite length_app in *. simpl in *. lia.
  - intros Hpos. case_decide as Hgt.
    + destruct (_event_history bus) as [|e0 h0]; simpl in *; [lia|].
      by rewrite last_snoc.
    + by rewrite last_snoc.
Qed.

(** [get_event_history] returns the newest [limit] events of the type,
    oldest first; a limit of zero or less returns all of them, and an
    empty type string selects the events of every type, like no type. *)
Theorem event_history_limit bus event_type limit :
  let matching := get_event_history bus event_type 0 in
  let answer := get_event_history bus event_type limit in
  ((0 < limit)%Z →
     answer = drop (length matching - Z.to_nat limit) matching ∧
     (length answer ≤ Z.to_nat limit)%nat ∧
     answer `suffix_of` matching) ∧
  ((limit ≤ 0)%Z → answer = matching) ∧
  (∀ t, event_type = Some t → t ≠ "" →
     matching = filter (λ e, type e = t) (_event_history bus)) ∧
  (event_type = None ∨ event_type = Some "" → matching = _event_history bus).
Proof.
  intros matching answer. unfold matching, answer, get_event_history.
  change (0 <? 0)%Z with false. cbv beta iota zeta.
  split_and!.
  - intros Hpos. rewrite (proj2 (Z.ltb_lt 0 limit)) by done.
    split_and!; [done| |apply suffix_drop].
    rewrite length_drop. lia.
  - intros Hle. by rewrite (proj2 (Z.ltb_ge 0 limit)) by done.
  - intros t -> Hne. by rewrite decide_False.
  - intros [-> | ->]; done.
Qed.

(** *** The counters *)

Lemma remove_loop_stats marks : ∀ b, _stats (foldl remove_one b marks) = _stats b.
Proof.
  induction marks as [|r marks IH]; intros b; [done|]. simpl.
  rewrite IH. unfold remove_one. by destruct (_handlers b !! r.1).
Qed.

Section counters.
Variable cb : Callables.
Variable event : Event.

(** The handler is called and returns; it is called and raises, or its
    filter raises. *)
Let succeeds (h : EventHandler) : Prop :=
  accepts cb event h ∧ call_handler cb (handler h) event.
Let fails (h : EventHandler) : Prop :=
  filter_raises cb event h ∨
  (accepts cb event h ∧ ¬ call_handler cb (handler h) event).

Lemma execute_one_stats h x :
  let x' := execute_one cb event x h in
  events_published (stats x') = events_published (stats x) ∧
  handlers_executed (stats x') =
    handlers_executed (stats x) + (if decide (succeeds h) then 1 else 0) ∧
  errors (stats x') = errors (stats x) + (if decide (fails h) then 1 else 0).
Proof.
  unfold execute_one, succeeds, fails, accepts, filter_raises, call.
  destruct (filter_func h) as [f|].
  - destruct (call_filter cb f event) as [[]|] eqn:Hf;
      destruct (call_handler cb (handler h) event) eqn:Hc; simpl;
      repeat case_decide; try lia;
      exfalso; rewrite ?bool_decide_spec in *; naive_solver.
  - destruct (call_handler cb (handler h) event) eqn:Hc; simpl;
      repeat case_decide; try lia; exfalso; naive_solver.
Qed.

Lemma execute_loop_stats l : ∀ x,
  let x' := foldl (execute_one cb event) x l in
  events_published (stats x') = events_published (stats x) ∧
  handlers_executed (stats x') =
    handlers_executed (stats x) + length (filter succeeds l) ∧
  errors (stats x') = errors (stats x) + length (filter fails l).
Proof.
  induction l as [|h l IH]; intros x; simpl; [by rewrite !Nat.add_0_r|].
  destruct (IH (execute_one cb event x h)) as (-> & -> & ->).
  destruct (execute_one_stats h x) as (-> & -> & ->).
  rewrite !filter_cons. repeat case_decide; simpl; lia.
Qed.

(** One publish counts one published event, one execution for every
    handler that is called and returns, and one error for every handler
    that is called and raises and for every filter that raises. *)
Theorem publish_counts bus :
  let after := (publish cb bus event).1 in
  let run := handlers_to_execute bus event in
  events_published (_stats after) = S (events_published (_stats bus)) ∧
  handlers_executed (_stats after) =
    handlers_executed (_stats bus) +
    length (filter (λ h, accepts cb event h ∧ call_handler cb (handler h) event) run) ∧
  errors (_stats after) =
    errors (_stats bus) +
    length (filter (λ h, filter_raises cb event h ∨
                         (accepts cb event h ∧ ¬ call_handler cb (handler h) event))
                   run).
Proof.
  intros after run. unfold after, publish, _execute_handlers.
  cbv beta zeta. cbn [fst]. rewrite remove_loop_stats. cbn [_stats].
  match goal with
  | |- context [foldl (execute_one cb event) ?x ?l] =>
    destruct (execute_loop_stats l x) as (-> & -> & ->)
  end. done.
Qed.

End counters.

End SubscriptionFacts.

(** ** Caching in the service container *)

Module CachingFacts.
Import Container ContainerFacts Scope.

(** [c'] has the registrations and the building set of [c] and every
    cached singleton of [c]; the singletons of the services being built
    (but for [skip]) are untouched. *)
Definition cache_grows (skip : option string) (c c' : ServiceContainer) : Prop :=
  _services c' = _services c ∧
  _building c' = _building c ∧
  (∀ U i, _singletons c !! U = Some i → _singletons c' !! U = Some i) ∧
  (∀ U, U ∈ _building c → Some U ≠ skip →
     _singletons c' !! U = _singletons c !! U).

Lemma cache_grows_refl skip c : cache_grows skip c c.
Proof. done. Qed.

Lemma cache_grows_trans c1 c2 c3 :
  cache_grows None c1 c2 → cache_grows None c2 c3 → cache_grows None c1 c3.
Proof.
  intros (Hs1&Hb1&Hk1&Hu1) (Hs2&Hb2&Hk2&Hu2). split_and!; [congruence..| |].
  - eauto.
  - intros U HU Hn. etrans; [apply Hu2|apply Hu1]; try done. by rewrite Hb1.
Qed.

Section resolution.
Variable resolve_ : string → M Instance.
Hypothesis resolve_grows : ∀ T c, cache_grows None c (resolve_ T c).1.

Lemma inject_grows cls ps : ∀ kwargs c,
  cache_grows None c (inject resolve_ cls ps kwargs c).1.
Proof.
  induction ps as [|p ps IH]; intros kwargs c; simpl; [done|].
  destruct (param_type p) as [ty|].
  - pose proof (resolve_grows ty c) as Hr.
    destruct (resolve_ ty c) as [c' [i|e|]]; simpl in *; [| |done].
    + eapply cache_grows_trans; [exact Hr|apply IH].
    + case_match; [|done]. eapply cache_grows_trans; [exact Hr|apply IH].
  - case_match; [apply IH|done].
Qed.

Lemma create_instance_grows descriptor c :
  cache_grows None c (_create_instance resolve_ descriptor c).1.
Proof.
  unfold _create_instance.
  destruct (implementation descriptor) as [cls|[i|]|]; try done.
  unfold _create_instance_with_injection, reraise.
  destruct (hints_ok cls); [|done]. unfold mbind_c.
  pose proof (inject_grows cls (parameters cls) [] c) as Hi.
  destruct (inject _ _ _ _ c) as [c' [kwargs|e|]]; simpl in *; [|done..].
  by destruct (init_raises cls).
Qed.

Lemma resolve_internal_grows T c :
  T ∈ _building c →
  cache_grows (Some T) c (_resolve_internal resolve_ T c).1.
Proof.
  intros HT. unfold _resolve_internal.
  destruct (_services c !! T) as [descriptor|]; [|done].
  pose proof (create_instance_grows descriptor c) as (Hs&Hb&Hk&Hu).
  assert (cache_grows (Some T) c (_create_instance resolve_ descriptor c).1)
    as Hweak by (split_and!; auto).
  destruct (lifetime descriptor); try done.
  destruct (_singletons c !! T) as [i|] eqn:Hc; [done|]. unfold mbind_c.
  destruct (_create_instance resolve_ descriptor c) as [c' [a|e|]];
    simpl in *; [|done..].
  split_and!; [done..| |]; simpl.
  - intros U i HU. destruct (decide (T = U)) as [->|Hne]; [congruence|].
    rewrite lookup_insert_ne by done. auto.
  - intros U HU Hn. rewrite lookup_insert_ne by congruence. auto.
Qed.

End resolution.

Lemma resolve_grows fuel : ∀ T c, cache_grows None c (resolve fuel T c).1.
Proof.
  induction fuel as [|fuel IH]; intros T c; simpl; [done|].
  case_decide as Hin; [done|]. unfold finally.
  pose proof (resolve_internal_grows _ IH T
                (set_building (λ b, b ∪ {[T]}) c)) as (Hs&Hb&Hk&Hu).
  { simpl. set_solver. }
  destruct (_resolve_internal _ _ _) as [c' r]. simpl in *.
  split_and!; simpl; [done|rewrite Hb; set_solver|done|].
  intros U HU _. apply Hu; [set_solver|]. intros [= ->]. done.
Qed.

(** Resolving never changes a registration and never replaces or drops a
    cached singleton: whatever was cached stays cached, with the same
    instance. *)
Theorem resolve_keeps_cache fuel T c :
  _services (resolve fuel T c).1 = _services c ∧
  _singletons c ⊆ _singletons (resolve fuel T c).1.
Proof.
  destruct (resolve_grows fuel T c) as (Hs&_&Hk&_). split; [done|].
  apply map_subseteq_spec. exact Hk.
Qed.

Lemma restore_building T c :
  T ∉ _building c →
  set_building (λ b, b ∖ {[T]}) (set_building (λ b, b ∪ {[T]}) c) = c.
Proof.
  intros Hin. destruct c as [sv sg b]. unfold set_building. simpl in *.
  f_equal. set_solver.
Qed.

(** A singleton service that has been resolved once is cached: every
    later resolve returns the same instance and changes nothing. *)
Theorem singleton_resolved_once fuel T c c' i descriptor :
  resolve fuel T c = (c', Done i) →
  _services c !! T = Some descriptor → lifetime descriptor = SINGLETON →
  _singletons c' !! T = Some i ∧
  ∀ fuel', resolve (S fuel') T c' = (c', Done i).
Proof.
  intros Hres Hd Hl.
  assert (T ∉ _building c) as Hnb.
  { destruct fuel; [done|]. simpl in Hres. by case_decide. }
  assert (_singletons c' !! T = Some i) as Hc.
  { destruct fuel; [done|]. simpl in Hres. rewrite decide_False in Hres by done.
    unfold finally, _resolve_internal in Hres. simpl in Hres.
    rewrite Hd, Hl in Hres.
    destruct (_singletons c !! T) as [j|] eqn:Hj.
    - simplify_eq. done.
    - unfold mbind_c in Hres.
      destruct (_create_instance _ _ _) as [c2 [a|e|]]; simplify_eq.
      simpl. by rewrite lookup_insert_eq. }
  split; [done|]. intros fuel'.
  destruct (resolve_grows fuel T c) as (Hs&Hb&_&_). rewrite Hres in Hs, Hb.
  simpl in Hs, Hb. simpl.
  rewrite decide_False by (by rewrite Hb).
  unfold finally, _resolve_internal. simpl. rewrite Hs, Hd, Hl, Hc.
  by rewrite restore_building by (by rewrite Hb).
Qed.

Lemma singleton_resolved_once_witness :
  ∃ c', resolve 2 "Clock" session_container = (c', Done (Built "Clock" [])) ∧
        resolve 1 "Clock" c' = (c', Done (Built "Clock" [])).
Proof.
  destruct (resolve 2 "Clock" session_container) as [c' r] eqn:Hres.
  assert (r = Done (Built "Clock" [])) as ->
    by (vm_compute in Hres; by simplify_eq).
  exists c'. split; [done|].
  eapply (singleton_resolved_once 2 "Clock" session_container c'); [exact Hres|..];
    [vm_compute; reflexivity|reflexivity].
Defined.

(** Registering an instance and resolving its type gives that instance
    back, whatever was registered or cached for the type before, and the
    resolve changes nothing. *)
Theorem register_instance_resolve fuel T i c :
  T ∉ _building c →
  resolve (S fuel) T (register_instance T i c) =
  (register_instance T i c, Done i).
Proof.
  intros Hnb. simpl. rewrite decide_False by done.
  unfold finally, _resolve_internal. simpl.
  rewrite !lookup_insert_eq. simpl.
  by rewrite (restore_building T (register_instance T i c)) by done.
Qed.

Lemma register_instance_resolve_witness :
  resolve 1 "Clock" (register_instance "Clock" (Given 7) session_container) =
  (register_instance "Clock" (Given 7) session_container, Done (Given 7)).
Proof.
  apply (register_instance_resolve 0 "Clock" (Given 7) session_container).
  apply (bool_decide_unpack _). vm_compute. exact I.
Defined.

(** The failures that involve no construction leave the container as it
    was: a type that is not registered, an implementation that is neither
    a class nor callable, a factory that raises.  The first of them names
    the type; the container's registration of itself is of the second
    kind, so a fresh container cannot resolve [ServiceContainer]. *)
Theorem resolve_fails_cleanly fuel T c :
  T ∉ _building c →
  (_services c !! T = None →
     resolve (S fuel) T c = (c, Raised (NotRegistered T))) ∧
  (∀ d, _services c !! T = Some d → _singletons c !! T = None →
     implementation d = ImplOther →
     resolve (S fuel) T c = (c, Raised (InvalidImplementation (service_type d)))) ∧
  (∀ d, _services c !! T = Some d → _singletons c !! T = None →
     implementation d = ImplFactory None →
     resolve (S fuel) T c = (c, Raised (FactoryFailed (service_type d)))) ∧
  (∀ d, _services c !! T = Some d → lifetime d ≠ SINGLETON →
     implementation d = ImplOther →
     resolve (S fuel) T c = (c, Raised (InvalidImplementation (service_type d)))).
Proof.
  intros Hnb. simpl. rewrite decide_False by done.
  unfold finally, _resolve_internal. simpl.
  split_and!.
  - intros ->. by rewrite restore_building.
  - intros d -> Hs Hi. unfold _create_instance, mbind_c. rewrite Hs, Hi.
    destruct (lifetime d); simpl; by rewrite restore_building.
  - intros d -> Hs Hi. unfold _create_instance, mbind_c. rewrite Hs, Hi.
    destruct (lifetime d); simpl; by rewrite restore_building.
  - intros d -> Hl Hi. unfold _create_instance. rewrite Hi.
    destruct (lifetime d); simpl; by rewrite ?restore_building.
Qed.

Lemma resolve_fails_cleanly_witness :
  resolve 1 "ServiceContainer" new_container =
  (new_container, Raised (InvalidImplementation "ServiceContainer")).
Proof.
  assert ("ServiceContainer" ∉ _building new_container) as Hnb.
  { apply (bool_decide_unpack _). vm_compute. exact I. }
  destruct (resolve_fails_cleanly 0 "ServiceContainer" new_container Hnb)
    as (_&H&_).
  exact (H _ eq_refl eq_refl eq_refl).
Defined.

(** *** Scopes *)

Lemma resolve_stable_services fuel T c :
  _services (resolve fuel T c).1 = _services c.
Proof. by destruct (resolve_stable fuel T c). Qed.

(** A scoped service resolved in a scope is cached there: every later
    resolve in that scope returns the same instance and changes neither
    the scope nor its parent. *)
Theorem scoped_resolved_once fuel T s s' i descriptor :
  scoped_resolve fuel T s = (s', Done i) →
  _services (_parent s) !! T = Some descriptor →
  lifetime descriptor = SCOPED →
  _scoped_instances s' !! T = Some i ∧
  ∀ fuel', scoped_resolve fuel' T s' = (s', Done i).
Proof.
  unfold scoped_resolve. intros Hres Hd Hl. rewrite Hd, Hl in Hres.
  assert (_scoped_instances s' !! T = Some i ∧
          _services (_parent s') = _services (_parent s)) as [Hc Hs].
  { destruct (_scoped_instances s !! T) as [j|] eqn:Hj; [by simplify_eq|].
    pose proof (create_instance_stable (resolve fuel) (resolve_stable fuel)
                  descriptor (_parent s)) as [Hs _].
    destruct (_create_instance _ _ _) as [c [a|e|]]; simplify_eq.
    simpl in *. by rewrite lookup_insert_eq. }
  split; [done|]. intros fuel'. by rewrite Hs, Hd, Hl, Hc.
Qed.

Lemma scoped_resolved_once_witness :
  ∃ s', scoped_resolve 1 "Session" (create_scope session_container) =
          (s', Done (Built "Session" [])) ∧
        scoped_resolve 0 "Session" s' = (s', Done (Built "Session" [])).
Proof.
  destruct (scoped_resolve 1 "Session" (create_scope session_container))
    as [s' r] eqn:Hres.
  assert (r = Done (Built "Session" [])) as ->
    by (vm_compute in Hres; by simplify_eq).
  exists s'. split; [done|].
  eapply (scoped_resolved_once 1 "Session" (create_scope session_container) s');
    [exact Hres|vm_compute; reflexivity|reflexivity].
Defined.

End CachingFacts.

(** ** Configuration: nested merge, sources and environment *)

Module ConfigPathFacts.
Import Config ConfigFacts ConfigPaths.

Lemma get_path_cons d k k' keys :
  get_path d (k :: k' :: keys) =
  match dict_get d k with
  | Some (VDict d') => get_path d' (k' :: keys)
  | _ => None
  end.
Proof. done. Qed.

Lemma untouched_get p : ∀ o, untouched p o → get_path o p = None.
Proof.
  induction p as [|k rest IH]; intros o Hu; [done|].
  destruct rest as [|k' rest].
  - simpl in *. by destruct (dict_get o k) as [[]|]; try done; destruct Hu.
  - rewrite get_path_cons. cbn [untouched] in Hu.
    destruct (dict_get o k) as [[]|]; try done. destruct Hu as [_ Hu]. by apply IH.
Qed.

(** A value that is not a dict, set by the override at any depth, is the
    value of the merged configuration at that path, whatever the base
    holds there. *)
Theorem merge_leaf_wins p : ∀ base override v,
  unique_along p override →
  get_path override p = Some v → is_dict v = false →
  get_path (_merge_config base override) p = Some v.
Proof.
  induction p as [|k rest IH]; intros base override v Hu Hg Hv; [done|].
  destruct Hu as [Hnd Hu].
  destruct rest as [|k' rest].
  - simpl in *. rewrite merge_config_get, Hg by done.
    by rewrite merge_entry_scalar.
  - rewrite get_path_cons in *. rewrite merge_config_get by done.
    destruct (dict_get override k) as [[| | | | | |o]|]; try done.
    destruct (dict_get base k) as [[| | | | | |b]|];
      try (by rewrite merge_entry_over_scalar by done).
    rewrite merge_entry_dicts. by apply IH.
Qed.

Lemma merge_leaf_wins_witness :
  get_path (_merge_config defaults [("plugins", VDict [("auto_load", VBool false)])])
           ["plugins"; "auto_load"] = Some (VBool false).
Proof.
  apply (merge_leaf_wins ["plugins"; "auto_load"]); [|done..].
  simpl. repeat split; repeat constructor; set_solver.
Defined.

(** A path the override says nothing about keeps the value of the base,
    also below dicts that the override does extend. *)
Theorem merge_keeps_untouched p : ∀ base override,
  unique_along p override → untouched p override →
  get_path (_merge_config base override) p = get_path base p.
Proof.
  induction p as [|k rest IH]; intros base override Hu Ht; [done|].
  destruct Hu as [Hnd Hu]. cbn [untouched] in Ht.
  destruct rest as [|k' rest].
  - simpl. rewrite merge_config_get by done.
    by destruct (dict_get override k) as [[]|]; try done; destruct Ht.
  - rewrite !get_path_cons. rewrite merge_config_get by done.
    destruct (dict_get override k) as [[| | | | | |o]|]; try done.
    destruct Ht as [_ Ht].
    destruct (dict_get base k) as [[| | | | | |b]|];
      try (rewrite merge_entry_over_scalar by done; by apply untouched_get).
    rewrite merge_entry_dicts. by apply IH.
Qed.

Lemma merge_keeps_untouched_witness :
  get_path (_merge_config defaults [("plugins", VDict [("auto_load", VBool false)])])
           ["plugins"; "hot_reload"] = Some (VBool true).
Proof.
  rewrite (merge_keeps_untouched ["plugins"; "hot_reload"]); [done|..].
  - simpl. repeat split; repeat constructor; set_solver.
  - simpl. done.
Defined.

(** The merge never loses a key: the keys of the result are those of the
    base, in their order, followed by the new keys of the override; and a
    base without repeated keys gives a result without repeated keys. *)
Theorem merge_config_keys base override :
  (∀ k, k ∈ (_merge_config base override).*1 ↔ k ∈ base.*1 ∨ k ∈ override.*1) ∧
  base.*1 `prefix_of` (_merge_config base override).*1 ∧
  (NoDup base.*1 → NoDup (_merge_config base override).*1).
Proof.
  split_and!; [| |apply merge_config_NoDup].
  - revert base. induction override as [|[k' x] override IH]; intros base k.
    { simpl. set_solver. }
    rewrite merge_config_cons, IH, dict_set_keys. simpl.
    case_decide; set_solver.
  - revert base. induction override as [|[k' x] override IH]; intros base.
    { done. }
    rewrite merge_config_cons. etrans; [|apply IH].
    rewrite dict_set_keys. case_decide; [done|]. by apply prefix_app_r.
Qed.

(** *** Strings of the environment translation *)

Lemma contains_split c sep s k :
  k ∈ split sep s → contains c k = true → contains c s = true.
Proof.
  revert k. induction s as [|a s IH]; intros k; simpl.
  { intros ->%list_elem_of_singleton. done. }
  destruct (Ascii.eqb a sep) eqn:Ha.
  - intros [->|Hk]%elem_of_cons Hc; [done|].
    rewrite (IH k Hk Hc). apply orb_true_r.
  - destruct (split sep s) as [|piece pieces] eqn:Hs.
    + intros ->%list_elem_of_singleton Hc. simpl in Hc.
      rewrite orb_false_r in Hc. by rewrite Hc.
    + intros [->|Hk]%elem_of_cons Hc.
      * simpl in Hc. apply orb_true_iff in Hc as [->|Hc]; [done|].
        rewrite (IH piece) by (done || set_solver). apply orb_true_r.
      * rewrite (IH k) by (done || set_solver). apply orb_true_r.
Qed.

Lemma split_no_sep sep s k : k ∈ split sep s → contains sep k = false.
Proof.
  revert k. induction s as [|a s IH]; intros k; simpl.
  { intros ->%list_elem_of_singleton. done. }
  destruct (Ascii.eqb a sep) eqn:Ha.
  - intros [->|Hk]%elem_of_cons; [done|]. by apply IH.
  - destruct (split sep s) as [|piece pieces] eqn:Hs.
    + intros ->%list_elem_of_singleton. simpl. by rewrite Ha.
    + intros [->|Hk]%elem_of_cons.
      * simpl. rewrite Ha. apply IH. set_solver.
      * apply IH. set_solver.
Qed.

Lemma dots_no_underscore s : contains "_"%char (dots s) = false.
Proof.
  induction s as [|a s IH]; simpl; [done|]. rewrite IH, orb_false_r.
  destruct (Ascii.eqb a "_") eqn:Ha; [done|exact Ha].
Qed.

Section manager.
Variable py_int : string → option Z.
Variable py_float : string → option Z.
Variable json_loads : string → option value.
Variable splitlines : string → list string.
Variable strip : string → string.
Variable read_file : string → option string.
Variable json_load : string → option value.
Variable yaml_safe_load : string → option value.
Variable environ : list (string * string).

Abbreviation env_item := (environment_item py_int py_float json_loads).
Abbreviation source_dict :=
  (contribution py_int py_float json_loads splitlines strip read_file
                json_load yaml_safe_load).
Abbreviation merge_one :=
  (merge_source py_int py_float json_loads splitlines strip read_file
                json_load yaml_safe_load).

(** An environment variable with the prefix is stored under a path made
    of the rest of its name, lower-cased and cut at every underscore: no
    component of the path holds an underscore or a dot, so a key that has
    one (such as [auto_load]) is never the target of a variable. *)
Theorem environment_path_has_no_underscore config item config' :
  startswith item.1 prefix = true →
  env_item (Some config) item = Some config' →
  let path := split "."%char (dots (lower (drop_chars (String.length prefix) item.1))) in
  get_path config' path = Some (_convert_value py_int py_float json_loads item.2) ∧
  Forall (λ k, contains "_"%char k = false ∧ contains "."%char k = false) path.
Proof.
  intros Hp H path. split.
  - unfold environment_item in H. simpl in H. rewrite Hp in H.
    by apply set_nested_value_get in H.
  - apply Forall_forall. intros k Hk. split; [|by eapply split_no_sep].
    destruct (contains "_"%char k) eqn:Hc; [|done].
    pose proof (contains_split _ _ _ _ Hk Hc) as Hd.
    by rewrite dots_no_underscore in Hd.
Qed.

(** Variables without the prefix play no part in the overlay. *)
Lemma environment_loop_prefixed l : ∀ start,
  foldl env_item start l =
  foldl env_item start (filter (λ item, startswith item.1 prefix = true) l).
Proof.
  induction l as [|item l IH]; intros start; [done|].
  rewrite filter_cons. case_decide as Hp; simpl; [apply IH|].
  rewrite IH. f_equal. unfold environment_item.
  destruct start as [config|]; [|done]. simpl.
  by destruct (startswith item.1 prefix).
Qed.

(** Once a variable has made the overlay raise, the loop is over. *)
Lemma environment_loop_raised l : foldl env_item None l = None.
Proof. induction l as [|item l IH]; [done|]. simpl. apply IH. Qed.

(** A source that loads nothing, or an empty dict, or a value that is not
    a dict (a missing or unreadable file, a parse error, an unsupported
    format) is passed over: the merged result is the one of the sources
    that do contribute, in the same order. *)
Theorem silent_sources_are_skipped sources : ∀ start,
  foldl merge_one start sources =
  foldl merge_one start (filter (λ s, contributes (source_dict s)) sources).
Proof.
  induction sources as [|s sources IH]; intros start; [done|].
  rewrite filter_cons. case_decide as Hc; simpl; [apply IH|].
  rewrite IH. f_equal. rewrite merge_source_contribution.
  destruct (source_dict s); [done|]. by destruct Hc.
Qed.

End manager.

(** Only the variables that start with the prefix matter to
    [_load_environment]; the others can be dropped. *)
Theorem load_environment_prefixed py_int py_float json_loads environ :
  _load_environment py_int py_float json_loads environ =
  _load_environment py_int py_float json_loads
    (filter (λ item, startswith item.1 prefix = true) environ).
Proof. apply environment_loop_prefixed. Qed.

(** Two variables of which the second walks through the first (as
    [X] and [X_Y], when [X] holds a scalar) make the overlay raise, and
    [load_all] with it: no configuration is produced. *)
Theorem environment_collision_raises py_int py_float json_loads splitlines
    strip read_file json_load yaml_safe_load environ cm
    before item after config k rest v :
  environ = before ++ item :: after →
  foldl (environment_item py_int py_float json_loads) (Some []) before = Some config →
  startswith item.1 prefix = true →
  split "."%char (dots (lower (drop_chars (String.length prefix) item.1))) = k :: rest →
  rest ≠ [] →
  dict_get config k = Some v → is_dict v = false →
  _load_environment py_int py_float json_loads environ = None ∧
  load_all py_int py_float json_loads splitlines strip read_file
           json_load yaml_safe_load environ cm = None.
Proof.
  intros -> Hb Hp Hs Hr Hk Hv.
  assert (_load_environment py_int py_float json_loads (before ++ item :: after) = None)
    as Hnone.
  { unfold _load_environment. rewrite foldl_app, Hb.
    change (foldl ?f ?a (item :: after)) with (foldl f (f a item) after).
    assert (environment_item py_int py_float json_loads (Some config) item = None)
      as ->; [|apply environment_loop_raised].
    unfold environment_item, _set_nested_value.
    change (Some config ≫= ?f) with (f config). cbv beta. rewrite Hp, Hs.
    destruct rest as [|k' rest]; [done|]. cbn [set_path]. rewrite Hk.
    by destruct v. }
  split; [done|]. unfold load_all. by rewrite Hnone.
Qed.

Lemma environment_collision_raises_witness :
  load_all (λ _, None) (λ _, None) (λ _, None) (λ _, []) id (λ _, None)
           (λ _, None) (λ _, None) colliding_environ new_manager = None.
Proof.
  refine (proj2 (environment_collision_raises
    (λ _, None) (λ _, None) (λ _, None) (λ _, []) id (λ _, None)
    (λ _, None) (λ _, None) colliding_environ new_manager
    [("ALSANIAMCP_LOG", "debug"); ("PATH", "/bin")]
    ("ALSANIAMCP_LOG_LEVEL", "info") [] [("log", VStr "debug")]
    "log" ["level"] (VStr "debug") eq_refl eq_refl eq_refl eq_refl _ eq_refl eq_refl)).
  done.
Defined.

Lemma environment_path_has_no_underscore_witness :
  get_path [("plugins", VDict [("auto", VDict [("load", VBool false)])])]
           ["plugins"; "auto"; "load"] = Some (VBool false).
Proof.
  exact (proj1 (environment_path_has_no_underscore
    (λ _, None) (λ _, None) (λ _, None) []
    ("ALSANIAMCP_PLUGINS_AUTO_LOAD", "false") _ eq_refl eq_refl)).
Defined.

End ConfigPathFacts.

(** ** The loaded set of the plugin manager *)

Module LifecycleFacts.
Import Manager ManagerFacts Lifecycle.

Lemma set_last {A} (l : list A) x y : <[length l := y]> (l ++ [x]) = l ++ [y].
Proof. rewrite insert_app_r_alt by lia. by rewrite Nat.sub_diag. Qed.

Lemma lookup_last {A} (l : list A) x : (l ++ [x]) !! length l = Some x.
Proof. by apply list_lookup_middle. Qed.

Lemma remove_first_absent x l : x ∉ l → remove_first x l = l.
Proof.
  induction l as [|y l IH]; [done|]. intros Hx. simpl.
  rewrite decide_False by set_solver. f_equal. apply IH. set_solver.
Qed.

Lemma remove_first_snoc x l : x ∉ l → remove_first x (l ++ [x]) = l.
Proof.
  induction l as [|y l IH]; intros Hx; simpl.
  - by rewrite decide_True.
  - rewrite decide_False by set_solver. f_equal. apply IH. set_solver.
Qed.

Lemma remove_first_elem x l :
  NoDup l → ∀ y, y ∈ remove_first x l ↔ y ∈ l ∧ y ≠ x.
Proof.
  induction 1 as [|z l Hz Hnd IH]; intros y; simpl; [set_solver|].
  case_decide as Hx.
  - subst. set_solver.
  - rewrite elem_of_cons, IH. set_solver.
Qed.

Lemma remove_first_NoDup x l : NoDup l → NoDup (remove_first x l).
Proof.
  induction 1 as [|z l Hz Hnd IH]; simpl; [constructor|].
  case_decide; [done|]. constructor; [|done].
  rewrite remove_first_elem by done. tauto.
Qed.

Section manager.
Variable world : World.

(** The books after a load that failed, whatever the step. *)
Lemma load_plugin_Raised_books plugin_name m m' e :
  load_plugin world plugin_name m = (m', Raised e) →
  _plugins m !! plugin_name = None →
  _plugins m' = _plugins m ∧
  _plugin_configs m' = delete plugin_name (_plugin_configs m) ∧
  _plugin_classes m' = delete plugin_name (_plugin_classes m) ∧
  (_load_order m' = remove_first plugin_name (_load_order m) ∨
   _load_order m' = remove_first plugin_name (_load_order m ++ [plugin_name])) ∧
  (objects m' = objects m ∨ ∃ o, objects m' = objects m ++ [o]).
Proof.
  unfold load_plugin. intros H Hn.
  rewrite decide_False in H by (rewrite Hn; by intros [? ?]).
  revert H. unfold load_plugin_body.
  cbv beta iota zeta delta [mbind_m modify instantiate initialize start ret fail].
  destruct (load_class world plugin_name) as [cls|].
  2:{ intros [= <- <-]. simpl. rewrite delete_id by done. auto 10. }
  destruct (constructs cls).
  2:{ intros [= <- <-]. simpl. rewrite delete_id, delete_insert_eq by done.
      auto 10. }
  destruct (plugin_config world plugin_name) as [config|].
  2:{ intros [= <- <-]. simpl. rewrite delete_id, delete_insert_eq by done.
      eauto 10. }
  destruct (initializes cls).
  2:{ intros [= <- <-]. simpl. rewrite delete_id, delete_insert_eq by done.
      rewrite lookup_last, set_last. simpl. rewrite lookup_last, set_last.
      eauto 10. }
  match goal with
  | |- context [_status <$> ?objs !! ?i] =>
    destruct (_status <$> objs !! i) as [[]|]
  end; try destruct (starts cls); intros [= <- <-];
    unfold _register_plugin_services, _register_plugin_by_type;
    destruct (is_agent cls), (is_embedding cls), (is_memory cls); simpl;
    rewrite !delete_insert_eq, (delete_id (_plugins m)) by done;
    rewrite lookup_last, set_last; simpl; rewrite lookup_last, set_last;
    eauto 10.
Qed.

End manager.

Section books.
Variable world : World.

Lemma length_set_status plugin st m :
  length (objects (set_status plugin st m)) = length (objects m).
Proof.
  simpl. destruct (objects m !! plugin); [|done]. by rewrite length_insert.
Qed.

(** The books after a load that succeeded. *)
Lemma load_plugin_Done_books plugin_name m m' plugin :
  load_plugin world plugin_name m = (m', Done plugin) →
  _plugins m !! plugin_name = None ∧
  ∃ cls config,
    load_class world plugin_name = Some cls ∧
    plugin_config world plugin_name = Some config ∧
    plugin = length (objects m) ∧
    _plugins m' = <[plugin_name := plugin]> (_plugins m) ∧
    _plugin_configs m' = <[plugin_name := config]> (_plugin_configs m) ∧
    _plugin_classes m' = <[plugin_name := cls]> (_plugin_classes m) ∧
    _load_order m' = _load_order m ++ [plugin_name] ∧
    objects m' = objects m ++ [{| plugin_class := cls; _status := ACTIVE |}].
Proof.
  unfold load_plugin. case_decide as Hn; [done|].
  apply eq_None_not_Some in Hn.
  destruct (load_plugin_body world plugin_name m) as [m1 [p| |]] eqn:Hbody;
    intros ?; simplify_eq.
  split; [done|].
  apply load_plugin_body_Done in Hbody as (cls&config&Hcls&Hcfg&->&->).
  exists cls, config. split_and!; [done..| | | | |].
  - unfold _register_plugin_services, _register_plugin_by_type.
    by destruct (is_agent cls), (is_embedding cls), (is_memory cls).
  - unfold _register_plugin_services, _register_plugin_by_type.
    by destruct (is_agent cls), (is_embedding cls), (is_memory cls).
  - unfold _register_plugin_services, _register_plugin_by_type.
    by destruct (is_agent cls), (is_embedding cls), (is_memory cls).
  - unfold _register_plugin_services, _register_plugin_by_type.
    by destruct (is_agent cls), (is_embedding cls), (is_memory cls).
  - unfold _register_plugin_services, _register_plugin_by_type.
    destruct (is_agent cls), (is_embedding cls), (is_memory cls); simpl;
      rewrite lookup_last, set_last; simpl; by rewrite lookup_last, set_last.
Qed.

(** The books after an unload that succeeded. *)
Lemma unload_plugin_Done_books plugin_name m m' :
  unload_plugin world plugin_name m = (m', Done tt) →
  ∃ plugin o,
    _plugins m !! plugin_name = Some plugin ∧
    objects m !! plugin = Some o ∧
    stops (plugin_class o) = true ∧
    _plugins m' = delete plugin_name (_plugins m) ∧
    _plugin_configs m' = delete plugin_name (_plugin_configs m) ∧
    _plugin_classes m' = _plugin_classes m ∧
    _load_order m' = remove_first plugin_name (_load_order m) ∧
    _agents m' = delete (metadata_name (plugin_class o)) (_agents m) ∧
    _embeddings m' = delete (metadata_name (plugin_class o)) (_embeddings m) ∧
    _memory_providers m' =
      delete (metadata_name (plugin_class o)) (_memory_providers m) ∧
    container m' = container m ∧
    objects m' =
      <[plugin := {| plugin_class := plugin_class o; _status := STOPPED |}]>
        (objects m).
Proof.
  unfold unload_plugin.
  destruct (_plugins m !! plugin_name) as [plugin|]; [|done].
  cbv zeta. change (objects (publish world ?ev m)) with (objects m).
  destruct (objects m !! plugin) as [o|] eqn:Ho; [|done]. simpl.
  destruct (stops (plugin_class o)) eqn:Hs; [|done].
  intros [= <-]. exists plugin, o. split_and!; try done.
  simpl. rewrite Ho. rewrite list_lookup_insert_eq by by eapply lookup_lt_Some.
  by rewrite list_insert_insert_eq.
Qed.

(** An unload that raised changed no book: the plugin was not loaded, or
    its stop raised and it is left in the [ERROR] status. *)
Lemma unload_plugin_Raised_books plugin_name m m' e :
  unload_plugin world plugin_name m = (m', Raised e) →
  _plugins m' = _plugins m ∧
  _plugin_configs m' = _plugin_configs m ∧
  _plugin_classes m' = _plugin_classes m ∧
  _load_order m' = _load_order m ∧
  _agents m' = _agents m ∧
  _embeddings m' = _embeddings m ∧
  _memory_providers m' = _memory_providers m ∧
  container m' = container m ∧
  length (objects m') = length (objects m) ∧
  (e = PluginNotFoundError plugin_name ∧ _plugins m !! plugin_name = None ∧
   m' = m ∨
   e = PluginStopError plugin_name ∧
   ∃ plugin, _plugins m !! plugin_name = Some plugin ∧
     ∀ o, objects m !! plugin = Some o →
       stops (plugin_class o) = false ∧
       objects m' =
         <[plugin := {| plugin_class := plugin_class o; _status := ERROR |}]>
           (objects m)).
Proof.
  unfold unload_plugin.
  destruct (_plugins m !! plugin_name) as [plugin|] eqn:Hp.
  2:{ intros [= <- <-]. split_and!; try done. by left. }
  cbv zeta. change (objects (publish world ?ev m)) with (objects m).
  destruct (objects m !! plugin) as [o|] eqn:Ho; simpl.
  - destruct (stops (plugin_class o)) eqn:Hs; [done|].
    intros [= <- <-]. simpl. rewrite Ho.
    rewrite list_lookup_insert_eq by by eapply lookup_lt_Some.
    rewrite list_insert_insert_eq, length_insert.
    split_and!; try done. right. split; [done|]. exists plugin.
    split; [done|]. intros o2 Ho2. by simplify_eq.
  - intros [= <- <-]. split_and!; try done. right. split; [done|].
    exists plugin. split; [done|]. intros o ?. congruence.
Qed.

Lemma load_plugin_returns plugin_name m : (load_plugin world plugin_name m).2 ≠ Starved.
Proof.
  unfold load_plugin. case_decide; [done|].
  unfold load_plugin_body.
  cbv beta iota zeta delta [mbind_m modify instantiate initialize start ret fail].
  destruct (load_class world plugin_name) as [cls|]; [|done].
  destruct (constructs cls); [|done].
  destruct (plugin_config world plugin_name) as [config|]; [|done].
  destruct (initializes cls); [|done].
  match goal with
  | |- context [_status <$> ?objs !! ?i] =>
    destruct (_status <$> objs !! i) as [[]|]
  end; try destruct (starts cls); done.
Qed.

Lemma load_plugin_loaded plugin_name m :
  is_Some (_plugins m !! plugin_name) →
  load_plugin world plugin_name m = (m, Raised (PluginAlreadyLoadedError plugin_name)).
Proof. intros. unfold load_plugin. by rewrite decide_True. Qed.

Lemma consistent_absent plugin_name m :
  consistent m → _plugins m !! plugin_name = None →
  plugin_name ∉ _load_order m ∧ _plugin_configs m !! plugin_name = None.
Proof.
  intros (Hnd&Hdom&Hcfg&_) Hp. apply not_elem_of_dom in Hp. split.
  - intros Hin. apply Hp. rewrite Hdom. by apply elem_of_list_to_set.
  - apply not_elem_of_dom. by rewrite Hcfg.
Qed.

(** A failed load gives the three books back as they were. *)
Lemma load_plugin_Raised_restores plugin_name m m' e :
  consistent m →
  load_plugin world plugin_name m = (m', Raised e) →
  _plugins m' = _plugins m ∧
  _plugin_configs m' = _plugin_configs m ∧
  _load_order m' = _load_order m ∧
  objects m `prefix_of` objects m'.
Proof.
  intros Hc Hl.
  destruct (_plugins m !! plugin_name) as [p|] eqn:Hp.
  { rewrite load_plugin_loaded in Hl by (by rewrite Hp). by simplify_eq. }
  destruct (load_plugin_Raised_books world _ _ _ _ Hl Hp) as (HP&HC&_&HL&HO).
  destruct (consistent_absent _ _ Hc Hp) as [Hni Hnc].
  split_and!.
  - done.
  - rewrite HC. by apply delete_id.
  - destruct HL as [-> | ->].
    + by apply remove_first_absent.
    + by apply remove_first_snoc.
  - destruct HO as [-> | [o ->]]; [done|]. by apply prefix_app_r.
Qed.

Lemma load_plugin_consistent plugin_name m :
  consistent m → consistent (load_plugin world plugin_name m).1.
Proof.
  intros Hc.
  destruct (load_plugin world plugin_name m) as [m' [p|e|]] eqn:Hl; simpl.
  - apply load_plugin_Done_books in Hl
      as (Hp&cls&config&_&_&->&HP&HC&_&HL&HO).
    destruct (consistent_absent _ _ Hc Hp) as [Hni Hnc].
    destruct Hc as (Hnd&Hdom&Hcfg&Hinj&Hobj).
    assert (∀ n q, _plugins m !! n = Some q → q < length (objects m)) as Hlt.
    { intros n q (o&Ho&_)%Hobj. by eapply lookup_lt_Some. }
    split_and!.
    + rewrite HL. apply NoDup_app. split_and!; [done| |apply NoDup_singleton].
      intros x Hx ->%list_elem_of_singleton. done.
    + rewrite HP, HL, dom_insert_L, list_to_set_app_L, Hdom. simpl. set_solver.
    + by rewrite HP, HC, !dom_insert_L, Hcfg.
    + intros n1 n2 q. rewrite HP.
      intros [[-> <-]|[? H1]]%lookup_insert_Some [[-> ?]|[? H2]]%lookup_insert_Some;
        try done.
      * apply Hlt in H2. lia.
      * apply Hlt in H1. lia.
      * by eapply Hinj.
    + intros n q. rewrite HP, HO.
      intros [[-> <-]|[? Hq]]%lookup_insert_Some.
      * rewrite lookup_last. eauto.
      * destruct (Hobj _ _ Hq) as (o&Ho&Hs). exists o. split; [|done].
        by apply lookup_app_l_Some.
  - destruct (load_plugin_Raised_restores _ _ _ _ Hc Hl) as (HP&HC&HL&HO).
    destruct Hc as (Hnd&Hdom&Hcfg&Hinj&Hobj).
    split_and!; rewrite ?HP, ?HC, ?HL; try done.
    intros n q (o&Ho&Hs)%Hobj. exists o. split; [|done].
    by eapply prefix_lookup_Some.
  - pose proof (load_plugin_returns plugin_name m) as Hr. by rewrite Hl in Hr.
Qed.

Lemma unload_plugin_returns plugin_name m :
  (unload_plugin world plugin_name m).2 ≠ Starved.
Proof.
  unfold unload_plugin. destruct (_plugins m !! plugin_name); [|done].
  cbv zeta. destruct (_ <$> _ !! _); [|done]. by destruct (stops _).
Qed.

Lemma unload_plugin_consistent plugin_name m :
  consistent m → consistent (unload_plugin world plugin_name m).1.
Proof.
  intros (Hnd&Hdom&Hcfg&Hinj&Hobj).
  destruct (unload_plugin world plugin_name m) as [m' [[]|e|]] eqn:Hu; simpl.
  - apply unload_plugin_Done_books in Hu
      as (p&o&Hp&Ho&Hs&HP&HC&_&HL&_&_&_&_&HO).
    split_and!.
    + rewrite HL. by apply remove_first_NoDup.
    + rewrite HP, HL, dom_delete_L, Hdom. apply set_eq. intros x.
      rewrite elem_of_list_to_set, remove_first_elem by done.
      rewrite elem_of_difference, elem_of_list_to_set. set_solver.
    + by rewrite HP, HC, !dom_delete_L, Hcfg.
    + intros n1 n2 q. rewrite HP.
      intros [_ H1]%lookup_delete_Some [_ H2]%lookup_delete_Some.
      by eapply Hinj.
    + intros n q. rewrite HP, HO. intros [Hne Hq]%lookup_delete_Some.
      rewrite list_lookup_insert_ne; [by eapply Hobj|].
      intros <-. apply Hne. by eapply Hinj.
  - apply unload_plugin_Raised_books in Hu
      as (HP&HC&_&HL&_&_&_&_&_&HO).
    split_and!; rewrite ?HP, ?HC, ?HL; try done.
    destruct HO as [(_&_&->)|(_&p&Hp&HO)]; [done|].
    destruct (Hobj _ _ Hp) as (o&Ho&_). destruct (HO o Ho) as [_ ->].
    intros n q Hq. destruct (decide (q = p)) as [->|Hne].
    + rewrite list_lookup_insert_eq by by eapply lookup_lt_Some. eauto.
    + rewrite list_lookup_insert_ne by done. by eapply Hobj.
  - pose proof (unload_plugin_returns plugin_name m) as Hr. by rewrite Hu in Hr.
Qed.

Lemma load_in_order_consistent order : ∀ m,
  consistent m → consistent (load_in_order world order m).1.
Proof.
  induction order as [|n order IH]; intros m Hc; simpl; [done|].
  case_decide; [by apply IH|].
  pose proof (load_plugin_consistent n m Hc) as Hc'.
  destruct (load_plugin world n m) as [m' [p|e|]]; simpl in *; [|done..].
  by apply IH.
Qed.

Lemma load_plugins_consistent names m :
  consistent m → consistent (load_plugins world names m).1.
Proof.
  intros Hc. unfold load_plugins.
  destruct (Discovery.resolve_dependencies _ _); [|done..].
  by apply load_in_order_consistent.
Qed.

Lemma unload_loop_consistent l : ∀ m,
  consistent m →
  consistent (foldl (λ m n, (unload_plugin world n m).1) m l).
Proof.
  induction l as [|n l IH]; intros m Hc; simpl; [done|].
  by apply IH, unload_plugin_consistent.
Qed.

Lemma new_manager_consistent found : consistent (new_manager found).
Proof.
  split_and!; simpl; [constructor|set_solver..| |];
    intros *; by rewrite lookup_empty.
Qed.

End books.

Lemma reload_plugin_consistent world world' n m :
  consistent m → consistent (reload_plugin world world' n m).1.
Proof.
  intros Hc. unfold reload_plugin.
  destruct (_plugins m !! n); [|done].
  destruct (_ <$> _ !! _) as [cls|]; [|done].
  destruct (hot_reload_supported cls); [|done].
  pose proof (unload_plugin_consistent world n m Hc) as Hc1.
  destruct (unload_plugin world n m) as [m1 [[]| |]]; [|done..].
  destruct (load_class world' n); [|done].
  pose proof (load_plugin_consistent world' n m1 Hc1) as Hc2.
  by destruct (load_plugin world' n m1) as [m2 [| |]].
Qed.


Lemma resolve_registered fuel T i c :
  T ∉ Container._building c →
  (∃ d, Container._services c !! T = Some d ∧
        Container.lifetime d = Container.SINGLETON) →
  Container._singletons c !! T = Some i →
  Container.resolve (S fuel) T c = (c, Done i).
Proof.
  intros Hnb (d&Hd&Hl) Hs. simpl. rewrite decide_False by done.
  unfold Container.finally, Container._resolve_internal. simpl.
  rewrite Hd, Hl, Hs. by rewrite CachingFacts.restore_building.
Qed.

Section services.
Variable world : World.

Lemma load_plugin_Done_container plugin_name m m' plugin :
  load_plugin world plugin_name m = (m', Done plugin) →
  ∃ cls, load_class world plugin_name = Some cls ∧
    Container._building (container m') = Container._building (container m) ∧
    (∃ d, Container._services (container m') !! class_name cls = Some d ∧
          Container.lifetime d = Container.SINGLETON) ∧
    Container._singletons (container m') !! class_name cls =
      Some (Container.Given plugin).
Proof.
  unfold load_plugin. case_decide as Hn; [done|].
  destruct (load_plugin_body world plugin_name m) as [m1 [p| |]] eqn:Hbody;
    intros ?; simplify_eq.
  apply load_plugin_body_Done in Hbody as (cls&config&Hcls&Hcfg&->&->).
  exists cls. split; [done|].
  unfold _register_plugin_services, _register_plugin_by_type.
  destruct (is_agent cls), (is_embedding cls), (is_memory cls); simpl;
    (split; [done|]); split;
    repeat match goal with
    | |- context [<[?a := _]> _ !! ?b] =>
      destruct (decide (a = b)) as [->|];
        [rewrite lookup_insert_eq|rewrite lookup_insert_ne by done]
    end; rewrite ?lookup_insert_eq; eauto.
Qed.

End services.

Section registries.
Variable world : World.

(** The type registries after a load that succeeded. *)
Lemma load_plugin_registers_by_precedence_books plugin_name m m' plugin :
  load_plugin world plugin_name m = (m', Done plugin) →
  ∃ cls,
    load_class world plugin_name = Some cls ∧
    _agents m' =
      (if is_agent cls then <[metadata_name cls := plugin]> (_agents m)
       else _agents m) ∧
    _embeddings m' =
      (if negb (is_agent cls) && is_embedding cls
       then <[metadata_name cls := plugin]> (_embeddings m)
       else _embeddings m) ∧
    _memory_providers m' =
      (if negb (is_agent cls) && negb (is_embedding cls) && is_memory cls
       then <[metadata_name cls := plugin]> (_memory_providers m)
       else _memory_providers m).
Proof.
  unfold load_plugin. case_decide; [done|].
  destruct (load_plugin_body world plugin_name m) as [m1 [p| |]] eqn:Hbody;
    intros ?; simplify_eq.
  apply load_plugin_body_Done in Hbody as (cls&config&Hcls&_&_&->).
  exists cls. split; [done|].
  pose proof (registries_after_load world cls config plugin_name plugin
    (plugin_event "plugin.loading" plugin_name "" None)
    (plugin_event "plugin.loaded" plugin_name (metadata_version cls) None) m)
    as (_&Ha&He&Hm).
  done.
Qed.

End registries.

(** Whatever sequence of loads, unloads, reloads and shutdowns the manager
    has gone through, whatever failed on the way, its books agree: the
    load order lists exactly the loaded plugins, once each; each has its
    configuration stored; no two names share a plugin object; and a loaded
    plugin is active, or in error after a stop that raised. *)
Theorem books_stay_consistent m : reached m → consistent m.
Proof.
  induction 1.
  - apply new_manager_consistent.
  - by apply load_plugin_consistent.
  - by apply load_plugins_consistent.
  - by apply unload_plugin_consistent.
  - by apply reload_plugin_consistent.
  - unfold unload_all. by apply unload_loop_consistent.
Qed.

Lemma books_stay_consistent_witness :
  consistent (unload_plugin chain_world "A"
                (load_plugins chain_world ["B"] (new_manager Discovery.chain)).1).1.
Proof.
  apply books_stay_consistent.
  apply reached_unload_plugin, reached_load_plugins, reached_new.
Defined.

(** A load that raises leaves the loaded plugins, the stored
    configurations and the load order exactly as they were, and no
    existing plugin object is touched; the error is the one for a plugin
    already loaded, with the manager unchanged, or the load error naming
    the plugin. *)
Theorem failed_load_restores_books world plugin_name m m' e :
  consistent m →
  load_plugin world plugin_name m = (m', Raised e) →
  (e = PluginAlreadyLoadedError plugin_name ∧ m' = m ∨
   ∃ cause, e = PluginLoadError plugin_name cause) ∧
  get_loaded_plugins m' = get_loaded_plugins m ∧
  _plugin_configs m' = _plugin_configs m ∧
  _load_order m' = _load_order m ∧
  ∀ plugin o, objects m !! plugin = Some o → objects m' !! plugin = Some o.
Proof.
  intros Hc Hl.
  destruct (load_plugin_Raised_restores _ _ _ _ _ Hc Hl) as (HP&HC&HL&HO).
  split_and!; try done.
  - destruct (_plugins m !! plugin_name) as [p|] eqn:Hp.
    + rewrite load_plugin_loaded in Hl by (by rewrite Hp). simplify_eq. by left.
    + right. by destruct (load_plugin_Raised _ _ _ _ _ Hl Hp) as [? _].
  - intros p o Ho. by eapply prefix_lookup_Some.
Qed.

Lemma failed_load_restores_books_witness :
  ∃ m', load_plugin test_world "helper" (new_manager ∅) =
          (m', Raised (PluginLoadError "helper" StartFailed)) ∧
        _load_order m' = [] ∧ get_loaded_plugins m' = ∅.
Proof.
  destruct (load_plugin test_world "helper" (new_manager ∅)) as [m' r] eqn:Hl.
  assert (r = Raised (PluginLoadError "helper" StartFailed)) as ->
    by (by vm_compute in Hl; simplify_eq).
  destruct (failed_load_restores_books test_world "helper" (new_manager ∅) m' _
              (new_manager_consistent ∅) Hl) as (_&HP&_&HL&_).
  exists m'. by rewrite HP, HL.
Defined.

(** A load that returns has made a new plugin object, now active, which
    is the one returned and the one stored under the name; the name is
    the last of the load order; the configuration computed for it is
    stored; and the container hands this very object out for the plugin's
    class. *)
Theorem load_plugin_activates world plugin_name m m' plugin :
  load_plugin world plugin_name m = (m', Done plugin) →
  ∃ cls,
    load_class world plugin_name = Some cls ∧
    plugin = length (objects m) ∧
    objects m' = objects m ++ [{| plugin_class := cls; _status := ACTIVE |}] ∧
    get_loaded_plugins m' !! plugin_name = Some plugin ∧
    _load_order m' = _load_order m ++ [plugin_name] ∧
    _plugin_configs m' !! plugin_name = plugin_config world plugin_name ∧
    (class_name cls ∉ Container._building (container m) →
     ∀ fuel, Container.resolve (S fuel) (class_name cls) (container m') =
             (container m', Done (Container.Given plugin))).
Proof.
  intros Hl.
  destruct (load_plugin_Done_container _ _ _ _ _ Hl) as (cls&Hcls&Hb&Hd&Hs).
  apply load_plugin_Done_books in Hl
    as (Hp&cls'&config&Hcls'&Hcfg&->&HP&HC&_&HL&HO).
  rewrite Hcls in Hcls'. injection Hcls' as <-.
  exists cls. unfold get_loaded_plugins.
  rewrite HP, HC, HL, HO, Hcfg, !lookup_insert_eq. split_and!; try done.
  intros Hnb fuel. apply resolve_registered; [by rewrite Hb|done..].
Qed.

Lemma load_plugin_activates_witness :
  ∃ m', load_plugin test_world "recall" (new_manager ∅) = (m', Done 0) ∧
        Container.resolve 1 "Recall" (container m') =
          (container m', Done (Container.Given 0)).
Proof.
  destruct (load_plugin test_world "recall" (new_manager ∅)) as [m' r] eqn:Hl.
  assert (r = Done 0) as -> by (by vm_compute in Hl; simplify_eq).
  destruct (load_plugin_activates test_world "recall" (new_manager ∅) m' 0 Hl)
    as (cls&Hcls&_&_&_&_&_&Hres).
  vm_compute in Hcls. injection Hcls as <-.
  exists m'. split; [done|]. apply (Hres ltac:(set_solver) 0).
Defined.

(** Loading a plugin and unloading it again, when its stop returns: the
    loaded plugins, the configurations and the load order are back as
    before the load and the object is stopped.  Two things are not back:
    the container still hands the stopped object out for the plugin's
    class, and the plugin's metadata name is gone from all three type
    registries, whoever had put it there. *)
Theorem load_unload_round_trip world plugin_name m m1 plugin cls :
  consistent m →
  load_plugin world plugin_name m = (m1, Done plugin) →
  load_class world plugin_name = Some cls →
  stops cls = true →
  ∃ m2,
    unload_plugin world plugin_name m1 = (m2, Done tt) ∧
    get_loaded_plugins m2 = get_loaded_plugins m ∧
    _plugin_configs m2 = _plugin_configs m ∧
    _load_order m2 = _load_order m ∧
    status m2 plugin = Some STOPPED ∧
    get_agents m2 = delete (metadata_name cls) (get_agents m) ∧
    get_embeddings m2 = delete (metadata_name cls) (get_embeddings m) ∧
    get_memory_providers m2 =
      delete (metadata_name cls) (get_memory_providers m) ∧
    (class_name cls ∉ Container._building (container m) →
     ∀ fuel, Container.resolve (S fuel) (class_name cls) (container m2) =
             (container m2, Done (Container.Given plugin))).
Proof.
  intros Hc Hl Hcls Hstops.
  destruct (load_plugin_Done_container _ _ _ _ _ Hl) as (cls'&Hcls'&Hb&Hd&Hs).
  destruct (load_plugin_registers_by_precedence_books _ _ _ _ _ Hl)
    as (cls''&Hcls''&Ha&He&Hm).
  apply load_plugin_Done_books in Hl
    as (Hp&cls3&config&Hcls3&Hcfg&->&HP&HC&_&HL&HO).
  rewrite Hcls in Hcls', Hcls'', Hcls3.
  injection Hcls' as <-. injection Hcls'' as <-. injection Hcls3 as <-.
  destruct (consistent_absent _ _ Hc Hp) as [Hni Hnc].
  destruct (unload_plugin world plugin_name m1) as [m2 r] eqn:Hu.
  assert (r = Done tt) as ->.
  { revert Hu. unfold unload_plugin. rewrite HP, lookup_insert_eq. cbv zeta.
    change (objects (publish world ?ev m1)) with (objects m1).
    rewrite HO, lookup_last. simpl. rewrite Hstops. by intros [= _ <-]. }
  exists m2. split; [done|].
  apply unload_plugin_Done_books in Hu
    as (p&o&Hp'&Ho&_&HP2&HC2&_&HL2&HA2&HE2&HM2&HK2&HO2).
  rewrite HP, lookup_insert_eq in Hp'. injection Hp' as <-.
  rewrite HO, lookup_last in Ho. injection Ho as <-. simpl in *.
  unfold get_loaded_plugins, get_agents, get_embeddings, get_memory_providers,
    status.
  rewrite HP2, HC2, HL2, HA2, HE2, HM2, HK2, HO2, HP, HC, HL, HO, Ha, He, Hm.
  rewrite !delete_insert_eq, remove_first_snoc by done.
  rewrite (delete_id (_plugins m)), (delete_id (_plugin_configs m)) by done.
  rewrite set_last, lookup_last.
  split_and!; try done.
  - destruct (is_agent cls); [by rewrite delete_insert_eq|done].
  - destruct (negb (is_agent cls) && is_embedding cls);
      [by rewrite delete_insert_eq|done].
  - destruct (negb (is_agent cls) && negb (is_embedding cls) && is_memory cls);
      [by rewrite delete_insert_eq|done].
  - intros Hnb fuel. apply resolve_registered; [by rewrite Hb|done..].
Qed.

Lemma load_unload_round_trip_witness :
  ∃ m1 m2,
    load_plugin test_world "recall" (new_manager ∅) = (m1, Done 0) ∧
    unload_plugin test_world "recall" m1 = (m2, Done tt) ∧
    get_loaded_plugins m2 = ∅ ∧
    Container.resolve 1 "Recall" (container m2) =
      (container m2, Done (Container.Given 0)).
Proof.
  destruct (load_plugin test_world "recall" (new_manager ∅)) as [m1 r] eqn:Hl.
  assert (r = Done 0) as -> by (by vm_compute in Hl; simplify_eq).
  destruct (load_unload_round_trip test_world "recall" (new_manager ∅) m1 0
              agent_and_memory (new_manager_consistent ∅) Hl eq_refl eq_refl)
    as (m2&Hu&HP&_&_&_&_&_&_&Hres).
  exists m1, m2. split_and!; [done..|]. apply (Hres ltac:(set_solver) 0).
Defined.

Section order.
Variable world : World.

(** The loop of [load_plugins] when every load returns. *)
Lemma load_in_order_Done order : ∀ m m',
  NoDup order →
  load_in_order world order m = (m', Done tt) →
  _load_order m' = _load_order m ++ filter (λ n, _plugins m !! n = None) order ∧
  (∀ n, is_Some (_plugins m' !! n) ↔ is_Some (_plugins m !! n) ∨ n ∈ order).
Proof.
  induction order as [|n order IH]; intros m m' Hnd Hl.
  { simpl in Hl. injection Hl as <-. rewrite app_nil_r. set_solver. }
  apply NoDup_cons in Hnd as [Hn Hnd]. simpl in Hl.
  case_decide as Hs.
  - destruct (IH _ _ Hnd Hl) as [HL HP]. split.
    + rewrite HL, filter_cons_False; [done|].
      destruct Hs as [p Hp]. by rewrite Hp.
    + intros x. rewrite HP, elem_of_cons. split; [tauto|].
      intros [?|[->|?]]; auto.
  - apply eq_None_not_Some in Hs.
    destruct (load_plugin world n m) as [m1 [p|e|]] eqn:Hl1; [|done..].
    apply load_plugin_Done_books in Hl1
      as (_&cls&config&_&_&_&HP1&_&_&HL1&_).
    destruct (IH _ _ Hnd Hl) as [HL HP]. split.
    + rewrite HL, HL1, filter_cons_True, <- app_assoc by done. simpl.
      do 2 f_equal. apply SubscriptionFacts.filter_agree. intros x Hx.
      rewrite HP1, lookup_insert_ne; [done|]. by intros ->.
    + intros x. rewrite HP, HP1, elem_of_cons.
      destruct (decide (x = n)) as [->|Hne].
      * rewrite lookup_insert_eq. split; eauto.
      * rewrite lookup_insert_ne by done. split; [tauto|].
        intros [?|[->|?]]; auto. done.
Qed.

(** The loop of [load_plugins] when a load raises: it stops there, and
    what was loaded before stays loaded. *)
Lemma load_in_order_Raised order : ∀ m m' e,
  NoDup order → consistent m →
  load_in_order world order m = (m', Raised e) →
  ∃ pre plugin_name post cause,
    order = pre ++ plugin_name :: post ∧
    e = PluginLoadError plugin_name cause ∧
    _plugins m !! plugin_name = None ∧
    _load_order m' = _load_order m ++ filter (λ n, _plugins m !! n = None) pre ∧
    (∀ n, is_Some (_plugins m' !! n) ↔ is_Some (_plugins m !! n) ∨ n ∈ pre).
Proof.
  induction order as [|n order IH]; intros m m' e Hnd Hc Hl; [done|].
  apply NoDup_cons in Hnd as [Hn Hnd]. simpl in Hl.
  case_decide as Hs.
  - destruct (IH _ _ _ Hnd Hc Hl) as (pre&pn&post&cause&->&->&Hpn&HL&HP).
    exists (n :: pre), pn, post, cause. split_and!; [done..| |].
    + rewrite HL, filter_cons_False; [done|].
      destruct Hs as [p Hp]. by rewrite Hp.
    + intros x. rewrite HP, elem_of_cons. split; [tauto|].
      intros [?|[->|?]]; auto.
  - apply eq_None_not_Some in Hs.
    pose proof (load_plugin_consistent world n m Hc) as Hc1.
    destruct (load_plugin world n m) as [m1 [p|e1|]] eqn:Hl1; [| |done].
    + simpl in Hc1. apply load_plugin_Done_books in Hl1
        as (_&cls&config&_&_&_&HP1&_&_&HL1&_).
      destruct (IH _ _ _ Hnd Hc1 Hl) as (pre&pn&post&cause&->&->&Hpn&HL&HP).
      assert (pn ≠ n) as Hne. { intros ->. apply Hn. set_solver. }
      rewrite HP1, lookup_insert_ne in Hpn by done.
      exists (n :: pre), pn, post, cause. split_and!; [done..| |].
      * rewrite HL, HL1, filter_cons_True, <- app_assoc by done. simpl.
        do 2 f_equal. apply SubscriptionFacts.filter_agree. intros x Hx.
        rewrite HP1, lookup_insert_ne; [done|]. intros ->. apply Hn. set_solver.
      * intros x. rewrite HP, HP1, elem_of_cons.
        destruct (decide (x = n)) as [->|Hne'].
        -- rewrite lookup_insert_eq. split; eauto.
        -- rewrite lookup_insert_ne by done. split; [tauto|].
           intros [?|[->|?]]; auto. done.
    + injection Hl as <- <-.
      destruct (load_plugin_Raised world _ _ _ _ Hl1 Hs) as [[cause ->] _].
      destruct (load_plugin_Raised_restores world _ _ _ _ Hc Hl1) as (HP&_&HL&_).
      exists [], n, order, cause. split_and!; [done..| |].
      * rewrite HL. simpl. by rewrite app_nil_r.
      * intros x. rewrite HP. set_solver.
Qed.

Lemma resolve_dependencies_covers d names order :
  Discovery.resolve_dependencies d names = Done order →
  NoDup order ∧ Discovery.deps_first d order ∧
  ∀ x, x ∈ order ↔ Discovery.reachable_from d names x.
Proof.
  intros (Hnd&Hdf&Hin&Hre)%DiscoveryFacts.resolve_dependencies_Done.
  split_and!; [done..|]. intros x. split; [apply Hre|].
  intros (r&Hr&Hrx). eapply DiscoveryFacts.deps_first_rtc; eauto.
Qed.

End order.

(** When [load_plugins] returns, every plugin within reach of the request
    is loaded, and nothing else is that was not loaded before; the load
    order has grown by the resolved order less the plugins that were
    loaded already; so on a manager with nothing loaded, the load order is
    the resolved order, every plugin after its dependencies. *)
Theorem load_plugins_loads_closure world names m m' :
  load_plugins world names m = (m', Done tt) →
  ∃ order,
    Discovery.resolve_dependencies (discovered m) names = Done order ∧
    _load_order m' =
      _load_order m ++ filter (λ n, get_loaded_plugins m !! n = None) order ∧
    (∀ n, is_Some (get_loaded_plugins m' !! n) ↔
          is_Some (get_loaded_plugins m !! n) ∨
          Discovery.reachable_from (discovered m) names n) ∧
    (get_loaded_plugins m = ∅ → _load_order m = [] →
     _load_order m' = order ∧
     Discovery.deps_first (discovered m) (_load_order m')).
Proof.
  unfold load_plugins, get_loaded_plugins.
  destruct (Discovery.resolve_dependencies (discovered m) names)
    as [order| |] eqn:Hres; [|done..].
  intros Hl. exists order. split; [done|].
  destruct (resolve_dependencies_covers _ _ _ Hres) as (Hnd&Hdf&Hcov).
  destruct (load_in_order_Done world _ _ _ Hnd Hl) as [HL HP].
  split_and!; [done| |].
  - intros n. by rewrite HP, Hcov.
  - intros He Ho. assert (_load_order m' = order) as Heq.
    { rewrite HL, Ho. simpl. apply SubscriptionFacts.filter_all.
      apply Forall_forall. intros x _. by rewrite He, lookup_empty. }
    by rewrite Heq.
Qed.

Lemma load_plugins_loads_closure_witness :
  ∃ m', load_plugins chain_world ["B"] (new_manager Discovery.chain) =
          (m', Done tt) ∧
        _load_order m' = ["A"; "B"].
Proof.
  destruct (load_plugins chain_world ["B"] (new_manager Discovery.chain))
    as [m' r] eqn:Hl.
  assert (r = Done tt) as -> by (by vm_compute in Hl; simplify_eq).
  destruct (load_plugins_loads_closure chain_world ["B"]
              (new_manager Discovery.chain) m' Hl) as (order&Hres&HL&_).
  vm_compute in Hres. injection Hres as <-.
  exists m'. split; [reflexivity|]. rewrite HL. reflexivity.
Defined.

(** [load_plugins] does not roll back.  When it raises, it is the
    dependency error with the manager unchanged, or the load error of one
    plugin of the resolved order; then the plugins before it in that
    order are loaded and stay loaded, the failing one is not loaded, and
    none of those after it was tried. *)
Theorem load_plugins_keeps_earlier world names m m' e :
  consistent m →
  load_plugins world names m = (m', Raised e) →
  (∃ cause, e = PluginDependencyError cause ∧ m' = m) ∨
  ∃ order pre plugin_name post cause,
    Discovery.resolve_dependencies (discovered m) names = Done order ∧
    order = pre ++ plugin_name :: post ∧
    e = PluginLoadError plugin_name cause ∧
    Discovery.reachable_from (discovered m) names plugin_name ∧
    (∀ n, is_Some (get_loaded_plugins m' !! n) ↔
          is_Some (get_loaded_plugins m !! n) ∨ n ∈ pre) ∧
    get_loaded_plugins m' !! plugin_name = None ∧
    _load_order m' =
      _load_order m ++ filter (λ n, get_loaded_plugins m !! n = None) pre.
Proof.
  unfold load_plugins, get_loaded_plugins. intros Hc.
  destruct (Discovery.resolve_dependencies (discovered m) names)
    as [order|cause|] eqn:Hres; [| |done].
  2:{ intros [= <- <-]. left. eauto. }
  intros Hl. right.
  destruct (resolve_dependencies_covers _ _ _ Hres) as (Hnd&Hdf&Hcov).
  destruct (load_in_order_Raised world _ _ _ _ Hnd Hc Hl)
    as (pre&pn&post&cause&->&->&Hpn&HL&HP).
  exists (pre ++ pn :: post), pre, pn, post, cause.
  split_and!; [done..| |done| |done].
  - apply Hcov. set_solver.
  - apply eq_None_not_Some. rewrite HP. intros [[p Hp]|Hin]; [congruence|].
    apply NoDup_app in Hnd as (_&Hnd&_). apply (Hnd pn); set_solver.
Qed.

Lemma load_plugins_keeps_earlier_witness :
  ∃ m', load_plugins test_world ["helper"] (new_manager pair) =
          (m', Raised (PluginLoadError "helper" StartFailed)) ∧
        get_loaded_plugins m' !! "helper" = None.
Proof.
  destruct (load_plugins test_world ["helper"] (new_manager pair))
    as [m' r] eqn:Hl.
  assert (r = Raised (PluginLoadError "helper" StartFailed)) as ->
    by (by vm_compute in Hl; simplify_eq).
  destruct (load_plugins_keeps_earlier test_world ["helper"] (new_manager pair)
              m' _ (new_manager_consistent pair) Hl)
    as [(c&Hc&_)|(order&pre&pn&post&cause&_&_&He&_&_&Hpn&_)]; [done|].
  injection He as <- <-. exists m'. split; [reflexivity|exact Hpn].
Defined.

Section closing.
Variable world : World.

Lemma stoppable_class m m1 plugin :
  plugin_class <$> objects m1 !! plugin = plugin_class <$> objects m !! plugin →
  stoppable m1 plugin = stoppable m plugin.
Proof.
  unfold stoppable.
  destruct (objects m1 !! plugin), (objects m !! plugin); simpl; congruence.
Qed.

(** One turn of the loop of [shutdown]. *)
Lemma unload_plugin_step n m :
  consistent m →
  let m1 := (unload_plugin world n m).1 in
  (∀ q, plugin_class <$> objects m1 !! q = plugin_class <$> objects m !! q) ∧
  (∀ x, x ≠ n → _plugins m1 !! x = _plugins m !! x) ∧
  match _plugins m !! n with
  | None => m1 = m
  | Some plugin =>
    (∀ q, q ≠ plugin → objects m1 !! q = objects m !! q) ∧
    if stoppable m plugin
    then _plugins m1 !! n = None ∧ status m1 plugin = Some STOPPED
    else _plugins m1 !! n = Some plugin ∧ status m1 plugin = Some ERROR
  end.
Proof.
  intros (_&_&_&_&Hobj). cbv zeta.
  destruct (unload_plugin world n m) as [m1 [[]|e|]] eqn:Hu; simpl.
  - apply unload_plugin_Done_books in Hu
      as (p&o&Hp&Ho&Hs&HP&_&_&_&_&_&_&_&HO).
    rewrite Hp, HP, HO. unfold stoppable, status. rewrite HO, Ho, Hs.
    assert (p < length (objects m)) by by eapply lookup_lt_Some.
    split_and!.
    + intros q. destruct (decide (q = p)) as [->|].
      * rewrite list_lookup_insert_eq by done. by rewrite Ho.
      * by rewrite list_lookup_insert_ne.
    + intros x Hx. by rewrite lookup_delete_ne.
    + intros q Hq. by rewrite list_lookup_insert_ne.
    + by rewrite lookup_delete_eq.
    + by rewrite list_lookup_insert_eq.
  - apply unload_plugin_Raised_books in Hu
      as (HP&_&_&_&_&_&_&_&_&[(_&Hp&->)|(_&p&Hp&HO)]).
    { by rewrite Hp. }
    rewrite Hp, HP. destruct (Hobj _ _ Hp) as (o&Ho&_).
    unfold stoppable, status.
    destruct (HO o Ho) as [Hs ->]. rewrite Ho, Hs.
    assert (p < length (objects m)) by by eapply lookup_lt_Some.
    split_and!; try done.
    + intros q. destruct (decide (q = p)) as [->|].
      * rewrite list_lookup_insert_eq by done. by rewrite Ho.
      * by rewrite list_lookup_insert_ne.
    + intros q Hq. by rewrite list_lookup_insert_ne.
    + by rewrite list_lookup_insert_eq.
  - pose proof (unload_plugin_returns world n m) as Hr. by rewrite Hu in Hr.
Qed.

(** The loop of [shutdown] over names without repetition. *)
Lemma unload_loop_spec l : ∀ m,
  NoDup l → consistent m →
  let m' := foldl (λ m n, (unload_plugin world n m).1) m l in
  (∀ q, plugin_class <$> objects m' !! q = plugin_class <$> objects m !! q) ∧
  (∀ n, n ∉ l → _plugins m' !! n = _plugins m !! n) ∧
  (∀ q, (∀ n, n ∈ l → _plugins m !! n ≠ Some q) →
        objects m' !! q = objects m !! q) ∧
  (∀ n plugin, n ∈ l → _plugins m !! n = Some plugin →
     if stoppable m plugin
     then _plugins m' !! n = None ∧ status m' plugin = Some STOPPED
     else _plugins m' !! n = Some plugin ∧ status m' plugin = Some ERROR).
Proof.
  induction l as [|a l IH]; intros m Hnd Hc; cbv zeta.
  { simpl. split_and!; try done. intros n p Hn. by apply elem_of_nil in Hn. }
  apply NoDup_cons in Hnd as [Ha Hnd]. simpl.
  pose proof (unload_plugin_consistent world a m Hc) as Hc1.
  destruct (unload_plugin_step a m Hc) as (Hcls1&Hoth1&Hstep).
  destruct (IH _ Hnd Hc1) as (Hcls&Hout&Hobj&Hin).
  set (m1 := (unload_plugin world a m).1) in *.
  set (m' := foldl (λ m n, (unload_plugin world n m).1) m1 l) in *.
  destruct Hc as (_&_&_&Hinj&_).
  split_and!.
  - intros q. by rewrite Hcls, Hcls1.
  - intros n Hn. rewrite Hout by set_solver. apply Hoth1. set_solver.
  - intros q Hq. rewrite Hobj.
    + destruct (_plugins m !! a) as [p|] eqn:Hp; [|by rewrite Hstep].
      destruct Hstep as [Hstep _]. apply Hstep. intros ->.
      by apply (Hq a); [set_solver|].
    + intros n Hn. rewrite Hoth1 by (intros ->; done). apply Hq. set_solver.
  - intros n p [->|Hn]%elem_of_cons Hp.
    + rewrite Hp in Hstep. destruct Hstep as [_ Hstep].
      rewrite (Hout a Ha). unfold status in *. rewrite Hobj; [done|].
      intros x Hx. rewrite Hoth1 by (intros ->; done). intros Hxp.
      apply Ha. by rewrite <- (Hinj _ _ _ Hxp Hp).
    + assert (n ≠ a) as Hne by (intros ->; done).
      specialize (Hin n p Hn). rewrite Hoth1 in Hin by done.
      specialize (Hin Hp). by rewrite (stoppable_class m m1 p) in Hin.
Qed.

End closing.

(** The loop of [shutdown], from consistent books: every loaded plugin
    whose stop returns is unloaded and left stopped; every one whose stop
    raises stays loaded, in error; nothing else gets loaded.  So when
    every stop returns, no plugin is loaded afterwards and the load
    order is empty. *)
Theorem shutdown_unloads_what_stops world m :
  consistent m →
  let m' := unload_all world m in
  (∀ n plugin, get_loaded_plugins m !! n = Some plugin →
     if stoppable m plugin
     then get_loaded_plugins m' !! n = None ∧ status m' plugin = Some STOPPED
     else get_loaded_plugins m' !! n = Some plugin ∧
          status m' plugin = Some ERROR) ∧
  (∀ n, get_loaded_plugins m !! n = None → get_loaded_plugins m' !! n = None) ∧
  ((∀ n plugin, get_loaded_plugins m !! n = Some plugin →
      stoppable m plugin = true) →
   get_loaded_plugins m' = ∅ ∧ _load_order m' = []).
Proof.
  intros Hc. cbv zeta. unfold get_loaded_plugins.
  pose proof (unload_loop_consistent world (reverse (_load_order m)) m Hc) as Hc'.
  pose proof Hc as (Hnd&Hdom&_).
  assert (NoDup (reverse (_load_order m))) as Hnd' by by rewrite reverse_Permutation.
  destruct (unload_loop_spec world _ m Hnd' Hc) as (_&Hout&_&Hin).
  fold (unload_all world m) in Hc', Hout, Hin.
  assert (∀ n, n ∈ reverse (_load_order m) ↔ is_Some (_plugins m !! n)) as Hmem.
  { intros n. rewrite elem_of_reverse, <- elem_of_dom, Hdom.
    by rewrite elem_of_list_to_set. }
  assert (∀ n, _plugins m !! n = None → _plugins (unload_all world m) !! n = None)
    as Hnone.
  { intros n Hn. rewrite Hout; [done|]. rewrite Hmem, Hn. by intros [? ?]. }
  split_and!; [|done|].
  - intros n p Hp. apply Hin; [|done]. apply Hmem. by rewrite Hp.
  - intros Hall.
    assert (_plugins (unload_all world m) = ∅) as He.
    { apply map_empty. intros n.
      destruct (_plugins m !! n) as [p|] eqn:Hp; [|by apply Hnone].
      assert (n ∈ reverse (_load_order m)) as Hn by (apply Hmem; by rewrite Hp).
      pose proof (Hin n p Hn Hp) as Hs. rewrite (Hall n p Hp) in Hs.
      by destruct Hs. }
    split; [done|]. destruct Hc' as (_&Hdom'&_).
    rewrite He, dom_empty_L in Hdom'.
    destruct (_load_order (unload_all world m)) as [|x lo]; [done|].
    simpl in Hdom'. set_solver.
Qed.

Lemma shutdown_unloads_what_stops_witness :
  is_Some (get_loaded_plugins
             (unload_all chain_world
                (load_plugins chain_world ["B"] (new_manager Discovery.chain)).1)
           !! "A") ∧
  get_loaded_plugins
    (unload_all chain_world
       (load_plugins chain_world ["B"] (new_manager Discovery.chain)).1)
  !! "B" = None.
Proof.
  set (m := (load_plugins chain_world ["B"] (new_manager Discovery.chain)).1).
  assert (consistent m) as Hc
    by apply load_plugins_consistent, new_manager_consistent.
  destruct (shutdown_unloads_what_stops chain_world m Hc) as (Hin&_&_).
  split.
  - pose proof (Hin "A" 0 ltac:(vm_compute; reflexivity)) as HA.
    change (stoppable m 0) with false in HA. destruct HA as [-> _]. eauto.
  - pose proof (Hin "B" 1 ltac:(vm_compute; reflexivity)) as HB.
    change (stoppable m 1) with true in HB. by destruct HB as [-> _].
Defined.

(** A hot reload that returns has stopped and removed the old object and
    loaded a new, active one under the same name; the name is now the
    last of the load order, wherever it was before. *)
Theorem reload_moves_to_end world world' plugin_name m m' plugin' :
  consistent m →
  reload_plugin world world' plugin_name m = (m', Done plugin') →
  ∃ plugin,
    get_loaded_plugins m !! plugin_name = Some plugin ∧
    plugin' = length (objects m) ∧ plugin ≠ plugin' ∧
    get_loaded_plugins m' = <[plugin_name := plugin']> (get_loaded_plugins m) ∧
    _load_order m' = remove_first plugin_name (_load_order m) ++ [plugin_name] ∧
    status m' plugin = Some STOPPED ∧
    status m' plugin' = Some ACTIVE.
Proof.
  intros Hc. unfold reload_plugin, get_loaded_plugins.
  destruct (_plugins m !! plugin_name) as [p|] eqn:Hp; [|done].
  destruct (plugin_class <$> objects m !! p) as [cls|]; [|done].
  destruct (hot_reload_supported cls); [|done].
  destruct (unload_plugin world plugin_name m) as [m1 [[]|e1|]] eqn:Hu; [|done..].
  destruct (load_class world' plugin_name); [|done].
  destruct (load_plugin world' plugin_name m1) as [m2 [q|e2|]] eqn:Hl; [|done..].
  intros [= <- <-]. exists p. split; [done|].
  apply unload_plugin_Done_books in Hu
    as (pold&o&Hpold&Ho&_&HP1&_&_&HL1&_&_&_&_&HO1).
  rewrite Hp in Hpold. injection Hpold as <-.
  apply load_plugin_Done_books in Hl
    as (_&cls2&config&_&_&->&HP2&_&_&HL2&HO2).
  assert (p < length (objects m)) as Hlt by by eapply lookup_lt_Some.
  unfold status. rewrite HP2, HL2, HO2, HP1, HL1, HO1, length_insert.
  split_and!; [done|lia|by rewrite insert_delete_eq|done| |].
  - rewrite lookup_app_l by (rewrite length_insert; lia).
    by rewrite list_lookup_insert_eq.
  - rewrite <- (length_insert (objects m) p
      {| plugin_class := plugin_class o; _status := STOPPED |}).
    by rewrite lookup_last.
Qed.

Lemma reload_moves_to_end_witness :
  ∃ m', reload_plugin chain_world chain_world "B"
          (load_plugins chain_world ["B"] (new_manager Discovery.chain)).1 =
          (m', Done 2) ∧
        _load_order m' = ["A"; "B"] ∧ status m' 1 = Some STOPPED.
Proof.
  set (m := (load_plugins chain_world ["B"] (new_manager Discovery.chain)).1).
  assert (consistent m) as Hc
    by apply load_plugins_consistent, new_manager_consistent.
  destruct (reload_plugin chain_world chain_world "B" m) as [m' r] eqn:Hr.
  assert (r = Done 2) as -> by (by vm_compute in Hr; simplify_eq).
  destruct (reload_moves_to_end chain_world chain_world "B" m m' 2 Hc Hr)
    as (p&Hp&_&_&_&HL&Hs&_).
  assert (p = 1) as -> by (by vm_compute in Hp; simplify_eq).
  exists m'. split_and!; [reflexivity| |exact Hs].
  rewrite HL. reflexivity.
Defined.

(** A hot reload is not atomic.  When it raises: for a plugin that is not
    loaded or does not support it, nothing has changed; when the stop of
    the old object raised, the plugin is still loaded, in error; and when
    the new version could not be imported or loaded, the plugin is no
    longer loaded at all: the old object is stopped and removed, the
    books are those of the unload. *)
Theorem failed_reload_unloads world world' plugin_name m m' e :
  consistent m →
  reload_plugin world world' plugin_name m = (m', Raised e) →
  (e = Propagated (PluginNotFoundError plugin_name) ∧ m' = m ∧
   get_loaded_plugins m !! plugin_name = None) ∨
  ∃ plugin, get_loaded_plugins m !! plugin_name = Some plugin ∧
    ((e = HotReloadUnsupported plugin_name ∧ m' = m) ∨
     (e = Propagated (PluginStopError plugin_name) ∧
      get_loaded_plugins m' = get_loaded_plugins m ∧
      _load_order m' = _load_order m ∧
      status m' plugin = Some ERROR) ∨
     ((e = DiscoveryReloadFailed plugin_name ∨
       ∃ cause, e = Propagated (PluginLoadError plugin_name cause)) ∧
      get_loaded_plugins m' = delete plugin_name (get_loaded_plugins m) ∧
      _load_order m' = remove_first plugin_name (_load_order m) ∧
      status m' plugin = Some STOPPED)).
Proof.
  intros Hc. unfold reload_plugin, get_loaded_plugins.
  destruct (_plugins m !! plugin_name) as [p|] eqn:Hp.
  2:{ intros [= <- <-]. by left. }
  intros Hr. right. exists p. split; [done|]. revert Hr.
  destruct (plugin_class <$> objects m !! p) as [cls|].
  2:{ intros [= <- <-]. by left. }
  destruct (hot_reload_supported cls).
  2:{ intros [= <- <-]. by left. }
  pose proof (unload_plugin_consistent world plugin_name m Hc) as Hc1.
  destruct (unload_plugin world plugin_name m) as [m1 [[]|e1|]] eqn:Hu.
  - simpl in Hc1. apply unload_plugin_Done_books in Hu
      as (pold&o&Hpold&Ho&_&HP1&_&_&HL1&_&_&_&_&HO1).
    rewrite Hp in Hpold. injection Hpold as <-.
    assert (p < length (objects m)) as Hlt by by eapply lookup_lt_Some.
    assert (status m1 p = Some STOPPED) as Hs1.
    { unfold status. rewrite HO1. by rewrite list_lookup_insert_eq. }
    destruct (load_class world' plugin_name).
    2:{ intros [= <- <-]. right. right. split_and!; eauto. }
    destruct (load_plugin world' plugin_name m1) as [m2 [q|e2|]] eqn:Hl; [done| |done].
    intros [= <- <-]. right. right.
    assert (_plugins m1 !! plugin_name = None) as Hn
      by (by rewrite HP1, lookup_delete_eq).
    destruct (load_plugin_Raised world' _ _ _ _ Hl Hn) as [[cause ->] _].
    destruct (load_plugin_Raised_restores world' _ _ _ _ Hc1 Hl) as (HP2&_&HL2&HO2).
    rewrite HP2, HL2, HP1, HL1. split_and!; eauto.
    unfold status in *. destruct (objects m1 !! p) as [o1|] eqn:Ho1; [|done].
    by rewrite (prefix_lookup_Some _ _ _ _ Ho1 HO2).
  - apply unload_plugin_Raised_books in Hu
      as (HP&_&_&HL&_&_&_&_&_&[(_&Hp'&_)|(->&pold&Hpold&HO)]); [congruence|].
    rewrite Hp in Hpold. injection Hpold as <-.
    intros [= <- <-]. right. left. split_and!; [done..|].
    destruct Hc as (_&_&_&_&Hobj). destruct (Hobj _ _ Hp) as (o&Ho&_).
    destruct (HO o Ho) as [_ HO']. unfold status. rewrite HO'.
    rewrite list_lookup_insert_eq; [done|]. by eapply lookup_lt_Some.
  - pose proof (unload_plugin_returns world plugin_name m) as Hret.
    by rewrite Hu in Hret.
Qed.

Lemma failed_reload_unloads_witness :
  ∃ m', reload_plugin chain_world broken_world "B"
          (load_plugins chain_world ["B"] (new_manager Discovery.chain)).1 =
          (m', Raised (Propagated (PluginLoadError "B" StartFailed))) ∧
        get_loaded_plugins m' !! "B" = None.
Proof.
  set (m := (load_plugins chain_world ["B"] (new_manager Discovery.chain)).1).
  assert (consistent m) as Hc
    by apply load_plugins_consistent, new_manager_consistent.
  destruct (reload_plugin chain_world broken_world "B" m) as [m' r] eqn:Hr.
  assert (r = Raised (Propagated (PluginLoadError "B" StartFailed))) as ->
    by (by vm_compute in Hr; simplify_eq).
  destruct (failed_reload_unloads chain_world broken_world "B" m m' _ Hc Hr)
    as [(He&_)|(p&Hp&[(He&_)|[(He&_)|(_&HP&_)]])]; [done..|].
  exists m'. split; [reflexivity|]. rewrite HP. apply lookup_delete_eq.
Defined.

End LifecycleFacts.
